(** * AdvancedDX11Starter: scene graph, lights and frame loop

    A shallow embedding of [Game.cpp] and [ThirdPersonCamera.cpp].
    Floats are idealised as rationals ([Q]); pointers to Transforms are
    indices into an arena of Transform records; the DirectXMath matrix
    operations are an interface the embedding is parametric in. *)

From Stdlib Require Import ZArith QArith List Bool Lia Lqa Ascii String DecimalString DecimalZ.
From stdpp Require Import base option list.

Set Default Proof Using "Type".

(** ** DirectXMath values *)

Record XMFLOAT3 : Type := Float3 { f3x : Q; f3y : Q; f3z : Q }.

Definition f3add (a b : XMFLOAT3) : XMFLOAT3 :=
  Float3 (f3x a + f3x b)%Q (f3y a + f3y b)%Q (f3z a + f3z b)%Q.

Definition f3sub (a b : XMFLOAT3) : XMFLOAT3 :=
  Float3 (f3x a - f3x b)%Q (f3y a - f3y b)%Q (f3z a - f3z b)%Q.

(** The matrix part of DirectXMath the Transform uses.  [M] stands for
    XMFLOAT4X4; nothing is assumed about the operations. *)
Class DirectXMath (M : Type) : Type := {
  XMMatrixIdentity : M;
  XMMatrixMultiply : M -> M -> M;
  XMMatrixScaling : XMFLOAT3 -> M;
  XMMatrixRotationRollPitchYaw : XMFLOAT3 -> M;
  XMMatrixTranslation : XMFLOAT3 -> M;
  (** [XMVector3Rotate v rot]: the vector [v] turned by the rotation
      whose pitch, yaw and roll are [rot]. *)
  XMVector3Rotate : XMFLOAT3 -> XMFLOAT3 -> XMFLOAT3
}.

(** ** Transform (scene graph node) *)

Module Transform.

Record t (M : Type) : Type := Build {
  position : XMFLOAT3;
  pitchYawRoll : XMFLOAT3;
  scale : XMFLOAT3;
  matricesDirty : bool;
  worldMatrix : M;
  children : list nat;
  parent : option nat
}.
Arguments Build {M}.
Arguments position {M}.
Arguments pitchYawRoll {M}.
Arguments scale {M}.
Arguments matricesDirty {M}.
Arguments worldMatrix {M}.
Arguments children {M}.
Arguments parent {M}.

End Transform.
Import Transform.

Abbreviation Transform := Transform.t.
(** The arena: [Transform*] is an index into it. *)
Abbreviation Store M := (list (Transform M)).

Section TransformOps.
Context {M : Type}.

Definition setPosition (v : XMFLOAT3) (t : Transform M) : Transform M :=
  Build v (pitchYawRoll t) (scale t) (matricesDirty t) (worldMatrix t) (children t) (parent t).
Definition setPitchYawRoll (v : XMFLOAT3) (t : Transform M) : Transform M :=
  Build (position t) v (scale t) (matricesDirty t) (worldMatrix t) (children t) (parent t).
Definition setScale (v : XMFLOAT3) (t : Transform M) : Transform M :=
  Build (position t) (pitchYawRoll t) v (matricesDirty t) (worldMatrix t) (children t) (parent t).
Definition setDirty (t : Transform M) : Transform M :=
  Build (position t) (pitchYawRoll t) (scale t) true (worldMatrix t) (children t) (parent t).
Definition setClean (w : M) (t : Transform M) : Transform M :=
  Build (position t) (pitchYawRoll t) (scale t) false w (children t) (parent t).
Definition setChildren (l : list nat) (t : Transform M) : Transform M :=
  Build (position t) (pitchYawRoll t) (scale t) (matricesDirty t) (worldMatrix t) l (parent t).
Definition setParent (p : option nat) (t : Transform M) : Transform M :=
  Build (position t) (pitchYawRoll t) (scale t) (matricesDirty t) (worldMatrix t) (children t) p.

(** Modelled from the spec: the Transform class (Transform.h/.cpp are not
    among the sources).  A new Transform sits at the origin with unit
    scale, no parent, no children, and a world matrix still to compute. *)
Definition newTransform (w0 : M) : Transform M :=
  Build (Float3 0 0 0) (Float3 0 0 0) (Float3 1 1 1) true w0 [] None.

(** Position of [x] in a child list. *)
Fixpoint indexOf (x : nat) (l : list nat) : option nat :=
  match l with
  | [] => None
  | y :: l' => if Nat.eqb x y then Some 0%nat else S <$> indexOf x l'
  end.

(** Modelled from the spec: [IndexOfChild] "returns position in child list
    or a not-found sentinel". *)
Definition IndexOfChild (s : Store M) (self node : nat) : Z :=
  match s !! self with
  | Some ts => match indexOf node (children ts) with
               | Some i => Z.of_nat i
               | None => (-1)%Z
               end
  | None => (-1)%Z
  end.

(** Walk from [x] up the parent pointers looking for [a] ([x] itself
    included).  The walk is bounded by [fuel]; in an acyclic arena a chain
    is shorter than the arena, so the bound is not reached there. *)
Fixpoint onParentChain (fuel : nat) (s : Store M) (a x : nat) : bool :=
  if Nat.eqb a x then true
  else match fuel with
       | O => true
       | S f => match s !! x with
                | Some tx => match parent tx with
                             | Some p => onParentChain f s a p
                             | None => false
                             end
                | None => false
                end
       end.

Definition isAncestorOrSelf (s : Store M) (a x : nat) : bool :=
  onParentChain (length s) s a x.

(** Modelled from the spec: "any local mutation or parent-chain mutation
    marks the node and, conceptually, all descendants dirty". *)
Definition markDirty (s : Store M) (n : nat) : Store M :=
  imap (fun i t => if isAncestorOrSelf s n i then setDirty t else t) s.

(** Modelled from the spec: "overwrite local transform component; marks
    this node dirty". *)
Definition SetPosition (s : Store M) (n : nat) (v : XMFLOAT3) : Store M :=
  markDirty (alter (setPosition v) n s) n.
Definition SetRotation (s : Store M) (n : nat) (v : XMFLOAT3) : Store M :=
  markDirty (alter (setPitchYawRoll v) n s) n.
Definition SetScale (s : Store M) (n : nat) (v : XMFLOAT3) : Store M :=
  markDirty (alter (setScale v) n s) n.

(** Modelled from the spec: "adds a world-space offset to local position". *)
Definition MoveAbsolute (s : Store M) (n : nat) (d : XMFLOAT3) : Store M :=
  markDirty (alter (fun t => setPosition (f3add (position t) d) t) n s) n.

(** Modelled from the spec: "accumulates rotation". *)
Definition Rotate (s : Store M) (n : nat) (d : XMFLOAT3) : Store M :=
  markDirty (alter (fun t => setPitchYawRoll (f3add (pitchYawRoll t) d) t) n s) n.

(** Accessors of the local components; an absent node reads as zero. *)
Definition GetPosition (s : Store M) (n : nat) : XMFLOAT3 :=
  default (Float3 0 0 0) (position <$> s !! n).
Definition GetPitchYawRoll (s : Store M) (n : nat) : XMFLOAT3 :=
  default (Float3 0 0 0) (pitchYawRoll <$> s !! n).
Definition GetScale (s : Store M) (n : nat) : XMFLOAT3 :=
  default (Float3 0 0 0) (scale <$> s !! n).

(** Modelled from the spec: "removes node from child list if present,
    clears node's parent; no-op otherwise". *)
Definition RemoveChild (s : Store M) (self node : nat) : Store M :=
  match s !! self with
  | Some ts =>
      match indexOf node (children ts) with
      | Some i =>
          let s1 := alter (setChildren (delete i (children ts))) self s in
          let s2 := alter (setParent None) node s1 in
          markDirty s2 node
      | None => s
      end
  | None => s
  end.

(** Modelled from the spec: "fails silently / is a no-op if node is
    already a child, or if node is an ancestor of self (must prevent
    cycles); otherwise detaches node from any prior parent, appends to
    this node's child list, sets node's parent to self, and marks node
    dirty".  The node itself counts as its own ancestor: section 7 lists
    "adding a node as its own descendant" among the silent no-ops. *)
Definition AddChild (s : Store M) (self node : nat) : Store M :=
  match s !! self, s !! node with
  | Some ts, Some tn =>
      if (IndexOfChild s self node >? -1)%Z || isAncestorOrSelf s node self then s
      else
        let s1 := match parent tn with
                  | Some q => RemoveChild s q node
                  | None => s
                  end in
        let s2 := alter (fun t => setChildren (children t ++ [node]) t) self s1 in
        let s3 := alter (setParent (Some self)) node s2 in
        markDirty s3 node
  | _, _ => s
  end.

Context `{!DirectXMath M}.

(** Modelled from the spec: "adds an offset expressed in the node's own
    local orientation (rotates the offset vector by current rotation
    before adding)". *)
Definition MoveRelative (s : Store M) (n : nat) (d : XMFLOAT3) : Store M :=
  markDirty
    (alter (fun t => setPosition (f3add (position t) (XMVector3Rotate d (pitchYawRoll t))) t) n s) n.

(** Scale, then rotate, then translate. *)
Definition localMatrix (t : Transform M) : M :=
  XMMatrixMultiply
    (XMMatrixMultiply (XMMatrixScaling (scale t)) (XMMatrixRotationRollPitchYaw (pitchYawRoll t)))
    (XMMatrixTranslation (position t)).

(** Modelled from the spec: "if dirty, recompute world matrix as local
    matrix composed with parent's world matrix (identity if root) ...;
    clear dirty flag; return cached result".  [None] when the walk up the
    parents does not end within [fuel] steps or the node does not exist. *)
Fixpoint updateMatrices (fuel : nat) (s : Store M) (n : nat) : option (M * Store M) :=
  match fuel with
  | O => None
  | S f =>
      match s !! n with
      | None => None
      | Some tn =>
          if matricesDirty tn then
            match parent tn with
            | None =>
                let w := XMMatrixMultiply (localMatrix tn) XMMatrixIdentity in
                Some (w, alter (setClean w) n s)
            | Some p =>
                match updateMatrices f s p with
                | None => None
                | Some (pw, s1) =>
                    let w := XMMatrixMultiply (localMatrix tn) pw in
                    Some (w, alter (setClean w) n s1)
                end
            end
          else Some (worldMatrix tn, s)
      end
  end.

Definition GetWorldMatrix (s : Store M) (n : nat) : option (M * Store M) :=
  updateMatrices (length s) s n.

End TransformOps.

(** ** The hierarchy as the spec describes it *)

Section TransformSpec.
Context {M : Type}.

(** [Depth s n d]: following parent pointers from [n] reaches a root after
    [d] steps. *)
Inductive Depth (s : Store M) : nat -> nat -> Prop :=
| Depth_root n tn :
    s !! n = Some tn -> parent tn = None -> Depth s n 0
| Depth_child n tn p d :
    s !! n = Some tn -> parent tn = Some p -> Depth s p d -> Depth s n (S d).

(** No parent/child cycle: every node's parent chain ends at a root. *)
Definition acyclic (s : Store M) : Prop :=
  forall n, n < length s -> exists d, Depth s n d.

(** [AncestorOrSelf s a x]: [a] is [x] or lies on the parent chain of [x]. *)
Inductive AncestorOrSelf (s : Store M) (a : nat) : nat -> Prop :=
| Anc_self : AncestorOrSelf s a a
| Anc_step x tx p :
    s !! x = Some tx -> parent tx = Some p -> AncestorOrSelf s a p ->
    AncestorOrSelf s a x.

(** Parent pointers and child lists tell the same story. *)
Definition linksConsistent (s : Store M) : Prop :=
  (forall p tp c, s !! p = Some tp -> c ∈ children tp ->
     exists tc, s !! c = Some tc /\ parent tc = Some p) /\
  (forall c tc p, s !! c = Some tc -> parent tc = Some p ->
     exists tp, s !! p = Some tp /\ c ∈ children tp) /\
  (forall p tp, s !! p = Some tp -> NoDup (children tp)).

(** The parent/child state of the arena: per node, its parent pointer and
    its child list. *)
Definition links (s : Store M) : list (option nat * list nat) :=
  map (fun t => (parent t, children t)) s.

(** What the world matrix depends on. *)
Definition geometry (t : Transform M) : XMFLOAT3 * XMFLOAT3 * XMFLOAT3 * option nat :=
  (position t, pitchYawRoll t, scale t, parent t).

Context `{!DirectXMath M}.

(** The manually composed product: the node's local matrix times the
    world matrix of its parent, the identity standing for the parent of a
    root.  No cache is read. *)
Inductive WorldOf (s : Store M) : nat -> M -> Prop :=
| WorldOf_root n tn :
    s !! n = Some tn -> parent tn = None ->
    WorldOf s n (XMMatrixMultiply (localMatrix tn) XMMatrixIdentity)
| WorldOf_child n tn p pw :
    s !! n = Some tn -> parent tn = Some p -> WorldOf s p pw ->
    WorldOf s n (XMMatrixMultiply (localMatrix tn) pw).

(** No clean node holds a stale matrix. *)
Definition coherent (s : Store M) : Prop :=
  forall n tn, s !! n = Some tn -> matricesDirty tn = false ->
    WorldOf s n (worldMatrix tn).

Definition Inv (s : Store M) : Prop := acyclic s /\ coherent s.

(** Calls on the hierarchy, reads included. *)
Inductive Call : Type :=
| CSetPosition (n : nat) (v : XMFLOAT3)
| CSetRotation (n : nat) (v : XMFLOAT3)
| CSetScale (n : nat) (v : XMFLOAT3)
| CMoveAbsolute (n : nat) (v : XMFLOAT3)
| CMoveRelative (n : nat) (v : XMFLOAT3)
| CRotate (n : nat) (v : XMFLOAT3)
| CAddChild (self node : nat)
| CRemoveChild (self node : nat)
| CGetWorldMatrix (n : nat).

Definition call (c : Call) (s : Store M) : option (Store M) :=
  match c with
  | CSetPosition n v => Some (SetPosition s n v)
  | CSetRotation n v => Some (SetRotation s n v)
  | CSetScale n v => Some (SetScale s n v)
  | CMoveAbsolute n v => Some (MoveAbsolute s n v)
  | CMoveRelative n v => Some (MoveRelative s n v)
  | CRotate n v => Some (Rotate s n v)
  | CAddChild self node => Some (AddChild s self node)
  | CRemoveChild self node => Some (RemoveChild s self node)
  | CGetWorldMatrix n => snd <$> GetWorldMatrix s n
  end.

Fixpoint calls (cs : list Call) (s : Store M) : option (Store M) :=
  match cs with
  | [] => Some s
  | c :: cs' => match call c s with
                | Some s' => calls cs' s'
                | None => None
                end
  end.

(** A read names an existing node; the mutators take any index (on a
    missing node they change nothing). *)
Definition callValid (len : nat) (c : Call) : Prop :=
  match c with
  | CGetWorldMatrix n => n < len
  | _ => True
  end.

End TransformSpec.

(** What a read returns without recomputing. *)
Definition cacheOf {M : Type} (t : Transform M) : bool * M :=
  (matricesDirty t, worldMatrix t).

(** The child list without the first occurrence of [x]. *)
Definition removeFirst (x : nat) (l : list nat) : list nat :=
  match indexOf x l with
  | Some i => delete i l
  | None => l
  end.

(** ** A DirectXMath to evaluate with

    Matrices stay symbolic: two of them are equal exactly when they were
    built by the same operations from the same numbers.  A vector is
    turned with the rational parametrisation of sine and cosine by the
    half-angle tangent, taken at half the angle; at angle 0 it is exact. *)

Inductive SymMatrix : Type :=
| SymIdentity
| SymScaling (v : XMFLOAT3)
| SymRotationRollPitchYaw (v : XMFLOAT3)
| SymTranslation (v : XMFLOAT3)
| SymMultiply (a b : SymMatrix).

Definition ratCos (a : Q) : Q := ((1 - (a / 2) * (a / 2)) / (1 + (a / 2) * (a / 2)))%Q.
Definition ratSin (a : Q) : Q := ((2 * (a / 2)) / (1 + (a / 2) * (a / 2)))%Q.

Definition turnZ (a : Q) (v : XMFLOAT3) : XMFLOAT3 :=
  Float3 (f3x v * ratCos a - f3y v * ratSin a)%Q (f3x v * ratSin a + f3y v * ratCos a)%Q (f3z v).
Definition turnX (a : Q) (v : XMFLOAT3) : XMFLOAT3 :=
  Float3 (f3x v) (f3y v * ratCos a - f3z v * ratSin a)%Q (f3y v * ratSin a + f3z v * ratCos a)%Q.
Definition turnY (a : Q) (v : XMFLOAT3) : XMFLOAT3 :=
  Float3 (f3x v * ratCos a + f3z v * ratSin a)%Q (f3y v) (f3z v * ratCos a - f3x v * ratSin a)%Q.

(** Roll first, then pitch, then yaw. *)
Definition turn (v rot : XMFLOAT3) : XMFLOAT3 :=
  turnY (f3y rot) (turnX (f3x rot) (turnZ (f3z rot) v)).

#[export] Instance symbolicMath : DirectXMath SymMatrix := {|
  XMMatrixIdentity := SymIdentity;
  XMMatrixMultiply := SymMultiply;
  XMMatrixScaling := SymScaling;
  XMMatrixRotationRollPitchYaw := SymRotationRollPitchYaw;
  XMMatrixTranslation := SymTranslation;
  XMVector3Rotate := turn
|}.

(** ** Lights *)

Inductive LightType : Type :=
| LIGHT_TYPE_DIRECTIONAL
| LIGHT_TYPE_POINT
| LIGHT_TYPE_SPOT.

(** The fields of [Light] that Game.cpp reads and writes ([Type] is
    spelled [Type_]). *)
Record Light : Type := BuildLight {
  Type_ : LightType;
  Direction : XMFLOAT3;
  Range : Q;
  Position : XMFLOAT3;
  Intensity : Q;
  Color : XMFLOAT3;
  SpotFalloff : Q
}.

Definition LightType_eqb (a b : LightType) : bool :=
  match a, b with
  | LIGHT_TYPE_DIRECTIONAL, LIGHT_TYPE_DIRECTIONAL => true
  | LIGHT_TYPE_POINT, LIGHT_TYPE_POINT => true
  | LIGHT_TYPE_SPOT, LIGHT_TYPE_SPOT => true
  | _, _ => false
  end.

(** [int] to [size_t], as the comparison [lights.size() < lightCount]
    converts its right-hand side. *)
Definition to_size_t (i : Z) : Z := (i mod 2 ^ 64)%Z.

(** No [std::vector] holds more than [PTRDIFF_MAX] elements on the
    64-bit target ([max_size()] is at most that; for the lights it is
    lower still). *)
Definition vector_max_size : Z := (2 ^ 63 - 1)%Z.

Section Lights.
(** The C library's random numbers: [rand k] is the value of the [k]-th
    call, between 0 and [RAND_MAX]. *)
Variable RAND_MAX : Z.
Variable rand : nat -> Z.

(** [#define RandomRange(min, max) (float)rand() / RAND_MAX * (max - min) + min] *)
Definition RandomRange (k : nat) (min max : Q) : Q :=
  (inject_Z (rand k) / inject_Z RAND_MAX * (max - min) + min)%Q.

Definition dir1 : Light :=
  BuildLight LIGHT_TYPE_DIRECTIONAL (Float3 1 (-1) 1) 0 (Float3 0 0 0) 1
    (Float3 (8 # 10) (8 # 10) (8 # 10)) 0.
Definition dir2 : Light :=
  BuildLight LIGHT_TYPE_DIRECTIONAL (Float3 (-1) (-(1 # 4)) 0) 0 (Float3 0 0 0) 1
    (Float3 (2 # 10) (2 # 10) (2 # 10)) 0.
Definition dir3 : Light :=
  BuildLight LIGHT_TYPE_DIRECTIONAL (Float3 0 (-1) 1) 0 (Float3 0 0 0) 1
    (Float3 (2 # 10) (2 # 10) (2 # 10)) 0.

(** One pass through the body of the [while] loop; it calls [rand]
    eight times, starting with call [k]. *)
Definition point (k : nat) : Light :=
  BuildLight LIGHT_TYPE_POINT (Float3 0 0 0)
    (RandomRange (k + 6) 5 10)
    (Float3 (RandomRange k (-10) 10) (RandomRange (k + 1) (-5) 5) (RandomRange (k + 2) (-10) 10))
    (RandomRange (k + 7) (1 # 10) 3)
    (Float3 (RandomRange (k + 3) 0 1) (RandomRange (k + 4) 0 1) (RandomRange (k + 5) 0 1))
    0.

(** [while (lights.size() < lightCount) { ... lights.push_back(point); }].
    [None] when the call does not return: [push_back] on a vector of
    [vector_max_size] elements throws [std::length_error] (memory runs
    out before that), or the loop has not ended after [fuel] passes. *)
Fixpoint GenerateLights_loop (fuel : nat) (lightCount : Z) (k : nat) (lights : list Light)
  : option (list Light * nat) :=
  if (Z.of_nat (length lights) <? to_size_t lightCount)%Z then
    match fuel with
    | O => None
    | S f =>
        if (vector_max_size <=? Z.of_nat (length lights))%Z then None
        else GenerateLights_loop f lightCount (k + 8) (lights ++ [point k])
    end
  else Some (lights, k).

(** [Game::GenerateLights]: the new light list and the number of [rand]
    calls made so far; [None] when the call does not return. *)
Definition GenerateLights (lightCount : Z) (k : nat) : option (list Light * nat) :=
  GenerateLights_loop (Z.to_nat (to_size_t lightCount)) lightCount k [dir1; dir2; dir3].

End Lights.

(** ** The Game object *)

Record XMFLOAT4 : Type := Float4 { f4x : Q; f4y : Q; f4z : Q; f4w : Q }.

(** Meshes, shaders and textures are only compared by address; an
    address is a number.  [Material*] is an index into the material heap. *)
Record Material : Type := BuildMaterial {
  PS : nat;
  Shininess : Q;
  MaterialColor : XMFLOAT4;
  Albedo : nat;
  Normal : nat;
  Roughness : nat;
  Metal : nat
}.

Record GameEntity : Type := BuildEntity {
  Mesh : nat;
  EntityMaterial : nat;
  EntityTransform : nat
}.

(** Calls on the collaborators, in the order they are made. *)
Inductive Event : Type :=
| EvCameraUpdate (dt : Q)
| EvQuit
| EvGenerateLights
| EvSimulate (elapsed : Q)
| EvFetchResults (block : bool)
| EvRender (camera : nat).

Inductive VKey : Type :=
| VK_ESCAPE | VK_TAB | VK_LEFT | VK_RIGHT | VK_UP | VK_DOWN.

(** The Input singleton, as one frame sees it. *)
Record Input : Type := BuildInput {
  KeyDown : VKey -> bool;
  KeyPress : VKey -> bool
}.

(** The immediate-mode GUI, as one frame sees it: whether a header is
    open, and what each widget leaves in the variable it is handed. *)
Record ImGui : Type := BuildImGui {
  CollapsingHeader : string -> bool;
  Combo : string -> Z -> Z;
  InputFloat3 : string -> XMFLOAT3 -> XMFLOAT3;
  SliderFloat3 : string -> XMFLOAT3 -> XMFLOAT3;
  SliderFloat2 : string -> Q * Q -> Q * Q;
  SliderFloat : string -> Q -> Q;
  SliderInt : string -> Z -> Z;
  Checkbox : string -> bool -> bool;
  RadioButton : string -> LightType -> LightType -> LightType;
  ColorEdit3 : string -> XMFLOAT3 -> XMFLOAT3
}.

Module Game.

Record t (M : Type) : Type := Build {
  store : Store M;
  entities : list GameEntity;
  meshes : list nat;
  materials : list nat;
  materialHeap : list Material;
  textures : list nat;
  pixelShader : nat;
  pixelShaderPBR : nat;
  lights : list Light;
  lightCount : Z;
  camera : nat;
  interval : Q;
  randCalls : nat;
  log : list Event
}.
Arguments Build {M}.
Arguments store {M}.
Arguments entities {M}.
Arguments meshes {M}.
Arguments materials {M}.
Arguments materialHeap {M}.
Arguments textures {M}.
Arguments pixelShader {M}.
Arguments pixelShaderPBR {M}.
Arguments lights {M}.
Arguments lightCount {M}.
Arguments camera {M}.
Arguments interval {M}.
Arguments randCalls {M}.
Arguments log {M}.

End Game.
Import Game.

Abbreviation Game := Game.t.

Section GameFields.
Context {M : Type}.
Implicit Types (g : Game M).

Definition withStore (s : Store M) g : Game M :=
  Build s (entities g) (meshes g) (materials g) (materialHeap g) (textures g)
    (pixelShader g) (pixelShaderPBR g) (lights g) (lightCount g) (camera g)
    (interval g) (randCalls g) (log g).
Definition withEntities (es : list GameEntity) g : Game M :=
  Build (store g) es (meshes g) (materials g) (materialHeap g) (textures g)
    (pixelShader g) (pixelShaderPBR g) (lights g) (lightCount g) (camera g)
    (interval g) (randCalls g) (log g).
Definition withMaterialHeap (h : list Material) g : Game M :=
  Build (store g) (entities g) (meshes g) (materials g) h (textures g)
    (pixelShader g) (pixelShaderPBR g) (lights g) (lightCount g) (camera g)
    (interval g) (randCalls g) (log g).
Definition withLights (ls : list Light) g : Game M :=
  Build (store g) (entities g) (meshes g) (materials g) (materialHeap g) (textures g)
    (pixelShader g) (pixelShaderPBR g) ls (lightCount g) (camera g)
    (interval g) (randCalls g) (log g).
Definition withLightCount (n : Z) g : Game M :=
  Build (store g) (entities g) (meshes g) (materials g) (materialHeap g) (textures g)
    (pixelShader g) (pixelShaderPBR g) (lights g) n (camera g)
    (interval g) (randCalls g) (log g).
Definition withInterval (i : Q) g : Game M :=
  Build (store g) (entities g) (meshes g) (materials g) (materialHeap g) (textures g)
    (pixelShader g) (pixelShaderPBR g) (lights g) (lightCount g) (camera g)
    i (randCalls g) (log g).
Definition withRandCalls (k : nat) g : Game M :=
  Build (store g) (entities g) (meshes g) (materials g) (materialHeap g) (textures g)
    (pixelShader g) (pixelShaderPBR g) (lights g) (lightCount g) (camera g)
    (interval g) k (log g).
Definition emit (e : Event) g : Game M :=
  Build (store g) (entities g) (meshes g) (materials g) (materialHeap g) (textures g)
    (pixelShader g) (pixelShaderPBR g) (lights g) (lightCount g) (camera g)
    (interval g) (randCalls g) (log g ++ [e]).

End GameFields.

(** [std::to_string] on an [int]. *)
Definition to_string (i : Z) : string := NilEmpty.string_of_int (Z.to_int i).

(** [Game::ConcatStringAndInt] *)
Definition ConcatStringAndInt (str : string) (i : Z) : string :=
  String.append str (to_string i).

(** [v[i]] on a vector with an [int] index; [None] stands for the
    undefined behaviour of an index outside the vector. *)
Definition at_ {A} (v : list A) (i : Z) : option A :=
  if (i <? 0)%Z then None else v !! Z.to_nat i.

(** Modelled from the spec: the helper [FindIndex] (declared outside
    Game.cpp) looks an address up in an asset list; the index of its first
    occurrence, or -1. *)
Fixpoint FindIndex (v : list nat) (x : nat) : Z :=
  match v with
  | [] => (-1)%Z
  | y :: v' => if Nat.eqb x y then 0%Z
               else let r := FindIndex v' x in
                    if (r <? 0)%Z then (-1)%Z else (r + 1)%Z
  end.

(** [for (int i = 0; i < count; i++) body(i)], starting from [i]. *)
Fixpoint forLoop {St : Type} (body : nat -> St -> option St) (i count : nat) (st : St)
  : option St :=
  match count with
  | O => Some st
  | S c => match body i st with
           | Some st' => forLoop body (S i) c st'
           | None => None
           end
  end.

(** A [float] converted to [int]: the fraction is dropped. *)
Definition float_to_int (q : Q) : Z := Z.quot (Qnum q) (Z.pos (Qden q)).

(** ** The debug GUI pass *)

Definition SetMesh (m : nat) (e : GameEntity) : GameEntity :=
  BuildEntity m (EntityMaterial e) (EntityTransform e).
Definition SetMaterial (m : nat) (e : GameEntity) : GameEntity :=
  BuildEntity (Mesh e) m (EntityTransform e).

Definition SetPS (p : nat) (m : Material) : Material :=
  BuildMaterial p (Shininess m) (MaterialColor m) (Albedo m) (Normal m) (Roughness m) (Metal m).
Definition SetShininess (q : Q) (m : Material) : Material :=
  BuildMaterial (PS m) q (MaterialColor m) (Albedo m) (Normal m) (Roughness m) (Metal m).
Definition SetColor (c : XMFLOAT4) (m : Material) : Material :=
  BuildMaterial (PS m) (Shininess m) c (Albedo m) (Normal m) (Roughness m) (Metal m).
Definition SetAlbedo (a : nat) (m : Material) : Material :=
  BuildMaterial (PS m) (Shininess m) (MaterialColor m) a (Normal m) (Roughness m) (Metal m).
Definition SetNormal (a : nat) (m : Material) : Material :=
  BuildMaterial (PS m) (Shininess m) (MaterialColor m) (Albedo m) a (Roughness m) (Metal m).
Definition SetRoughness (a : nat) (m : Material) : Material :=
  BuildMaterial (PS m) (Shininess m) (MaterialColor m) (Albedo m) (Normal m) a (Metal m).
Definition SetMetal (a : nat) (m : Material) : Material :=
  BuildMaterial (PS m) (Shininess m) (MaterialColor m) (Albedo m) (Normal m) (Roughness m) a.

Definition setType (ty : LightType) (l : Light) : Light :=
  BuildLight ty (Direction l) (Range l) (Position l) (Intensity l) (Color l) (SpotFalloff l).
Definition setDirection (v : XMFLOAT3) (l : Light) : Light :=
  BuildLight (Type_ l) v (Range l) (Position l) (Intensity l) (Color l) (SpotFalloff l).
Definition setRange (q : Q) (l : Light) : Light :=
  BuildLight (Type_ l) (Direction l) q (Position l) (Intensity l) (Color l) (SpotFalloff l).
Definition setLightPosition (v : XMFLOAT3) (l : Light) : Light :=
  BuildLight (Type_ l) (Direction l) (Range l) v (Intensity l) (Color l) (SpotFalloff l).
Definition setIntensity (q : Q) (l : Light) : Light :=
  BuildLight (Type_ l) (Direction l) (Range l) (Position l) q (Color l) (SpotFalloff l).
Definition setColor (v : XMFLOAT3) (l : Light) : Light :=
  BuildLight (Type_ l) (Direction l) (Range l) (Position l) (Intensity l) v (SpotFalloff l).
Definition setSpotFalloff (q : Q) (l : Light) : Light :=
  BuildLight (Type_ l) (Direction l) (Range l) (Position l) (Intensity l) (Color l) q.

Section GameGui.
Context {M : Type}.
Variable gui : ImGui.
Implicit Types (g : Game M).
Local Open Scope string_scope.

(** The body of the loop over [j] in [GenerateEntitiesHeader]. *)
Definition childCheckbox (i j : nat) g : option (Game M) :=
  if Nat.eqb i j then Some g
  else
    ei ← entities g !! i;
    ej ← entities g !! j;
    let parentTransform := EntityTransform ei in
    let childTransform := EntityTransform ej in
    let isChild :=
      Checkbox gui
        (String.append (ConcatStringAndInt "Child " (Z.of_nat j + 1))
                       (ConcatStringAndInt "##" (Z.of_nat i + 1)))
        (IndexOfChild (store g) parentTransform childTransform >? -1)%Z in
    if negb isChild
    then Some (withStore (RemoveChild (store g) parentTransform childTransform) g)
    else Some (withStore (AddChild (store g) parentTransform childTransform) g).

Definition GenerateEntitiesHeader (i : nat) g : option (Game M) :=
  if CollapsingHeader gui (ConcatStringAndInt "Entity " (Z.of_nat i + 1)) then
    e ← entities g !! i;
    let currentMesh :=
      Combo gui (ConcatStringAndInt "Mesh##E" (Z.of_nat i)) (FindIndex (meshes g) (Mesh e)) in
    m ← at_ (meshes g) currentMesh;
    let g := withEntities (alter (SetMesh m) i (entities g)) g in
    e ← entities g !! i;
    let currentMaterial :=
      Combo gui (ConcatStringAndInt "Material##E" (Z.of_nat i))
        (FindIndex (materials g) (EntityMaterial e)) in
    mt ← at_ (materials g) currentMaterial;
    let g := withEntities (alter (SetMaterial mt) i (entities g)) g in
    e ← entities g !! i;
    let tr := EntityTransform e in
    let pos :=
      InputFloat3 gui (ConcatStringAndInt "Position##E" (Z.of_nat i)) (GetPosition (store g) tr) in
    let g := withStore (SetPosition (store g) tr pos) g in
    let rot :=
      SliderFloat3 gui (ConcatStringAndInt "Rotation##E" (Z.of_nat i))
        (GetPitchYawRoll (store g) tr) in
    let g := withStore (SetRotation (store g) tr rot) g in
    let scale :=
      InputFloat3 gui (ConcatStringAndInt "Scale##E" (Z.of_nat i)) (GetScale (store g) tr) in
    let g := withStore (SetScale (store g) tr scale) g in
    if CollapsingHeader gui (ConcatStringAndInt "Add/Remove Children##E" (Z.of_nat i + 1))
    then forLoop (childCheckbox i) 0 (length (entities g)) g
    else Some g
  else Some g.

Definition GenerateLightsHeader (i : nat) g : option (Game M) :=
  if CollapsingHeader gui (ConcatStringAndInt "Light " (Z.of_nat i + 1)) then
    l ← lights g !! i;
    let n := Z.of_nat i in
    let l := setType (RadioButton gui (ConcatStringAndInt "Directional##" n)
                        (Type_ l) LIGHT_TYPE_DIRECTIONAL) l in
    let l := setType (RadioButton gui (ConcatStringAndInt "Point##" n)
                        (Type_ l) LIGHT_TYPE_POINT) l in
    let l := setType (RadioButton gui (ConcatStringAndInt "Spot##" n)
                        (Type_ l) LIGHT_TYPE_SPOT) l in
    let l :=
      match Type_ l with
      | LIGHT_TYPE_SPOT =>
          let l := setSpotFalloff
                     (SliderFloat gui (ConcatStringAndInt "Spot Falloff##" n) (SpotFalloff l)) l in
          setDirection (SliderFloat3 gui (ConcatStringAndInt "Direction##" n) (Direction l)) l
      | LIGHT_TYPE_DIRECTIONAL =>
          setDirection (SliderFloat3 gui (ConcatStringAndInt "Direction##" n) (Direction l)) l
      | LIGHT_TYPE_POINT =>
          setRange (SliderFloat gui (ConcatStringAndInt "Range##" n) (Range l)) l
      end in
    let l := setLightPosition
               (InputFloat3 gui (ConcatStringAndInt "Position##L" n) (Position l)) l in
    let l := setIntensity
               (SliderFloat gui (ConcatStringAndInt "Intensity##" n) (Intensity l)) l in
    let l := setColor (ColorEdit3 gui (ConcatStringAndInt "Color##L" n) (Color l)) l in
    Some (withLights (<[i := l]> (lights g)) g)
  else Some g.

Definition GenerateCameraHeader g : option (Game M) :=
  if CollapsingHeader gui "Cameras" then
    let tr := camera g in
    let pos := InputFloat3 gui "Position##C" (GetPosition (store g) tr) in
    let g := withStore (SetPosition (store g) tr pos) g in
    let rot := GetPitchYawRoll (store g) tr in
    let xy := SliderFloat2 gui "Rotation##C" (f3x rot, f3y rot) in
    Some (withStore (SetRotation (store g) tr (Float3 (fst xy) (snd xy) (f3z rot))) g)
  else Some g.

Definition GenerateMaterialsHeader (i : nat) g : option (Game M) :=
  if CollapsingHeader gui (ConcatStringAndInt "Material " (Z.of_nat i + 1)) then
    p ← materials g !! i;
    m ← materialHeap g !! p;
    let n := Z.of_nat i in
    let isPBR := Checkbox gui (ConcatStringAndInt "PBR##" n) (Nat.eqb (PS m) (pixelShaderPBR g)) in
    let m :=
      if isPBR then SetPS (pixelShaderPBR g) m
      else
        let m := SetPS (pixelShader g) m in
        SetShininess (SliderFloat gui (ConcatStringAndInt "Shininess##Ma" n) (Shininess m)) m in
    let color := MaterialColor m in
    let rgb := ColorEdit3 gui (ConcatStringAndInt "Color##Ma" n)
                 (Float3 (f4x color) (f4y color) (f4z color)) in
    let m := SetColor (Float4 (f3x rgb) (f3y rgb) (f3z rgb) (f4w color)) m in
    a ← at_ (textures g)
          (Combo gui (ConcatStringAndInt "Albedo##Ma" n) (FindIndex (textures g) (Albedo m)));
    let m := SetAlbedo a m in
    a ← at_ (textures g)
          (Combo gui (ConcatStringAndInt "Normal##Ma" n) (FindIndex (textures g) (Normal m)));
    let m := SetNormal a m in
    a ← at_ (textures g)
          (Combo gui (ConcatStringAndInt "Roughness##Ma" n) (FindIndex (textures g) (Roughness m)));
    let m := SetRoughness a m in
    a ← at_ (textures g)
          (Combo gui (ConcatStringAndInt "Metal##Ma" n) (FindIndex (textures g) (Metal m)));
    let m := SetMetal a m in
    Some (withMaterialHeap (<[p := m]> (materialHeap g)) g)
  else Some g.

Definition UpdateSceneWindow g : option (Game M) :=
  g ← (if CollapsingHeader gui "Entities"
       then forLoop GenerateEntitiesHeader 0 (length (entities g)) g
       else Some g);
  g ← (if CollapsingHeader gui "Lights" then
         let g := withLightCount (SliderInt gui "Number of Lights" (lightCount g)) g in
         forLoop GenerateLightsHeader 0 (Z.to_nat (lightCount g)) g
       else Some g);
  g ← GenerateCameraHeader g;
  if CollapsingHeader gui "Materials"
  then forLoop GenerateMaterialsHeader 0 (length (materials g)) g
  else Some g.

(** [UpdateStatsWindow] only displays. *)
Definition UpdateGUI g : option (Game M) := UpdateSceneWindow g.

End GameGui.

(** ** Game::Init, Game::Update, Game::Draw *)

(** What a call can come to. *)
Inductive Outcome (A : Type) : Type :=
| Returned (a : A)
| Thrown (what : string)
| Undefined.
Arguments Returned {A}.
Arguments Thrown {A}.
Arguments Undefined {A}.

(** What the PhysX SDK hands back to [Game::Init]; [None] is a null
    pointer. *)
Record PhysX : Type := BuildPhysX {
  PxCreateFoundation : option nat;
  PxCreatePhysics : option nat;
  createScene : option nat;
  createMaterial : option nat;
  PxCreatePlane : option nat;
  createShape : option nat;
  createRigidDynamic : nat -> option nat   (* the k-th call, counted from 0 *)
}.

(** The two loops at the end of [Game::Init] that stack the boxes:
    [for (i = 0; i < size; i++) for (j = 0; j < size - i; j++)] with
    [size = 10]; each pass creates a body and uses it.  The state is the
    number of bodies made so far; [None] when a body is a null pointer. *)
Definition stackBodies (px : PhysX) : option nat :=
  forLoop (fun i k =>
             forLoop (fun _ k => _ ← createRigidDynamic px k; Some (S k)) 0 (10 - i) k)
          0 10 0.

Section GameLoop.
Context {M : Type} `{!DirectXMath M}.
Variable RAND_MAX : Z.
Variable rand : nat -> Z.
(** [Camera::Update] (Camera.cpp is not among the sources): what it does
    to the arena, given the input, the time step and the camera's
    Transform. *)
Variable Camera_Update : Input -> Q -> nat -> Store M -> Store M.
Implicit Types (g : Game M).

(** The Transform a [GameEntity] or a [Camera] constructs for itself. *)
Definition freshTransform : Transform M := newTransform XMMatrixIdentity.

(** The arena after [Game::LoadAssetsAndCreateEntities]: the Transforms
    of cobSpherePBR, floorSpherePBR, scratchSpherePBR, bronzeSpherePBR and
    paintSpherePBR, in this order. *)
Definition entityTransforms : Store M :=
  let s := replicate 5 freshTransform in
  let s := SetScale s 0 (Float3 3 3 3) in
  let s := SetPosition s 0 (Float3 0 0 0) in
  let s := SetScale s 1 (Float3 2 2 2) in
  let s := SetPosition s 1 (Float3 4 0 0) in
  let s := SetScale s 2 (Float3 2 2 2) in
  let s := SetPosition s 2 (Float3 (-4) 0 0) in
  let s := SetPosition s 3 (Float3 6 0 0) in
  let s := SetScale s 4 (Float3 (1 # 2) (1 # 2) (1 # 2)) in
  let s := SetPosition s 4 (Float3 6 1 0) in
  let s := AddChild s 0 1 in
  let s := AddChild s 0 2 in
  let s := AddChild s 1 3 in
  let s := AddChild s 3 4 in
  s.

(** [new Material(vertexShader, ps, XMFLOAT4(1,1,1,1), 256.0f, ..., a, n, r, m, ...)]
    with the four textures at addresses [4k .. 4k+3]. *)
Definition newMaterial (ps k : nat) : Material :=
  BuildMaterial ps 256 (Float4 1 1 1 1) (4 * k) (4 * k + 1) (4 * k + 2) (4 * k + 3).

(** Shaders sit at addresses 0..5 in the order they are loaded
    ([pixelShader] is 1 and [pixelShaderPBR] is 2), meshes at 0..3
    (the sphere is 0), textures at 0..27 and materials at 0..13, each in
    the order of its [push_back]. *)
Definition LoadAssetsAndCreateEntities : Game M :=
  Game.Build entityTransforms
    [BuildEntity 0 7 0; BuildEntity 0 8 1; BuildEntity 0 10 2;
     BuildEntity 0 11 3; BuildEntity 0 9 4]
    (seq 0 4)
    (seq 0 14)
    (map (newMaterial 1) (seq 0 7) ++ map (newMaterial 2) (seq 0 7))
    (seq 0 28)
    1 2
    [] 0 0 0 0 [].

(** [Game::Init] *)
Definition Init (px : PhysX) : Outcome (Game M) :=
  let g := LoadAssetsAndCreateEntities in
  let g := withLightCount 64 g in
  match GenerateLights RAND_MAX rand (lightCount g) (randCalls g) with
  | None => Undefined              (* not with a count of 64 *)
  | Some (ls, k) =>
      let g := withRandCalls k (withLights ls g) in
      let cam := length (store g) in
      let g := withStore (SetPosition (store g ++ [freshTransform]) cam (Float3 0 0 (-10))) g in
      let g := Game.Build (store g) (entities g) (meshes g) (materials g) (materialHeap g)
                 (textures g) (pixelShader g) (pixelShaderPBR g) (lights g) (lightCount g)
                 cam (5 # 1000) (randCalls g) (log g) in
      match PxCreateFoundation px with
      | None => Thrown "PxCreateFoundation failed!"
      | Some _ =>
          match PxCreatePhysics px with
          | None => Undefined      (* mPhysics->getTolerancesScale on a null pointer *)
          | Some _ =>
              let mScene := createScene px in
              match createMaterial px with
              | None => Undefined  (* the null mMaterial is dereferenced for PxCreatePlane *)
              | Some _ =>
                  match PxCreatePlane px with
                  | None => Undefined  (* the null groundPlane is dereferenced for addActor *)
                  | Some _ =>
                      match mScene with
                      | None => Undefined  (* mScene->addActor on a null scene *)
                      | Some _ =>
                          match createShape px with
                          | None => Undefined  (* the null shape is dereferenced for attachShape *)
                          | Some _ =>
                              match stackBodies px with
                              | None => Undefined  (* body->attachShape on a null body *)
                              | Some _ => Returned g
                              end
                          end
                      end
                  end
              end
          end
      end
  end.

(** The first lines of [Game::Update]: the sign of [interval]. *)
Definition turnInterval (y : Q) (interval : Q) : Q :=
  let yPos := float_to_int y in
  if (yPos =? 2)%Z || (yPos =? -2)%Z then (- interval)%Q else interval.

(** "move entities" *)
Definition scriptedMotion g : option (Game M) :=
  e0 ← entities g !! 0;
  let g := withInterval
             (turnInterval (f3y (GetPosition (store g) (EntityTransform e0))) (interval g)) g in
  let s := MoveRelative (store g) (EntityTransform e0) (Float3 (1 # 1000) 0 0) in
  let s := MoveAbsolute s (EntityTransform e0) (Float3 0 (interval g) 0) in
  let s := Rotate s (EntityTransform e0) (Float3 0 (5 # 1000) 0) in
  e1 ← entities g !! 1;
  let s := Rotate s (EntityTransform e1) (Float3 0 (2 # 100) 0) in
  e2 ← entities g !! 2;
  let s := Rotate s (EntityTransform e2) (Float3 0 (1 # 100) 0) in
  e3 ← entities g !! 3;
  let s := Rotate s (EntityTransform e3) (Float3 (2 # 100) 0 0) in
  Some (withStore s g).

(** "Check individual input" *)
Definition checkInput (input : Input) g : option (Game M) :=
  let g := if KeyDown input VK_ESCAPE then emit EvQuit g else g in
  if KeyPress input VK_TAB then
    match GenerateLights RAND_MAX rand (lightCount g) (randCalls g) with
    | Some (ls, k) => Some (withRandCalls k (withLights ls (emit EvGenerateLights g)))
    | None => None
    end
  else Some g.

(** [Game::Update] *)
Definition Update (input : Input) (gui : ImGui) (deltaTime : Q) g : option (Game M) :=
  g ← scriptedMotion g;
  g ← UpdateGUI gui g;
  let g := emit (EvCameraUpdate deltaTime)
             (withStore (Camera_Update input deltaTime (camera g) (store g)) g) in
  g ← checkInput input g;
  let g := emit (EvSimulate (1 / 60)) g in
  let g := emit (EvFetchResults true) g in
  Some g.

(** [Game::Draw] *)
Definition Draw g : Game M := emit (EvRender (camera g)) g.

(** Modelled from the spec: the frame loop of DXCore (not among the
    sources), "Input -> Update ... -> Render, once per frame". *)
Definition frame (input : Input) (gui : ImGui) (deltaTime : Q) g : option (Game M) :=
  Draw <$> Update input gui deltaTime g.

End GameLoop.

(** ** ThirdPersonCamera *)

Record ThirdPersonCamera : Type := BuildThirdPersonCamera {
  tpcEntity : nat;   (* entity->GetTransform() *)
  tpcPivot : nat;
  tpcCamera : nat    (* camera->GetTransform() *)
}.

Section ThirdPersonCameraOps.
Context {M : Type} `{!DirectXMath M}.

(** Modelled from the spec: [Camera::UpdateViewMatrix] "recomputes the
    view matrix from the Transform's world matrix"; on the arena this is
    a read of the camera's world matrix. *)
Definition UpdateViewMatrix (s : Store M) (cam : nat) : Store M :=
  match GetWorldMatrix s cam with
  | Some (_, s') => s'
  | None => s
  end.

(** [ThirdPersonCamera::ThirdPersonCamera] *)
Definition ThirdPersonCamera_new (s : Store M) (entityTransform : nat)
  : ThirdPersonCamera * Store M :=
  let pivot := length s in
  let s := s ++ [freshTransform] in
  let entityPos := GetPosition s entityTransform in
  let s := SetPosition s pivot entityPos in
  let cam := length s in
  let s := SetPosition (s ++ [freshTransform]) cam (Float3 0 0 (-15)) in
  let s := AddChild s pivot cam in
  (BuildThirdPersonCamera entityTransform pivot cam, s).

(** [ThirdPersonCamera::Update] *)
Definition ThirdPersonCamera_Update (input : Input) (dt : Q)
    (this : ThirdPersonCamera) (s : Store M) : Store M :=
  let cameraTransform := tpcCamera this in
  let pivot := tpcPivot this in
  let s := RemoveChild s pivot cameraTransform in
  let s := if KeyDown input VK_RIGHT then Rotate s pivot (Float3 0 (1 # 1000) 0) else s in
  let s := if KeyDown input VK_LEFT then Rotate s pivot (Float3 0 (-(1 # 1000)) 0) else s in
  let s := if KeyDown input VK_UP then Rotate s pivot (Float3 (1 # 1000) 0 0) else s in
  let s := if KeyDown input VK_DOWN then Rotate s pivot (Float3 (-(1 # 1000)) 0 0) else s in
  let s := AddChild s pivot cameraTransform in
  let entityPos := GetPosition s (tpcEntity this) in
  let prevPos := GetPosition s pivot in
  let s := SetPosition s pivot entityPos in
  let pos := GetPosition s pivot in
  let s := MoveRelative s cameraTransform (f3sub pos prevPos) in
  UpdateViewMatrix s cameraTransform.

End ThirdPersonCameraOps.

(** ** The scene the GUI mirrors *)

(** A Transform without its cache. *)
Definition observable {M : Type} (s : Store M)
  : list (XMFLOAT3 * XMFLOAT3 * XMFLOAT3 * list nat * option nat) :=
  map (fun t => (position t, pitchYawRoll t, scale t, children t, parent t)) s.

(** Every field of the Game, the Transforms without their caches. *)
Definition sceneModel {M : Type} (g : Game M) :=
  (observable (store g), entities g, materialHeap g, lights g, lightCount g,
   (meshes g, materials g, textures g, pixelShader g, pixelShaderPBR g),
   (camera g, interval g, randCalls g, log g)).

(** The user touches no widget: each one leaves its variable as it is.
    Headers may be open or closed. *)
Definition noEdit (gui : ImGui) : Prop :=
  (forall l v, Combo gui l v = v) /\
  (forall l v, InputFloat3 gui l v = v) /\
  (forall l v, SliderFloat3 gui l v = v) /\
  (forall l v, SliderFloat2 gui l v = v) /\
  (forall l v, SliderFloat gui l v = v) /\
  (forall l v, SliderInt gui l v = v) /\
  (forall l v, Checkbox gui l v = v) /\
  (forall l v b, RadioButton gui l v b = v) /\
  (forall l v, ColorEdit3 gui l v = v).

(** What Game.cpp establishes when it loads the scene and keeps: the
    mesh and material of every entity are in the asset lists, every
    listed material exists, uses one of the two pixel shaders and listed
    textures, and the light count does not exceed the light list. *)
Definition materialRegistered {M : Type} (g : Game M) (m : Material) : Prop :=
  (PS m = pixelShader g \/ PS m = pixelShaderPBR g) /\
  Albedo m ∈ textures g /\ Normal m ∈ textures g /\
  Roughness m ∈ textures g /\ Metal m ∈ textures g.

Definition assetsRegistered {M : Type} (g : Game M) : Prop :=
  Forall (fun e => Mesh e ∈ meshes g /\ EntityMaterial e ∈ materials g) (entities g) /\
  Forall (fun p => exists m, materialHeap g !! p = Some m /\ materialRegistered g m)
         (materials g) /\
  (lightCount g <= Z.of_nat (length (lights g)))%Z.

(** ** The pivot and its camera *)

(** How ThirdPersonCamera keeps its Transforms: the pivot is a root with
    the camera as its only child; the tracked entity is a third node. *)
Definition tpcLinked {M : Type} (s : Store M) (this : ThirdPersonCamera) : Prop :=
  tpcPivot this <> tpcCamera this /\
  tpcEntity this <> tpcPivot this /\
  tpcEntity this <> tpcCamera this /\
  tpcEntity this < length s /\
  parent <$> s !! tpcPivot this = Some None /\
  children <$> s !! tpcPivot this = Some [tpcCamera this] /\
  parent <$> s !! tpcCamera this = Some (Some (tpcPivot this)).

(** Position, rotation, child list and parent of a Transform. *)
Definition obs4 {M : Type} (t : Transform M)
  : XMFLOAT3 * XMFLOAT3 * list nat * option nat :=
  (position t, pitchYawRoll t, children t, parent t).

(** The rotation the arrow keys add to the pivot in one Update. *)
Definition pivotTurn (input : Input) (r : XMFLOAT3) : XMFLOAT3 :=
  let r := if KeyDown input VK_RIGHT then f3add r (Float3 0 (1 # 1000) 0) else r in
  let r := if KeyDown input VK_LEFT then f3add r (Float3 0 (-(1 # 1000)) 0) else r in
  let r := if KeyDown input VK_UP then f3add r (Float3 (1 # 1000) 0 0) else r in
  let r := if KeyDown input VK_DOWN then f3add r (Float3 (-(1 # 1000)) 0 0) else r in
  r.

(** ** A concrete run to evaluate on *)

(** A linear congruential generator standing for [rand], with the
    [RAND_MAX] of the Microsoft C runtime. *)
Definition demoRAND_MAX : Z := 32767.
Definition demoRand (k : nat) : Z := ((Z.of_nat k * 7919 + 13) mod 32768)%Z.

(** A camera that nobody steers. *)
Definition restingCamera (_ : Input) (_ : Q) (_ : nat) (s : Store SymMatrix)
  : Store SymMatrix := s.

Definition noKeys : Input := BuildInput (fun _ => false) (fun _ => false).
Definition tabPressed : Input :=
  BuildInput (fun _ => false)
             (fun k => match k with VK_TAB => true | _ => false end).

(** No widget edited; [open] tells which headers are open. *)
Definition idleGui (open : string -> bool) : ImGui :=
  BuildImGui open (fun _ v => v) (fun _ v => v) (fun _ v => v) (fun _ v => v)
    (fun _ v => v) (fun _ v => v) (fun _ v => v) (fun _ v _ => v) (fun _ v => v).

(** The Lights header is open and the slider is dragged to [n];
    [open] tells which light headers are open. *)
Definition sliderGui (n : Z) (open : string -> bool) : ImGui :=
  BuildImGui (fun l => String.eqb l "Lights" || open l)
    (fun _ v => v) (fun _ v => v) (fun _ v => v) (fun _ v => v)
    (fun _ v => v) (fun _ _ => n) (fun _ v => v) (fun _ v _ => v) (fun _ v => v).

(** The Game as [Init] leaves it when PhysX starts up. *)
Definition startedGame : Game SymMatrix :=
  match Init demoRAND_MAX demoRand
          (BuildPhysX (Some 1) (Some 2) (Some 3) (Some 4) (Some 5) (Some 6)
             (fun k => Some (7 + k))) with
  | Returned g => g
  | _ => LoadAssetsAndCreateEntities
  end.

(** The calls of [LoadAssetsAndCreateEntities] on the five Transforms,
    followed by a read of the innermost child, a move of its grandparent,
    a second read, a turn of the root and a reparenting. *)
Definition sceneCalls : list Call :=
  [CSetScale 0 (Float3 3 3 3); CSetPosition 0 (Float3 0 0 0);
   CSetScale 1 (Float3 2 2 2); CSetPosition 1 (Float3 4 0 0);
   CSetScale 2 (Float3 2 2 2); CSetPosition 2 (Float3 (-4) 0 0);
   CSetPosition 3 (Float3 6 0 0);
   CSetScale 4 (Float3 (1 # 2) (1 # 2) (1 # 2)); CSetPosition 4 (Float3 6 1 0);
   CAddChild 0 1; CAddChild 0 2; CAddChild 1 3; CAddChild 3 4;
   CGetWorldMatrix 4; CSetPosition 1 (Float3 4 2 0); CGetWorldMatrix 4;
   CRotate 0 (Float3 0 (5 # 1000) 0); CAddChild 2 3].

(** What the GUI pass has no widget for: the collaborator log, the
    camera, the interval, the random number count, the asset lists, the
    two pixel shaders, the Transform of each entity, and the sizes of the
    light list, the material heap and the arena. *)
Definition guiFixed {M : Type} (g : Game M) :=
  (log g, camera g, interval g, randCalls g,
   (meshes g, materials g, textures g, pixelShader g, pixelShaderPBR g),
   map EntityTransform (entities g),
   (length (lights g), length (materialHeap g), length (store g))).

(** No character of the string is a hash sign. *)
Fixpoint hashFree (s : string) : bool :=
  match s with
  | EmptyString => true
  | String c s' => negb (Ascii.eqb c "#"%char) && hashFree s'
  end.

(** Every header is open and every widget is edited: the combos pick
    entry 1, the vectors are typed over, the sliders are dragged, the
    boxes are ticked and every radio button is clicked. *)
Definition editingGui : ImGui :=
  BuildImGui (fun _ => true) (fun _ _ => 1%Z)
    (fun _ _ => Float3 1 2 3) (fun _ _ => Float3 (1 # 2) 1 (3 # 2))
    (fun _ _ => (1 # 4, 1 # 2)) (fun _ _ => 1 # 2)
    (fun _ v => v) (fun _ _ => true)
    (fun _ _ b => b) (fun _ _ => Float3 1 0 0).

(** The arena once a ThirdPersonCamera follows entity 0. *)
Definition followedArena : Store SymMatrix :=
  snd (ThirdPersonCamera_new entityTransforms 0).

(** Every PhysX object that [Game::Init] goes on to use after the
    foundation was made: none of them is a null pointer. *)
Definition physXReady (px : PhysX) : Prop :=
  is_Some (PxCreatePhysics px) /\ is_Some (createScene px) /\
  is_Some (createMaterial px) /\ is_Some (PxCreatePlane px) /\
  is_Some (createShape px) /\
  forall k, k < 55 -> is_Some (createRigidDynamic px k).

(** ** Facts about the hierarchy *)

Section TransformFacts.
Context {M : Type}.
Implicit Types (s : Store M) (t : Transform M).

Lemma indexOf_Some x l i : indexOf x l = Some i -> l !! i = Some x.
Proof.
  revert i. induction l as [|y l IH]; intros i; simpl; [discriminate|].
  destruct (Nat.eqb_spec x y) as [->|Hne].
  - intros [= <-]. reflexivity.
  - destruct (indexOf x l) as [j|]; simpl; [|discriminate].
    intros [= <-]. simpl. apply IH. reflexivity.
Qed.

Lemma indexOf_None x l : indexOf x l = None <-> x ∉ l.
Proof.
  induction l as [|y l IH]; simpl.
  - split; [intros _; apply not_elem_of_nil | reflexivity].
  - destruct (Nat.eqb_spec x y) as [->|Hne].
    + split; [discriminate | intros H; exfalso; apply H; left].
    + rewrite not_elem_of_cons. destruct (indexOf x l); simpl.
      * split; [discriminate | intros [_ H]; apply IH in H; discriminate].
      * split; [intros _; split; [exact Hne | apply IH; reflexivity] | reflexivity].
Qed.

Lemma lookup_markDirty s n i :
  markDirty s n !! i =
  (fun t => if isAncestorOrSelf s n i then setDirty t else t) <$> s !! i.
Proof. unfold markDirty. apply list_lookup_imap. Qed.

Lemma length_markDirty s n : length (markDirty s n) = length s.
Proof. unfold markDirty. apply length_imap. Qed.

Lemma geometry_markDirty s n i :
  geometry <$> markDirty s n !! i = geometry <$> s !! i.
Proof.
  rewrite lookup_markDirty. destruct (s !! i) as [t|]; simpl; [|reflexivity].
  destruct (isAncestorOrSelf s n i); reflexivity.
Qed.

Lemma links_markDirty s n : links (markDirty s n) = links s.
Proof.
  apply list_eq. intros i. unfold links.
  rewrite !list_lookup_fmap, lookup_markDirty.
  destruct (s !! i) as [t|]; simpl; [|reflexivity].
  destruct (isAncestorOrSelf s n i); reflexivity.
Qed.

(** *** Depth and the bound on parent chains *)

Lemma Depth_functional s n d d' : Depth s n d -> Depth s n d' -> d = d'.
Proof.
  intros H. revert d'. induction H as [n tn Hn Hp | n tn p d Hn Hp Hd IH];
    intros d' H'; inversion H'; subst; try congruence.
  f_equal. apply IH. congruence.
Qed.

Lemma Depth_valid s n d : Depth s n d -> n < length s.
Proof. intros H; inversion H; subst; eapply lookup_lt_Some; eassumption. Qed.

Lemma Depth_chain s n d :
  Depth s n d ->
  exists l : list nat, length l = S d /\ NoDup l /\
    forall x, x ∈ l -> exists dx, Depth s x dx /\ dx <= d.
Proof.
  induction 1 as [n tn Hn Hp | n tn p d Hn Hp Hd (l & Hlen & Hnd & Hl)].
  - exists [n]. split; [reflexivity|]. split; [apply NoDup_singleton|].
    intros x Hx. apply list_elem_of_singleton in Hx as ->.
    exists 0. split; [eapply Depth_root; eassumption | lia].
  - exists (n :: l). split; [simpl; lia|]. split.
    + apply NoDup_cons. split; [|exact Hnd].
      intros Hin. destruct (Hl _ Hin) as (dx & Hdx & Hle).
      assert (dx = S d) by (eapply Depth_functional; [exact Hdx|]; eapply Depth_child; eassumption).
      lia.
    + intros x Hx. apply elem_of_cons in Hx as [->|Hx].
      * exists (S d). split; [eapply Depth_child; eassumption | lia].
      * destruct (Hl _ Hx) as (dx & Hdx & Hle). exists dx. split; [exact Hdx | lia].
Qed.

(** A parent chain is shorter than the arena. *)
Lemma Depth_lt_length s n d : Depth s n d -> d < length s.
Proof.
  intros H. destruct (Depth_chain _ _ _ H) as (l & Hlen & Hnd & Hl).
  assert (Hsub : l ⊆+ seq 0 (length s)).
  { apply NoDup_submseteq; [exact Hnd|]. intros x Hx.
    destruct (Hl _ Hx) as (dx & Hdx & _). apply Depth_valid in Hdx.
    apply elem_of_seq. lia. }
  apply submseteq_length in Hsub. rewrite length_seq in Hsub. lia.
Qed.

Lemma Depth_same_parents s s' n d :
  (forall j, parent <$> s' !! j = parent <$> s !! j) ->
  Depth s n d -> Depth s' n d.
Proof.
  intros Hpar. induction 1 as [n tn Hn Hp | n tn p d Hn Hp Hd IH].
  - specialize (Hpar n). rewrite Hn in Hpar. simpl in Hpar.
    destruct (s' !! n) as [t'|] eqn:E; simpl in Hpar; [|discriminate].
    eapply Depth_root; [exact E | congruence].
  - specialize (Hpar n). rewrite Hn in Hpar. simpl in Hpar.
    destruct (s' !! n) as [t'|] eqn:E; simpl in Hpar; [|discriminate].
    apply (Depth_child s' n t' p d); [exact E | congruence | exact IH].
Qed.

Lemma acyclic_same_parents s s' :
  length s' = length s ->
  (forall j, parent <$> s' !! j = parent <$> s !! j) ->
  acyclic s -> acyclic s'.
Proof.
  intros Hlen Hpar Hac n Hn. rewrite Hlen in Hn.
  destruct (Hac n Hn) as [d Hd]. exists d. eapply Depth_same_parents; eassumption.
Qed.

(** *** The bounded walk against the ancestor relation *)

Lemma onParentChain_complete fuel s a x :
  AncestorOrSelf s a x -> onParentChain fuel s a x = true.
Proof.
  revert x. induction fuel as [|f IH]; intros x H; simpl.
  - destruct (Nat.eqb a x); reflexivity.
  - destruct (Nat.eqb_spec a x) as [->|Hne]; [reflexivity|].
    inversion H as [|x' tx p Hx Hp Hanc]; subst; [congruence|].
    rewrite Hx, Hp. apply IH. exact Hanc.
Qed.

Lemma onParentChain_sound fuel s a x d :
  Depth s x d -> d < fuel ->
  onParentChain fuel s a x = true -> AncestorOrSelf s a x.
Proof.
  revert x d. induction fuel as [|f IH]; intros x d Hd Hlt; [lia|]. simpl.
  destruct (Nat.eqb_spec a x) as [->|Hne]; [intros _; apply Anc_self|].
  inversion Hd as [n tn Hn Hp | n tn p d' Hn Hp Hd']; subst; rewrite Hn, Hp.
  - discriminate.
  - intros Hw. eapply Anc_step; [exact Hn | exact Hp |].
    eapply IH; [exact Hd' | lia | exact Hw].
Qed.

Lemma isAncestorOrSelf_true s a x :
  AncestorOrSelf s a x -> isAncestorOrSelf s a x = true.
Proof. apply onParentChain_complete. Qed.

Lemma isAncestorOrSelf_false s a x :
  isAncestorOrSelf s a x = false -> ~ AncestorOrSelf s a x.
Proof. intros Hf Ha. rewrite (isAncestorOrSelf_true _ _ _ Ha) in Hf. discriminate. Qed.

(** In an acyclic arena the walk decides the relation. *)
Lemma isAncestorOrSelf_spec s a x :
  acyclic s -> x < length s ->
  isAncestorOrSelf s a x = true <-> AncestorOrSelf s a x.
Proof.
  intros Hac Hx. split; [|apply isAncestorOrSelf_true].
  destruct (Hac x Hx) as [d Hd].
  eapply onParentChain_sound; [exact Hd | eapply Depth_lt_length; exact Hd].
Qed.

End TransformFacts.

(** ** Cache coherence *)

Section TransformCache.
Context {M : Type} `{!DirectXMath M}.
Implicit Types (s : Store M) (t : Transform M).

Lemma localMatrix_geometry t t' :
  geometry t' = geometry t -> localMatrix t' = localMatrix t.
Proof. unfold geometry, localMatrix. intros [= -> -> -> _]. reflexivity. Qed.

Lemma fmap_lookup_eq_Some {A} (f : Transform M -> A) s s' j t :
  f <$> s' !! j = f <$> s !! j -> s !! j = Some t ->
  exists t', s' !! j = Some t' /\ f t' = f t.
Proof.
  intros H Hj. rewrite Hj in H. destruct (s' !! j) as [t'|]; simpl in H; [|discriminate].
  exists t'. split; [reflexivity | congruence].
Qed.

Lemma geometry_parent s s' j :
  geometry <$> s' !! j = geometry <$> s !! j ->
  parent <$> s' !! j = parent <$> s !! j.
Proof.
  destruct (s' !! j) as [t'|], (s !! j) as [t|]; simpl; try discriminate; try reflexivity.
  unfold geometry. intros [= _ _ _ ->]. reflexivity.
Qed.

Lemma WorldOf_same_geometry s s' k m :
  (forall j, geometry <$> s' !! j = geometry <$> s !! j) ->
  WorldOf s k m -> WorldOf s' k m.
Proof.
  intros Hg. induction 1 as [n tn Hn Hp | n tn p pw Hn Hp Hw IH];
    destruct (fmap_lookup_eq_Some _ _ _ _ _ (Hg n) Hn) as (t' & Hn' & Hgt);
    rewrite <- (localMatrix_geometry _ _ Hgt);
    assert (parent t' = parent tn) by (unfold geometry in Hgt; congruence).
  - apply WorldOf_root; [exact Hn' | congruence].
  - apply (WorldOf_child s' n t' p pw); [exact Hn' | congruence | exact IH].
Qed.

(** A chain that avoids [n] does not notice a change made at [n]. *)
Lemma WorldOf_avoid s s' n k m :
  (forall j, j <> n -> geometry <$> s' !! j = geometry <$> s !! j) ->
  ~ AncestorOrSelf s' n k ->
  WorldOf s k m -> WorldOf s' k m.
Proof.
  intros Hg Hna Hw. induction Hw as [k tk Hk Hp | k tk p pw Hk Hp Hw IH].
  - assert (Hkn : k <> n) by (intros ->; apply Hna, Anc_self).
    destruct (fmap_lookup_eq_Some _ _ _ _ _ (Hg k Hkn) Hk) as (t' & Hk' & Hgt).
    rewrite <- (localMatrix_geometry _ _ Hgt).
    apply WorldOf_root; [exact Hk' | unfold geometry in Hgt; congruence].
  - assert (Hkn : k <> n) by (intros ->; apply Hna, Anc_self).
    destruct (fmap_lookup_eq_Some _ _ _ _ _ (Hg k Hkn) Hk) as (t' & Hk' & Hgt).
    rewrite <- (localMatrix_geometry _ _ Hgt).
    assert (Hp' : parent t' = Some p) by (unfold geometry in Hgt; congruence).
    apply (WorldOf_child s' k t' p pw); [exact Hk' | exact Hp' |].
    apply IH. intros Ha. apply Hna. eapply Anc_step; eassumption.
Qed.

Lemma AncestorOrSelf_avoid s s' n k :
  (forall j, j <> n -> parent <$> s' !! j = parent <$> s !! j) ->
  AncestorOrSelf s' n k -> AncestorOrSelf s n k.
Proof.
  intros Hpar. induction 1 as [| x tx p Hx Hp Ha IH]; [apply Anc_self|].
  destruct (decide (x = n)) as [->|Hne]; [apply Anc_self|].
  destruct (fmap_lookup_eq_Some _ _ _ _ _ (eq_sym (Hpar x Hne)) Hx) as (t & Hx' & Hpt).
  apply (Anc_step s n x t p); [exact Hx' | congruence | exact IH].
Qed.

Lemma Depth_avoid s s' n x d :
  (forall j, j <> n -> parent <$> s' !! j = parent <$> s !! j) ->
  ~ AncestorOrSelf s n x ->
  Depth s x d -> Depth s' x d.
Proof.
  intros Hpar Hna Hd. induction Hd as [x tx Hx Hp | x tx p d Hx Hp Hd IH].
  - assert (Hxn : x <> n) by (intros ->; apply Hna, Anc_self).
    destruct (fmap_lookup_eq_Some _ _ _ _ _ (Hpar x Hxn) Hx) as (t' & Hx' & Hpt).
    eapply Depth_root; [exact Hx' | congruence].
  - assert (Hxn : x <> n) by (intros ->; apply Hna, Anc_self).
    destruct (fmap_lookup_eq_Some _ _ _ _ _ (Hpar x Hxn) Hx) as (t' & Hx' & Hpt).
    apply (Depth_child s' x t' p d); [exact Hx' | congruence |].
    apply IH. intros Ha. apply Hna. eapply Anc_step; eassumption.
Qed.

(** Giving [node] a new parent keeps the arena acyclic when the new parent
    does not hang below [node]. *)
Lemma acyclic_reparent s s' node newp :
  acyclic s -> length s' = length s ->
  (forall j, j <> node -> parent <$> s' !! j = parent <$> s !! j) ->
  (forall t', s' !! node = Some t' -> parent t' = newp) ->
  match newp with
  | None => True
  | Some q => q < length s /\ ~ AncestorOrSelf s node q
  end ->
  acyclic s'.
Proof.
  intros Hac Hlen Hpar Hnode Hnew.
  assert (Hnd : node < length s -> exists d, Depth s' node d).
  { intros Hlt. rewrite <- Hlen in Hlt.
    destruct (lookup_lt_is_Some_2 _ _ Hlt) as [t' Ht'].
    specialize (Hnode t' Ht'). destruct newp as [q|].
    - destruct Hnew as [Hq Hna]. destruct (Hac q Hq) as [d Hd].
      exists (S d). apply (Depth_child s' node t' q d); [exact Ht' | exact Hnode |].
      eapply Depth_avoid; eassumption.
    - exists 0. eapply Depth_root; eassumption. }
  intros x Hx. rewrite Hlen in Hx. destruct (Hac x Hx) as [d Hd].
  clear Hx. induction Hd as [x tx Hx Hp | x tx p d Hx Hp Hd IH].
  - destruct (decide (x = node)) as [->|Hne].
    + apply Hnd. eapply lookup_lt_Some; exact Hx.
    + destruct (fmap_lookup_eq_Some _ _ _ _ _ (Hpar x Hne) Hx) as (t' & Hx' & Hpt).
      exists 0. eapply Depth_root; [exact Hx' | congruence].
  - destruct (decide (x = node)) as [->|Hne].
    + apply Hnd. eapply lookup_lt_Some; exact Hx.
    + destruct (fmap_lookup_eq_Some _ _ _ _ _ (Hpar x Hne) Hx) as (t' & Hx' & Hpt).
      destruct IH as [d' Hd']. exists (S d').
      apply (Depth_child s' x t' p d'); [exact Hx' | congruence | exact Hd'].
Qed.

(** A change at [n] followed by dirtying [n] and its descendants leaves no
    clean node with a stale matrix. *)
Lemma coherent_markDirty s s' n :
  coherent s ->
  (forall j, j <> n -> geometry <$> s' !! j = geometry <$> s !! j) ->
  (forall j, cacheOf <$> s' !! j = cacheOf <$> s !! j) ->
  coherent (markDirty s' n).
Proof.
  intros Hco Hg Hc k tk Hk Hclean.
  rewrite lookup_markDirty in Hk.
  destruct (s' !! k) as [t'|] eqn:Hk'; simpl in Hk; [|discriminate].
  destruct (isAncestorOrSelf s' n k) eqn:Hanc.
  { injection Hk as <-. discriminate Hclean. }
  injection Hk as <-. apply isAncestorOrSelf_false in Hanc.
  apply (WorldOf_same_geometry s'); [intros j; apply geometry_markDirty|].
  specialize (Hc k). rewrite Hk' in Hc. simpl in Hc.
  destruct (s !! k) as [t|] eqn:Hks; simpl in Hc; [|discriminate].
  unfold cacheOf in Hc. injection Hc as Hd Hw. rewrite Hw.
  eapply WorldOf_avoid; [exact Hg | exact Hanc |].
  apply Hco; [exact Hks | congruence].
Qed.

End TransformCache.

Section TransformInvariant.
Context {M : Type} `{!DirectXMath M}.
Implicit Types (s : Store M) (t : Transform M).

Lemma fmap_lookup_alter_same {A} (g : Transform M -> A) f n s j :
  (forall t, g (f t) = g t) -> g <$> alter f n s !! j = g <$> s !! j.
Proof.
  intros Hgf. destruct (decide (n = j)) as [->|Hne].
  - rewrite list_lookup_alter_eq. destruct (s !! j); simpl; [f_equal; apply Hgf | reflexivity].
  - rewrite list_lookup_alter_ne by exact Hne. reflexivity.
Qed.

Lemma fmap_lookup_alter_other {A} (g : Transform M -> A) f n s j :
  j <> n -> g <$> alter f n s !! j = g <$> s !! j.
Proof. intros Hne. rewrite list_lookup_alter_ne by congruence. reflexivity. Qed.

Lemma parent_markDirty s n j : parent <$> markDirty s n !! j = parent <$> s !! j.
Proof. apply geometry_parent, geometry_markDirty. Qed.

Lemma acyclic_markDirty s n : acyclic s -> acyclic (markDirty s n).
Proof.
  apply acyclic_same_parents; [apply length_markDirty | intros j; apply parent_markDirty].
Qed.

(** Every mutator of a local component has this shape. *)
Lemma Inv_local_mutation f n s :
  (forall t, parent (f t) = parent t) ->
  (forall t, cacheOf (f t) = cacheOf t) ->
  Inv s -> Inv (markDirty (alter f n s) n).
Proof.
  intros Hp Hc [Hac Hco]. split.
  - apply acyclic_markDirty.
    eapply acyclic_same_parents; [apply length_alter | | exact Hac].
    intros j. apply fmap_lookup_alter_same. exact Hp.
  - eapply coherent_markDirty; [exact Hco | |].
    + intros j Hj. apply fmap_lookup_alter_other. exact Hj.
    + intros j. apply fmap_lookup_alter_same. exact Hc.
Qed.

Lemma length_RemoveChild s self node : length (RemoveChild s self node) = length s.
Proof.
  unfold RemoveChild. destruct (s !! self) as [ts|]; [|reflexivity].
  destruct (indexOf node (children ts)); [|reflexivity].
  rewrite length_markDirty, !length_alter. reflexivity.
Qed.

Lemma geometry_RemoveChild s self node j :
  j <> node -> geometry <$> RemoveChild s self node !! j = geometry <$> s !! j.
Proof.
  intros Hj. unfold RemoveChild. destruct (s !! self) as [ts|]; [|reflexivity].
  destruct (indexOf node (children ts)); [|reflexivity].
  rewrite geometry_markDirty, fmap_lookup_alter_other by exact Hj.
  apply fmap_lookup_alter_same. reflexivity.
Qed.

Lemma Inv_RemoveChild s self node : Inv s -> Inv (RemoveChild s self node).
Proof.
  intros [Hac Hco]. unfold RemoveChild.
  destruct (s !! self) as [ts|]; [|split; assumption].
  destruct (indexOf node (children ts)) as [i|]; [|split; assumption].
  split.
  - apply acyclic_markDirty.
    eapply (acyclic_reparent s _ node None); [exact Hac | | | | exact I].
    + rewrite !length_alter. reflexivity.
    + intros j Hj. rewrite fmap_lookup_alter_other by exact Hj.
      apply fmap_lookup_alter_same. reflexivity.
    + intros t'. rewrite list_lookup_alter_eq.
      destruct (alter _ self s !! node); simpl; [|discriminate].
      intros [= <-]. reflexivity.
  - eapply coherent_markDirty; [exact Hco | |].
    + intros j Hj. rewrite fmap_lookup_alter_other by exact Hj.
      apply fmap_lookup_alter_same. reflexivity.
    + intros j. rewrite fmap_lookup_alter_same by reflexivity.
      apply fmap_lookup_alter_same. reflexivity.
Qed.

Lemma length_AddChild s self node : length (AddChild s self node) = length s.
Proof.
  unfold AddChild. destruct (s !! self) as [ts|]; [|reflexivity].
  destruct (s !! node) as [tn|]; [|reflexivity].
  destruct (_ || _); [reflexivity|].
  rewrite length_markDirty, !length_alter.
  destruct (parent tn); [apply length_RemoveChild | reflexivity].
Qed.

Lemma Inv_AddChild s self node : Inv s -> Inv (AddChild s self node).
Proof.
  intros HI. unfold AddChild.
  destruct (s !! self) as [ts|] eqn:Hself; [|exact HI].
  destruct (s !! node) as [tn|] eqn:Hnode; [|exact HI].
  destruct (_ || _) eqn:Hguard; [exact HI|].
  apply orb_false_iff in Hguard as [_ Hanc]. apply isAncestorOrSelf_false in Hanc.
  set (s1 := match parent tn with Some q => RemoveChild s q node | None => s end).
  assert (Hlen1 : length s1 = length s).
  { unfold s1. destruct (parent tn); [apply length_RemoveChild | reflexivity]. }
  assert (Hg1 : forall j, j <> node -> geometry <$> s1 !! j = geometry <$> s !! j).
  { intros j Hj. unfold s1. destruct (parent tn); [apply geometry_RemoveChild, Hj | reflexivity]. }
  assert (HI1 : Inv s1).
  { unfold s1. destruct (parent tn); [apply Inv_RemoveChild, HI | exact HI]. }
  destruct HI1 as [Hac1 Hco1]. split.
  - apply acyclic_markDirty.
    eapply (acyclic_reparent s1 _ node (Some self)); [exact Hac1 | | | |].
    + rewrite !length_alter. reflexivity.
    + intros j Hj. rewrite fmap_lookup_alter_other by exact Hj.
      apply fmap_lookup_alter_same. reflexivity.
    + intros t'. rewrite list_lookup_alter_eq.
      destruct (alter _ self s1 !! node); simpl; [|discriminate].
      intros [= <-]. reflexivity.
    + split; [rewrite Hlen1; eapply lookup_lt_Some; exact Hself|].
      intros Ha. apply Hanc. eapply AncestorOrSelf_avoid; [|exact Ha].
      intros j Hj. apply geometry_parent, Hg1, Hj.
  - eapply coherent_markDirty; [exact Hco1 | |].
    + intros j Hj. rewrite fmap_lookup_alter_other by exact Hj.
      apply fmap_lookup_alter_same. reflexivity.
    + intros j. rewrite fmap_lookup_alter_same by reflexivity.
      apply fmap_lookup_alter_same. reflexivity.
Qed.

End TransformInvariant.

Section TransformReads.
Context {M : Type} `{!DirectXMath M}.
Implicit Types (s : Store M) (t : Transform M).

Lemma WorldOf_functional s n w w' : WorldOf s n w -> WorldOf s n w' -> w = w'.
Proof.
  intros H. revert w'. induction H as [n tn Hn Hp | n tn p pw Hn Hp Hw IH];
    intros w' H'; inversion H' as [n' tn' Hn' Hp' | n' tn' p' pw' Hn' Hp' Hw']; subst;
    rewrite Hn in Hn'; injection Hn' as <-; try congruence.
  rewrite Hp in Hp'. injection Hp' as <-. f_equal. apply IH. exact Hw'.
Qed.

(** A read with enough fuel returns the composed product, leaves the
    geometry and the links alone, and keeps the cache coherent. *)
Lemma updateMatrices_spec fuel s n d :
  coherent s -> Depth s n d -> d < fuel ->
  exists w s',
    updateMatrices fuel s n = Some (w, s') /\
    WorldOf s n w /\
    length s' = length s /\
    (forall j, geometry <$> s' !! j = geometry <$> s !! j) /\
    (forall j, children <$> s' !! j = children <$> s !! j) /\
    coherent s'.
Proof.
  revert s n d. induction fuel as [|f IH]; intros s n d Hco Hd Hlt; [lia|].
  simpl. inversion Hd as [n' tn Hn Hp | n' tn p d' Hn Hp Hd']; subst; rewrite Hn.
  - destruct (matricesDirty tn) eqn:Hdirty.
    + rewrite Hp. eexists _, _. split; [reflexivity|].
      assert (Hg : forall j, geometry <$> alter (setClean
                 (XMMatrixMultiply (localMatrix tn) XMMatrixIdentity)) n s !! j
                 = geometry <$> s !! j)
        by (intros j; apply fmap_lookup_alter_same; reflexivity).
      split; [apply WorldOf_root; assumption|].
      split; [apply length_alter|]. split; [exact Hg|].
      split; [intros j; apply fmap_lookup_alter_same; reflexivity|].
      intros k tk Hk Hclean. apply (WorldOf_same_geometry s); [exact Hg|].
      destruct (decide (n = k)) as [<-|Hne].
      * rewrite list_lookup_alter_eq, Hn in Hk. injection Hk as <-. simpl.
        apply WorldOf_root; assumption.
      * rewrite list_lookup_alter_ne in Hk by exact Hne. apply Hco; assumption.
    + eexists _, _. split; [reflexivity|].
      split; [apply Hco; assumption|]. repeat split; try reflexivity. exact Hco.
  - destruct (matricesDirty tn) eqn:Hdirty.
    + rewrite Hp.
      destruct (IH s p d' Hco Hd' ltac:(lia)) as (pw & s1 & -> & Hpw & Hlen1 & Hg1 & Hc1 & Hco1).
      eexists _, _. split; [reflexivity|].
      assert (Hg : forall j, geometry <$> alter (setClean
                 (XMMatrixMultiply (localMatrix tn) pw)) n s1 !! j
                 = geometry <$> s !! j).
      { intros j. rewrite fmap_lookup_alter_same by reflexivity. apply Hg1. }
      assert (Hw : WorldOf s n (XMMatrixMultiply (localMatrix tn) pw))
        by (eapply WorldOf_child; eassumption).
      split; [exact Hw|].
      split; [rewrite length_alter; exact Hlen1|]. split; [exact Hg|].
      split; [intros j; rewrite fmap_lookup_alter_same by reflexivity; apply Hc1|].
      intros k tk Hk Hclean.
      destruct (decide (n = k)) as [<-|Hne].
      * rewrite list_lookup_alter_eq in Hk.
        destruct (s1 !! n) as [t1|]; simpl in Hk; [|discriminate].
        injection Hk as <-. simpl.
        apply (WorldOf_same_geometry s); [exact Hg | exact Hw].
      * rewrite list_lookup_alter_ne in Hk by exact Hne.
        apply (WorldOf_same_geometry s1);
          [intros j; apply fmap_lookup_alter_same; reflexivity|].
        apply Hco1; assumption.
    + eexists _, _. split; [reflexivity|].
      split; [apply Hco; assumption|]. repeat split; try reflexivity. exact Hco.
Qed.

Lemma GetWorldMatrix_spec s n :
  Inv s -> n < length s ->
  exists w s',
    GetWorldMatrix s n = Some (w, s') /\ WorldOf s n w /\
    length s' = length s /\ links s' = links s /\ Inv s'.
Proof.
  intros [Hac Hco] Hn. destruct (Hac n Hn) as [d Hd].
  destruct (updateMatrices_spec (length s) s n d Hco Hd (Depth_lt_length _ _ _ Hd))
    as (w & s' & Hr & Hw & Hlen & Hg & Hc & Hco').
  exists w, s'. split; [exact Hr|]. split; [exact Hw|]. split; [exact Hlen|].
  split; [|split; [|exact Hco']].
  - apply list_eq. intros j. unfold links. rewrite !list_lookup_fmap.
    specialize (Hg j). specialize (Hc j). apply geometry_parent in Hg.
    destruct (s' !! j), (s !! j); simpl in *; try discriminate; try reflexivity.
    congruence.
  - eapply acyclic_same_parents; [exact Hlen | | exact Hac].
    intros j. apply geometry_parent, Hg.
Qed.

Lemma call_Inv c s :
  Inv s -> callValid (length s) c ->
  exists s', call c s = Some s' /\ length s' = length s /\ Inv s'.
Proof.
  intros HI Hv. destruct c as [n v|n v|n v|n v|n v|n v|self node|self node|n]; simpl;
    try (eexists; split; [reflexivity|]; split;
         [unfold SetPosition, SetRotation, SetScale, MoveAbsolute, MoveRelative, Rotate;
          rewrite length_markDirty, length_alter; reflexivity
         | apply Inv_local_mutation; [reflexivity | reflexivity | exact HI]]).
  - eexists; split; [reflexivity|]. split; [apply length_AddChild | apply Inv_AddChild, HI].
  - eexists; split; [reflexivity|]. split; [apply length_RemoveChild | apply Inv_RemoveChild, HI].
  - destruct (GetWorldMatrix_spec s n HI Hv) as (w & s' & -> & _ & Hlen & _ & HI').
    exists s'. split; [reflexivity|]. split; assumption.
Qed.

Lemma calls_Inv cs s :
  Inv s -> Forall (callValid (length s)) cs ->
  exists s', calls cs s = Some s' /\ length s' = length s /\ Inv s'.
Proof.
  revert s. induction cs as [|c cs IH]; intros s HI Hv; simpl.
  - exists s. repeat split; apply HI.
  - apply Forall_cons in Hv as [Hc Hcs].
    destruct (call_Inv c s HI Hc) as (s1 & -> & Hlen1 & HI1).
    rewrite <- Hlen1 in Hcs.
    destruct (IH s1 HI1 Hcs) as (s2 & Hr & Hlen2 & HI2).
    exists s2. split; [exact Hr|]. split; [congruence | exact HI2].
Qed.

Lemma Inv_fresh (w0 : M) k : Inv (replicate k (newTransform w0)).
Proof.
  split.
  - intros n Hn. rewrite length_replicate in Hn. exists 0.
    apply (Depth_root _ n (newTransform w0)); [|reflexivity].
    apply lookup_replicate. split; [reflexivity | exact Hn].
  - intros n tn Hn Hclean. apply lookup_replicate in Hn as [-> _]. discriminate.
Qed.

(** C1. After any sequence of SetPosition, SetRotation, SetScale,
    MoveAbsolute, MoveRelative, Rotate, AddChild and RemoveChild calls and
    world-matrix reads, anywhere in an acyclic arena whose clean caches
    are right, reading the world matrix of any node succeeds and returns
    the composed product of the node's local matrix (scale, rotate,
    translate) with its ancestors' world matrices (identity above a
    root), computed from the current state: no stale value is returned. *)
Theorem world_matrix_never_stale (s : Store M) (cs : list Call) (n : nat) :
  Inv s -> Forall (callValid (length s)) cs -> n < length s ->
  exists s1 w s2,
    calls cs s = Some s1 /\
    GetWorldMatrix s1 n = Some (w, s2) /\
    WorldOf s1 n w /\
    (forall w', WorldOf s1 n w' -> w' = w).
Proof.
  intros HI Hv Hn.
  destruct (calls_Inv cs s HI Hv) as (s1 & Hr & Hlen & HI1).
  rewrite <- Hlen in Hn.
  destruct (GetWorldMatrix_spec s1 n HI1 Hn) as (w & s2 & Hg & Hw & _).
  exists s1, w, s2. repeat split; try assumption.
  intros w' Hw'. eapply WorldOf_functional; eassumption.
Qed.

End TransformReads.

(** ** AddChild and RemoveChild on the links *)

Section TransformLinks.
Context {M : Type}.
Implicit Types (s : Store M) (t : Transform M).

Lemma fmap_lookup_markDirty {A} (g : Transform M -> A) s n j :
  (forall t, g (setDirty t) = g t) ->
  g <$> markDirty s n !! j = g <$> s !! j.
Proof.
  intros Hg. rewrite lookup_markDirty. destruct (s !! j) as [t|]; simpl; [|reflexivity].
  destruct (isAncestorOrSelf s n j); [rewrite Hg|]; reflexivity.
Qed.

Lemma fmap_alter_same {A} (g : Transform M -> A) f n s j :
  (forall t, g (f t) = g t) -> g <$> alter f n s !! j = g <$> s !! j.
Proof.
  intros Hgf. destruct (decide (n = j)) as [->|Hne].
  - rewrite list_lookup_alter_eq. destruct (s !! j); simpl; [f_equal; apply Hgf | reflexivity].
  - rewrite list_lookup_alter_ne by exact Hne. reflexivity.
Qed.

Lemma fmap_alter_other {A} (g : Transform M -> A) f n s j :
  j <> n -> g <$> alter f n s !! j = g <$> s !! j.
Proof. intros Hne. rewrite list_lookup_alter_ne by congruence. reflexivity. Qed.

Lemma fmap_alter_eq {A} (g : Transform M -> A) f n s :
  g <$> alter f n s !! n = (fun t => g (f t)) <$> s !! n.
Proof. rewrite list_lookup_alter_eq. destruct (s !! n); reflexivity. Qed.

Lemma indexOf_app_fresh x l : x ∉ l -> indexOf x (l ++ [x]) = Some (length l).
Proof.
  induction l as [|y l IH]; simpl; intros Hx.
  - rewrite Nat.eqb_refl. reflexivity.
  - apply not_elem_of_cons in Hx as [Hne Hx].
    destruct (Nat.eqb_spec x y) as [->|_]; [congruence|].
    rewrite (IH Hx). reflexivity.
Qed.

Lemma removeFirst_app_fresh x l : x ∉ l -> removeFirst x (l ++ [x]) = l.
Proof.
  intros Hx. unfold removeFirst. rewrite (indexOf_app_fresh _ _ Hx).
  induction l as [|y l IH]; simpl; [reflexivity|].
  apply not_elem_of_cons in Hx as [_ Hx]. f_equal. apply IH. exact Hx.
Qed.

Lemma removeFirst_fresh x l : x ∉ l -> removeFirst x l = l.
Proof. intros Hx. unfold removeFirst. apply indexOf_None in Hx. rewrite Hx. reflexivity. Qed.

Lemma children_RemoveChild s q node j :
  children <$> RemoveChild s q node !! j =
  (fun t => if decide (j = q) then removeFirst node (children t) else children t) <$> s !! j.
Proof.
  unfold RemoveChild. destruct (s !! q) as [tq|] eqn:Hq.
  - unfold removeFirst. destruct (indexOf node (children tq)) as [i|] eqn:Hi.
    + rewrite fmap_lookup_markDirty, fmap_alter_same by reflexivity.
      destruct (decide (j = q)) as [->|Hne].
      * rewrite fmap_alter_eq, Hq. simpl. rewrite Hi. reflexivity.
      * rewrite fmap_alter_other by exact Hne. reflexivity.
    + destruct (decide (j = q)) as [->|Hne]; [|reflexivity].
      rewrite Hq. simpl. rewrite Hi. reflexivity.
  - destruct (decide (j = q)) as [->|Hne]; [|reflexivity]. rewrite Hq. reflexivity.
Qed.

Lemma parent_RemoveChild_other s q node j :
  j <> node -> parent <$> RemoveChild s q node !! j = parent <$> s !! j.
Proof.
  intros Hj. unfold RemoveChild. destruct (s !! q) as [tq|]; [|reflexivity].
  destruct (indexOf node (children tq)); [|reflexivity].
  rewrite fmap_lookup_markDirty, fmap_alter_other by (reflexivity || exact Hj).
  apply fmap_alter_same. reflexivity.
Qed.

Lemma RemoveChild_not_child s self node ts :
  s !! self = Some ts -> node ∉ children ts -> RemoveChild s self node = s.
Proof.
  intros Hs Hn. unfold RemoveChild. rewrite Hs.
  apply indexOf_None in Hn. rewrite Hn. reflexivity.
Qed.

Lemma IndexOfChild_found s self node ts :
  s !! self = Some ts ->
  ((IndexOfChild s self node >? -1)%Z = true <-> node ∈ children ts).
Proof.
  intros Hs. unfold IndexOfChild. rewrite Hs.
  destruct (indexOf node (children ts)) as [i|] eqn:Hi.
  - split; [intros _ | intros _; apply Z.gtb_lt; lia].
    apply list_elem_of_lookup. exists i. apply indexOf_Some. exact Hi.
  - apply indexOf_None in Hi. split; [discriminate | intros H; contradiction].
Qed.

Lemma AddChild_guarded s self node ts tn :
  s !! self = Some ts -> s !! node = Some tn ->
  node ∈ children ts \/ AncestorOrSelf s node self ->
  AddChild s self node = s.
Proof.
  intros Hs Hn Hg. unfold AddChild. rewrite Hs, Hn.
  destruct Hg as [Hc|Ha].
  - apply (IndexOfChild_found s self node ts Hs) in Hc. rewrite Hc. reflexivity.
  - rewrite (isAncestorOrSelf_true _ _ _ Ha), orb_true_r. reflexivity.
Qed.

Lemma AddChild_unguarded s self node ts tn :
  acyclic s -> s !! self = Some ts -> s !! node = Some tn ->
  node ∉ children ts -> ~ AncestorOrSelf s node self ->
  AddChild s self node =
  markDirty
    (alter (setParent (Some self)) node
       (alter (fun t => setChildren (children t ++ [node]) t) self
          match parent tn with
          | Some q => RemoveChild s q node
          | None => s
          end)) node.
Proof.
  intros Hac Hs Hn Hc Ha. unfold AddChild. rewrite Hs, Hn.
  destruct (IndexOfChild s self node >? -1)%Z eqn:Hi.
  { apply (IndexOfChild_found s self node ts Hs) in Hi. contradiction. }
  destruct (isAncestorOrSelf s node self) eqn:Hb; [|reflexivity].
  apply isAncestorOrSelf_spec in Hb;
    [contradiction | exact Hac | eapply lookup_lt_Some; exact Hs].
Qed.

End TransformLinks.

Section TransformContract.
Context {M : Type}.
Implicit Types (s : Store M) (t : Transform M).

Lemma links_lookup_eq (a b : option (Transform M)) :
  parent <$> a = parent <$> b -> children <$> a = children <$> b ->
  (fun t => (parent t, children t)) <$> a = (fun t => (parent t, children t)) <$> b.
Proof.
  destruct a, b; simpl; try discriminate; try reflexivity.
  intros [= ->] [= ->]. reflexivity.
Qed.

Lemma acyclic_RemoveChild s self node : acyclic s -> acyclic (RemoveChild s self node).
Proof.
  intros Hac. unfold RemoveChild.
  destruct (s !! self) as [ts|]; [|exact Hac].
  destruct (indexOf node (children ts)) as [i|]; [|exact Hac].
  apply acyclic_markDirty.
  eapply (acyclic_reparent s _ node None); [exact Hac | | | | exact I].
  - rewrite !length_alter. reflexivity.
  - intros j Hj. rewrite fmap_alter_other by exact Hj. apply fmap_alter_same. reflexivity.
  - intros t'. rewrite list_lookup_alter_eq.
    destruct (alter _ self s !! node); simpl; [|discriminate].
    intros [= <-]. reflexivity.
Qed.

Lemma acyclic_AddChild s self node : acyclic s -> acyclic (AddChild s self node).
Proof.
  intros Hac. unfold AddChild.
  destruct (s !! self) as [ts|] eqn:Hself; [|exact Hac].
  destruct (s !! node) as [tn|] eqn:Hnode; [|exact Hac].
  destruct (_ || _) eqn:Hguard; [exact Hac|].
  apply orb_false_iff in Hguard as [_ Hanc]. apply isAncestorOrSelf_false in Hanc.
  set (s1 := match parent tn with Some q => RemoveChild s q node | None => s end).
  assert (Hlen1 : length s1 = length s).
  { unfold s1. destruct (parent tn); [apply length_RemoveChild | reflexivity]. }
  assert (Hp1 : forall j, j <> node -> parent <$> s1 !! j = parent <$> s !! j).
  { intros j Hj. unfold s1. destruct (parent tn); [apply parent_RemoveChild_other, Hj | reflexivity]. }
  assert (Hac1 : acyclic s1).
  { unfold s1. destruct (parent tn); [apply acyclic_RemoveChild, Hac | exact Hac]. }
  apply acyclic_markDirty.
  eapply (acyclic_reparent s1 _ node (Some self)); [exact Hac1 | | | |].
  - rewrite !length_alter. reflexivity.
  - intros j Hj. rewrite fmap_alter_other by exact Hj. apply fmap_alter_same. reflexivity.
  - intros t'. rewrite list_lookup_alter_eq.
    destruct (alter _ self s1 !! node); simpl; [|discriminate].
    intros [= <-]. reflexivity.
  - split; [rewrite Hlen1; eapply lookup_lt_Some; exact Hself|].
    intros Ha. apply Hanc. eapply AncestorOrSelf_avoid; [exact Hp1 | exact Ha].
Qed.

(** C2. In an acyclic arena, AddChild(node) on self changes nothing when
    node is already a child of self or is self or one of its ancestors,
    and it never introduces a cycle; otherwise node leaves the child list
    of its prior parent, is appended to the child list of self, gets self
    as its parent and is marked dirty, and no other parent pointer or
    child list changes. *)
Theorem AddChild_contract (s : Store M) (self node : nat) (ts tn : Transform M) :
  acyclic s -> s !! self = Some ts -> s !! node = Some tn ->
  let s' := AddChild s self node in
  acyclic s' /\
  (node ∈ children ts \/ AncestorOrSelf s node self -> s' = s) /\
  (node ∉ children ts -> ~ AncestorOrSelf s node self ->
     children <$> s' !! self = Some (children ts ++ [node]) /\
     parent <$> s' !! node = Some (Some self) /\
     matricesDirty <$> s' !! node = Some true /\
     (forall q tq, parent tn = Some q -> q <> self -> s !! q = Some tq ->
        children <$> s' !! q = Some (removeFirst node (children tq))) /\
     (forall j, j <> node -> parent <$> s' !! j = parent <$> s !! j) /\
     (forall j, j <> self -> parent tn <> Some j ->
        children <$> s' !! j = children <$> s !! j)).
Proof.
  intros Hac Hs Hn s'. subst s'. split; [apply acyclic_AddChild, Hac|].
  split; [apply (AddChild_guarded s self node ts tn Hs Hn)|].
  intros Hc Ha. rewrite (AddChild_unguarded s self node ts tn Hac Hs Hn Hc Ha).
  assert (Hsn : self <> node) by (intros ->; apply Ha, Anc_self).
  set (s1 := match parent tn with Some q => RemoveChild s q node | None => s end).
  assert (Hch1 : forall j, children <$> s1 !! j =
            (fun t => if decide (parent tn = Some j)
                      then removeFirst node (children t) else children t) <$> s !! j).
  { intros j. unfold s1. destruct (parent tn) as [q|].
    - rewrite children_RemoveChild. destruct (s !! j); simpl; [|reflexivity].
      destruct (decide (j = q)) as [->|Hne].
      + rewrite decide_True by reflexivity. reflexivity.
      + rewrite decide_False by congruence. reflexivity.
    - destruct (s !! j); reflexivity. }
  assert (Hp1 : forall j, j <> node -> parent <$> s1 !! j = parent <$> s !! j).
  { intros j Hj. unfold s1. destruct (parent tn); [apply parent_RemoveChild_other, Hj | reflexivity]. }
  assert (Hlen1 : length s1 = length s).
  { unfold s1. destruct (parent tn); [apply length_RemoveChild | reflexivity]. }
  repeat split.
  - rewrite fmap_lookup_markDirty, fmap_alter_same, fmap_alter_eq by reflexivity.
    change (fun t => children (setChildren (children t ++ [node]) t))
      with (fun t : Transform M => children t ++ [node]).
    specialize (Hch1 self). rewrite Hs in Hch1. simpl in Hch1.
    destruct (s1 !! self) as [t1|]; simpl in *; [|discriminate].
    injection Hch1 as ->. f_equal.
    destruct (decide _); [rewrite removeFirst_fresh by exact Hc|]; reflexivity.
  - rewrite fmap_lookup_markDirty, fmap_alter_eq by reflexivity.
    assert (Hlt : node < length (alter (fun t => setChildren (children t ++ [node]) t) self s1)).
    { rewrite length_alter, Hlen1. eapply lookup_lt_Some; exact Hn. }
    destruct (lookup_lt_is_Some_2 _ _ Hlt) as [t' ->]. reflexivity.
  - rewrite lookup_markDirty.
    assert (Hlt : node < length (alter (setParent (Some self)) node
                    (alter (fun t => setChildren (children t ++ [node]) t) self s1))).
    { rewrite !length_alter, Hlen1. eapply lookup_lt_Some; exact Hn. }
    destruct (lookup_lt_is_Some_2 _ _ Hlt) as [t' ->]. simpl.
    rewrite isAncestorOrSelf_true by apply Anc_self. reflexivity.
  - intros q tq Hq Hqs Hsq.
    rewrite fmap_lookup_markDirty, fmap_alter_same, fmap_alter_other by (reflexivity || exact Hqs).
    rewrite Hch1, Hsq. simpl. rewrite decide_True by exact Hq. reflexivity.
  - intros j Hj.
    rewrite fmap_lookup_markDirty, fmap_alter_other, fmap_alter_same by (reflexivity || exact Hj).
    apply Hp1, Hj.
  - intros j Hjs Hjq.
    rewrite fmap_lookup_markDirty, fmap_alter_same, fmap_alter_other by (reflexivity || exact Hjs).
    rewrite Hch1. destruct (s !! j); simpl; [|reflexivity].
    rewrite decide_False by exact Hjq. reflexivity.
Qed.


End TransformContract.


(** ** Light generation *)

(** The documented ranges of a generated point light. *)
Definition pointLightInRange (l : Light) : Prop :=
  Type_ l = LIGHT_TYPE_POINT /\
  (5 <= Range l <= 10)%Q /\
  ((1 # 10) <= Intensity l <= 3)%Q /\
  (0 <= f3x (Color l) <= 1)%Q /\ (0 <= f3y (Color l) <= 1)%Q /\ (0 <= f3z (Color l) <= 1)%Q /\
  (-10 <= f3x (Position l) <= 10)%Q /\
  (-5 <= f3y (Position l) <= 5)%Q /\
  (-10 <= f3z (Position l) <= 10)%Q.

Section LightsFacts.
Variable RAND_MAX : Z.
Variable rand : nat -> Z.
Hypothesis RAND_MAX_pos : (0 < RAND_MAX)%Z.
Hypothesis rand_range : forall k, (0 <= rand k <= RAND_MAX)%Z.

Lemma RandomRange_bounds k (min max : Q) :
  (min <= max)%Q ->
  (min <= RandomRange RAND_MAX rand k min max <= max)%Q.
Proof using RAND_MAX_pos rand_range.
  intros Hmm. unfold RandomRange.
  set (u := (inject_Z (rand k) / inject_Z RAND_MAX)%Q).
  assert (HR : (0 < inject_Z RAND_MAX)%Q).
  { change 0%Q with (inject_Z 0). rewrite <- Zlt_Qlt. exact RAND_MAX_pos. }
  assert (Hu0 : (0 <= u)%Q).
  { unfold u. apply Qle_shift_div_l; [exact HR|]. rewrite Qmult_0_l.
    change 0%Q with (inject_Z 0). rewrite <- Zle_Qle. apply rand_range. }
  assert (Hu1 : (u <= 1)%Q).
  { unfold u. apply Qle_shift_div_r; [exact HR|]. rewrite Qmult_1_l.
    rewrite <- Zle_Qle. apply rand_range. }
  assert (Hd : (0 <= max - min)%Q) by lra.
  assert (H0 : (0 <= u * (max - min))%Q) by (apply Qmult_le_0_compat; assumption).
  assert (H1 : (u * (max - min) <= 1 * (max - min))%Q)
    by (apply Qmult_le_compat_r; assumption).
  split; lra.
Qed.

Lemma point_in_range k : pointLightInRange (point RAND_MAX rand k).
Proof using RAND_MAX_pos rand_range.
  unfold pointLightInRange, point; simpl.
  split; [reflexivity|].
  repeat split; apply RandomRange_bounds; lra.
Qed.

Lemma GenerateLights_loop_spec fuel lightCount k ls :
  (0 <= lightCount <= vector_max_size)%Z ->
  (lightCount - Z.of_nat (length ls) <= Z.of_nat fuel)%Z ->
  exists ps k',
    GenerateLights_loop RAND_MAX rand fuel lightCount k ls = Some (ls ++ ps, k') /\
    Z.of_nat (length (ls ++ ps)) = Z.max (Z.of_nat (length ls)) lightCount /\
    Forall pointLightInRange ps.
Proof using RAND_MAX_pos rand_range.
  intros Hlc. assert (Hconv : to_size_t lightCount = lightCount)
    by (unfold to_size_t; apply Z.mod_small; unfold vector_max_size in Hlc; lia).
  revert k ls. induction fuel as [|f IH]; intros k ls Hfuel.
  - simpl. rewrite Hconv. destruct (Z.ltb_spec (Z.of_nat (length ls)) lightCount); [lia|].
    exists [], k. rewrite app_nil_r. split; [reflexivity|]. split; [lia | constructor].
  - simpl. rewrite Hconv. destruct (Z.ltb_spec (Z.of_nat (length ls)) lightCount) as [Hlt|Hge].
    + destruct (Z.leb_spec vector_max_size (Z.of_nat (length ls))) as [Hmax|_]; [lia|].
      destruct (IH (k + 8) (ls ++ [point RAND_MAX rand k])) as (ps & k' & Hr & Hlen & Hps).
      { rewrite length_app. simpl. lia. }
      exists (point RAND_MAX rand k :: ps), k'.
      rewrite <- app_assoc in Hr, Hlen. simpl in Hr, Hlen.
      split; [exact Hr|]. split.
      * rewrite Hlen, length_app. simpl. lia.
      * constructor; [apply point_in_range | exact Hps].
    + exists [], k. rewrite app_nil_r. split; [reflexivity|]. split; [lia | constructor].
Qed.

(** C3. For a light count the slider can hold (any non-negative [int]),
    GenerateLights returns, and the new list is the three directional
    lights followed by point lights up to the configured count (none when
    the count is 3 or less); every point light has its range in [5, 10],
    its intensity in [0.1, 3], its colour channels in [0, 1] and its
    position in [-10, 10] x [-5, 5] x [-10, 10]. *)
Theorem GenerateLights_contract (lightCount : Z) (k : nat) :
  (0 <= lightCount < 2 ^ 31)%Z ->
  exists ls k',
    GenerateLights RAND_MAX rand lightCount k = Some (ls, k') /\
    Z.of_nat (length ls) = Z.max 3 lightCount /\
    take 3 ls = [dir1; dir2; dir3] /\
    Forall (fun l => Type_ l = LIGHT_TYPE_DIRECTIONAL) (take 3 ls) /\
    Forall pointLightInRange (drop 3 ls).
Proof using RAND_MAX_pos rand_range.
  intros Hlc. unfold GenerateLights.
  assert (Hconv : to_size_t lightCount = lightCount)
    by (unfold to_size_t; apply Z.mod_small; lia).
  destruct (GenerateLights_loop_spec (Z.to_nat (to_size_t lightCount)) lightCount k
              [dir1; dir2; dir3]) as (ps & k' & Hr & Hlen & Hps).
  { unfold vector_max_size. lia. }
  { rewrite Hconv. simpl. lia. }
  exists ([dir1; dir2; dir3] ++ ps), k'. split; [exact Hr|].
  split; [exact Hlen|]. simpl. split; [reflexivity|].
  split; [repeat constructor | exact Hps].
Qed.

End LightsFacts.

Section LightsTotal.
Variable RAND_MAX : Z.
Variable rand : nat -> Z.

Lemma GenerateLights_loop_total fuel lightCount k ls :
  (to_size_t lightCount <= vector_max_size)%Z ->
  (to_size_t lightCount - Z.of_nat (length ls) <= Z.of_nat fuel)%Z ->
  exists ls' k', GenerateLights_loop RAND_MAX rand fuel lightCount k ls = Some (ls', k').
Proof.
  intros Hmax. revert k ls. induction fuel as [|f IH]; intros k ls Hfuel; simpl;
    destruct (Z.ltb_spec (Z.of_nat (length ls)) (to_size_t lightCount)); try lia; eauto.
  destruct (Z.leb_spec vector_max_size (Z.of_nat (length ls))); [lia|].
  apply IH. rewrite length_app. simpl. lia.
Qed.

Lemma GenerateLights_loop_count fuel lightCount k ls :
  (to_size_t lightCount <= vector_max_size)%Z ->
  (to_size_t lightCount - Z.of_nat (length ls) <= Z.of_nat fuel)%Z ->
  exists ls' k',
    GenerateLights_loop RAND_MAX rand fuel lightCount k ls = Some (ls', k') /\
    Z.of_nat (length ls') = Z.max (Z.of_nat (length ls)) (to_size_t lightCount) /\
    k' = k + 8 * (length ls' - length ls) /\
    take (length ls) ls' = ls.
Proof.
  intros Hmax. revert k ls. induction fuel as [|f IH]; intros k ls Hfuel; simpl;
    destruct (Z.ltb_spec (Z.of_nat (length ls)) (to_size_t lightCount)) as [Hlt|Hge]; try lia.
  - exists ls, k. split; [reflexivity|]. split; [lia|]. split; [lia|]. apply firstn_all.
  - destruct (Z.leb_spec vector_max_size (Z.of_nat (length ls))); [lia|].
    destruct (IH (k + 8) (ls ++ [point RAND_MAX rand k])) as (ls' & k' & Hr & Hlen & Hk & Ht).
    { rewrite length_app. simpl. lia. }
    exists ls', k'. split; [exact Hr|]. rewrite length_app in Hlen, Hk, Ht. simpl in *.
    split; [lia|]. split; [lia|].
    assert (E : take (length ls) ls' = take (length ls) (take (length ls + 1) ls')).
    { rewrite take_take. f_equal. lia. }
    rewrite E, Ht. apply take_app_length.
  - exists ls, k. split; [reflexivity|]. split; [lia|]. split; [lia|]. apply firstn_all.
Qed.

(** For a count an [int] can hold from 0 on, GenerateLights returns
    max(3, count) lights. *)
Lemma GenerateLights_length (lightCount : Z) (k : nat) :
  (0 <= lightCount < 2 ^ 31)%Z ->
  exists ls k',
    GenerateLights RAND_MAX rand lightCount k = Some (ls, k') /\
    Z.of_nat (length ls) = Z.max 3 lightCount.
Proof.
  intros Hlc. unfold GenerateLights.
  assert (Hconv : to_size_t lightCount = lightCount)
    by (unfold to_size_t; apply Z.mod_small; lia).
  destruct (GenerateLights_loop_count (Z.to_nat (to_size_t lightCount)) lightCount k
              [dir1; dir2; dir3]) as (ls & k' & Hr & Hlen & _).
  { rewrite Hconv. unfold vector_max_size. lia. }
  { simpl. lia. }
  exists ls, k'. split; [exact Hr|]. rewrite Hlen, Hconv. reflexivity.
Qed.

(** For a count an [int] can hold from 0 on, the loop of GenerateLights
    ends. *)
Lemma GenerateLights_total lightCount k :
  (0 <= lightCount < 2 ^ 31)%Z ->
  exists ls k', GenerateLights RAND_MAX rand lightCount k = Some (ls, k').
Proof.
  intros Hlc.
  assert (Hconv : to_size_t lightCount = lightCount)
    by (unfold to_size_t; apply Z.mod_small; lia).
  apply GenerateLights_loop_total; rewrite Hconv; [unfold vector_max_size|simpl]; lia.
Qed.

Lemma GenerateLights_loop_overflow fuel lightCount k ls :
  (vector_max_size < to_size_t lightCount)%Z ->
  (Z.of_nat (length ls) <= vector_max_size)%Z ->
  GenerateLights_loop RAND_MAX rand fuel lightCount k ls = None.
Proof.
  intros Hbig. revert k ls. induction fuel as [|f IH]; intros k ls Hlen; simpl;
    destruct (Z.ltb_spec (Z.of_nat (length ls)) (to_size_t lightCount)); try lia;
    [reflexivity|].
  destruct (Z.leb_spec vector_max_size (Z.of_nat (length ls))); [reflexivity|].
  apply IH. rewrite length_app. simpl. lia.
Qed.

(** A negative count is compared as a [size_t] of at least 2^64 - 2^31:
    the vector is full before the loop ends, and the call does not
    return. *)
Lemma GenerateLights_overflow lightCount k :
  (- 2 ^ 31 <= lightCount < 0)%Z ->
  GenerateLights RAND_MAX rand lightCount k = None.
Proof.
  intros Hneg.
  assert (Hconv : to_size_t lightCount = (2 ^ 64 + lightCount)%Z).
  { unfold to_size_t. symmetry. apply (Z.mod_unique _ _ (-1)); lia. }
  apply GenerateLights_loop_overflow; [rewrite Hconv|simpl]; unfold vector_max_size; lia.
Qed.

End LightsTotal.

(** ** The scripted motion *)

Lemma float_to_int_2 (y : Q) : float_to_int y = 2%Z <-> (2 <= y /\ y < 3)%Q.
Proof.
  destruct y as [n d]. unfold float_to_int, Qle, Qlt. simpl.
  pose proof (Z.quot_rem' n (Z.pos d)) as Hqr.
  destruct (Z.le_gt_cases 0 n) as [Hn|Hn].
  - pose proof (Z.rem_bound_pos n (Z.pos d) Hn ltac:(lia)). nia.
  - pose proof (Z.rem_bound_pos_neg n (Z.pos d) ltac:(lia) ltac:(lia)). nia.
Qed.

Lemma float_to_int_minus_2 (y : Q) : float_to_int y = (-2)%Z <-> (-3 < y /\ y <= -2)%Q.
Proof.
  destruct y as [n d]. unfold float_to_int, Qle, Qlt. simpl.
  pose proof (Z.quot_rem' n (Z.pos d)) as Hqr.
  destruct (Z.le_gt_cases 0 n) as [Hn|Hn].
  - pose proof (Z.rem_bound_pos n (Z.pos d) Hn ltac:(lia)). nia.
  - pose proof (Z.rem_bound_pos_neg n (Z.pos d) ltac:(lia) ltac:(lia)). nia.
Qed.

(** The sign of the interval is turned exactly when the integer part of
    y is 2 or -2. *)
Lemma turnInterval_spec (y i : Q) :
  ((2 <= y /\ y < 3)%Q \/ (-3 < y /\ y <= -2)%Q -> turnInterval y i = (- i)%Q) /\
  (~ ((2 <= y /\ y < 3)%Q \/ (-3 < y /\ y <= -2)%Q) -> turnInterval y i = i).
Proof.
  unfold turnInterval.
  destruct (Z.eqb_spec (float_to_int y) 2) as [H2|H2];
    destruct (Z.eqb_spec (float_to_int y) (-2)) as [Hm|Hm]; simpl;
    rewrite ?float_to_int_2, ?float_to_int_minus_2 in *; tauto.
Qed.

Section ScriptedMotion.
Context {M : Type} `{!DirectXMath M}.
Implicit Types (s : Store M) (g : Game M).

(** Reading a field that dirtying leaves alone, after a mutator. *)
Lemma fmap_lookup_mutate {A} (f : Transform M -> Transform M) (h : Transform M -> A) n s j :
  (forall t, h (setDirty t) = h t) ->
  h <$> markDirty (alter f n s) n !! j =
  (fun t => if decide (j = n) then h (f t) else h t) <$> s !! j.
Proof.
  intros Hh. rewrite fmap_lookup_markDirty by exact Hh.
  destruct (decide (j = n)) as [->|Hne].
  - rewrite fmap_alter_eq. reflexivity.
  - rewrite fmap_alter_other by exact Hne. reflexivity.
Qed.

(** C6 as amended.  Each call of Game::Update first turns the sign of
    the interval exactly when the integer part of entity 0's y position is
    2 or -2 (2 <= y < 3 or -3 < y <= -2), then moves entity 0 by
    (0.001, 0, 0) in its own orientation and by the interval along y,
    turns it by 0.005 in yaw, and turns entities 1, 2 and 3 by 0.02 in
    yaw, 0.01 in yaw and 0.02 in pitch. *)
Theorem scriptedMotion_contract (g : Game M) (e0 e1 e2 e3 : GameEntity) :
  entities g !! 0 = Some e0 -> entities g !! 1 = Some e1 ->
  entities g !! 2 = Some e2 -> entities g !! 3 = Some e3 ->
  let t0 := EntityTransform e0 in
  let t1 := EntityTransform e1 in
  let t2 := EntityTransform e2 in
  let t3 := EntityTransform e3 in
  let y := f3y (GetPosition (store g) t0) in
  let i' := turnInterval y (interval g) in
  ((2 <= y /\ y < 3)%Q \/ (-3 < y /\ y <= -2)%Q -> i' = (- interval g)%Q) /\
  (~ ((2 <= y /\ y < 3)%Q \/ (-3 < y /\ y <= -2)%Q) -> i' = interval g) /\
  exists g',
    scriptedMotion g = Some g' /\
    g' = withStore (store g') (withInterval i' g) /\
    store g' =
      Rotate (Rotate (Rotate (Rotate
        (MoveAbsolute (MoveRelative (store g) t0 (Float3 (1 # 1000) 0 0)) t0 (Float3 0 i' 0))
        t0 (Float3 0 (5 # 1000) 0)) t1 (Float3 0 (2 # 100) 0)) t2 (Float3 0 (1 # 100) 0))
        t3 (Float3 (2 # 100) 0 0) /\
    (NoDup [t0; t1; t2; t3] ->
       position <$> store g' !! t0 =
         (fun t => f3add (f3add (position t)
                            (XMVector3Rotate (Float3 (1 # 1000) 0 0) (pitchYawRoll t)))
                         (Float3 0 i' 0)) <$> store g !! t0 /\
       pitchYawRoll <$> store g' !! t0 =
         (fun t => f3add (pitchYawRoll t) (Float3 0 (5 # 1000) 0)) <$> store g !! t0 /\
       pitchYawRoll <$> store g' !! t1 =
         (fun t => f3add (pitchYawRoll t) (Float3 0 (2 # 100) 0)) <$> store g !! t1 /\
       pitchYawRoll <$> store g' !! t2 =
         (fun t => f3add (pitchYawRoll t) (Float3 0 (1 # 100) 0)) <$> store g !! t2 /\
       pitchYawRoll <$> store g' !! t3 =
         (fun t => f3add (pitchYawRoll t) (Float3 (2 # 100) 0 0)) <$> store g !! t3).
Proof.
  intros H0 H1 H2 H3 t0 t1 t2 t3 y i'.
  split; [apply turnInterval_spec|]. split; [apply turnInterval_spec|].
  unfold scriptedMotion. rewrite H0. simpl. rewrite H1. simpl. rewrite H2. simpl.
  rewrite H3. simpl. eexists. split; [reflexivity|].
  split; [reflexivity|]. split; [reflexivity|].
  intros Hnd. simpl.
  apply NoDup_cons in Hnd as [Hn0 Hnd]. apply NoDup_cons in Hnd as [Hn1 Hnd].
  apply NoDup_cons in Hnd as [Hn2 _].
  rewrite !not_elem_of_cons in Hn0. rewrite !not_elem_of_cons in Hn1.
  rewrite !not_elem_of_cons in Hn2.
  destruct Hn0 as (H01 & H02 & H03 & _). destruct Hn1 as (H12 & H13 & _).
  destruct Hn2 as (H23 & _).
  fold t0 t1 t2 t3 y i'.
  unfold Rotate, MoveAbsolute, MoveRelative.
  repeat split;
    rewrite !fmap_lookup_mutate by (intros []; simpl; repeat case_decide; reflexivity);
    match goal with |- _ <$> ?o = _ => destruct o as [[]|]; [|reflexivity] end;
    simpl; repeat case_decide; try congruence; reflexivity.
Qed.

End ScriptedMotion.

(** ** The frame *)

Lemma forLoop_preserves {St A : Type} (h : St -> A) (body : nat -> St -> option St) :
  (forall i st st', body i st = Some st' -> h st' = h st) ->
  forall count i st st', forLoop body i count st = Some st' -> h st' = h st.
Proof.
  intros Hbody. induction count as [|c IH]; intros i st st'; simpl.
  - intros [= <-]. reflexivity.
  - destruct (body i st) as [st1|] eqn:Hb; [|discriminate].
    intros Hl. rewrite (IH _ _ _ Hl). apply (Hbody _ _ _ Hb).
Qed.

Ltac option_steps :=
  repeat match goal with
         | H : Some _ = Some _ |- _ => injection H as <-
         | H : None = Some _ |- _ => discriminate H
         | H : context [mbind _ ?o] |- _ =>
             let E := fresh "E" in destruct o eqn:E; simpl in H
         | H : context [if ?b then _ else _] |- _ =>
             let E := fresh "E" in destruct b eqn:E; simpl in H
         end.

Section GuiFrame.
Context {M : Type} {A : Type}.
Variable gui : ImGui.
(** A field of the Game that no edit of the scene touches. *)
Variable h : Game M -> A.
Hypothesis h_store : forall s g, h (withStore s g) = h g.
Hypothesis h_entities : forall es g, h (withEntities es g) = h g.
Hypothesis h_heap : forall mh g, h (withMaterialHeap mh g) = h g.
Hypothesis h_lights : forall ls g, h (withLights ls g) = h g.
Hypothesis h_lightCount : forall n g, h (withLightCount n g) = h g.

Ltac fields := rewrite ?h_store, ?h_entities, ?h_heap, ?h_lights, ?h_lightCount.

Lemma childCheckbox_keeps i j (g g' : Game M) :
  childCheckbox gui i j g = Some g' -> h g' = h g.
Proof using h_store.
  unfold childCheckbox. intros H. option_steps; rewrite ?h_store; reflexivity.
Qed.

Lemma GenerateEntitiesHeader_keeps i (g g' : Game M) :
  GenerateEntitiesHeader gui i g = Some g' -> h g' = h g.
Proof using h_store h_entities.
  unfold GenerateEntitiesHeader. intros H.
  destruct (CollapsingHeader gui _); [|injection H as <-; reflexivity].
  destruct (entities g !! i) as [e|]; simpl in H; [|discriminate].
  destruct (at_ (meshes g) _) as [m|]; simpl in H; [|discriminate].
  destruct (alter (SetMesh m) i (entities g) !! i) as [e1|]; simpl in H; [|discriminate].
  destruct (at_ (materials g) _) as [mt|]; simpl in H; [|discriminate].
  destruct (alter (SetMaterial mt) i _ !! i) as [e2|]; simpl in H; [|discriminate].
  destruct (CollapsingHeader gui _).
  - apply (forLoop_preserves h _ (childCheckbox_keeps i)) in H. rewrite H.
    fields. reflexivity.
  - injection H as <-. fields. reflexivity.
Qed.

Lemma GenerateLightsHeader_keeps i (g g' : Game M) :
  GenerateLightsHeader gui i g = Some g' -> h g' = h g.
Proof using h_lights.
  unfold GenerateLightsHeader. intros H.
  destruct (CollapsingHeader gui _); [|injection H as <-; reflexivity].
  destruct (lights g !! i) as [l|]; simpl in H; [|discriminate].
  injection H as <-. apply h_lights.
Qed.

Lemma GenerateCameraHeader_keeps (g g' : Game M) :
  GenerateCameraHeader gui g = Some g' -> h g' = h g.
Proof using h_store.
  unfold GenerateCameraHeader. intros H.
  destruct (CollapsingHeader gui _); injection H as <-; rewrite ?h_store; reflexivity.
Qed.

Lemma GenerateMaterialsHeader_keeps i (g g' : Game M) :
  GenerateMaterialsHeader gui i g = Some g' -> h g' = h g.
Proof using h_heap.
  unfold GenerateMaterialsHeader. intros H.
  destruct (CollapsingHeader gui _); [|injection H as <-; reflexivity].
  destruct (materials g !! i) as [p|]; simpl in H; [|discriminate].
  destruct (materialHeap g !! p) as [m|]; simpl in H; [|discriminate].
  repeat (match type of H with
          | context [mbind _ ?o] => destruct o; simpl in H; [|discriminate]
          end).
  injection H as <-. apply h_heap.
Qed.

Lemma UpdateSceneWindow_keeps (g g' : Game M) :
  UpdateSceneWindow gui g = Some g' -> h g' = h g.
Proof using h_store h_entities h_heap h_lights h_lightCount.
  unfold UpdateSceneWindow. intros H.
  destruct (if CollapsingHeader gui "Entities" then _ else _) as [g1|] eqn:H1;
    simpl in H; [|discriminate].
  assert (E1 : h g1 = h g).
  { destruct (CollapsingHeader gui "Entities"); [|injection H1 as <-; reflexivity].
    apply (forLoop_preserves h _ GenerateEntitiesHeader_keeps) in H1. exact H1. }
  destruct (if CollapsingHeader gui "Lights" then _ else _) as [g2|] eqn:H2;
    simpl in H; [|discriminate].
  assert (E2 : h g2 = h g1).
  { destruct (CollapsingHeader gui "Lights"); [|injection H2 as <-; reflexivity].
    apply (forLoop_preserves h _ GenerateLightsHeader_keeps) in H2.
    rewrite H2. apply h_lightCount. }
  destruct (GenerateCameraHeader gui g2) as [g3|] eqn:H3; simpl in H; [|discriminate].
  apply GenerateCameraHeader_keeps in H3.
  destruct (CollapsingHeader gui "Materials").
  - apply (forLoop_preserves h _ GenerateMaterialsHeader_keeps) in H. congruence.
  - injection H as <-. congruence.
Qed.

End GuiFrame.

Section FrameFacts.
Context {M : Type} `{!DirectXMath M}.
Variable RAND_MAX : Z.
Variable rand : nat -> Z.
Variable Camera_Update : Input -> Q -> nat -> Store M -> Store M.
Implicit Types (g : Game M).

Lemma scriptedMotion_keeps {A} (h : Game M -> A) g g' :
  (forall s g, h (withStore s g) = h g) ->
  (forall i g, h (withInterval i g) = h g) ->
  scriptedMotion g = Some g' -> h g' = h g.
Proof.
  intros Hs Hi. unfold scriptedMotion. intros H.
  destruct (entities g !! 0) as [e0|]; simpl in H; [|discriminate].
  destruct (entities g !! 1) as [e1|]; simpl in H; [|discriminate].
  destruct (entities g !! 2) as [e2|]; simpl in H; [|discriminate].
  destruct (entities g !! 3) as [e3|]; simpl in H; [|discriminate].
  injection H as <-. rewrite Hs, Hi. reflexivity.
Qed.

(** C5.  A frame runs its three phases in order.  First the input and
    scripted motion: the sign of the interval is turned by entity 0's
    height and entities 0 to 3 are moved and turned; the GUI pass works on
    the scene so moved; the camera is updated on what the GUI pass left;
    then Quit is signalled when the escape key is down and the lights are
    regenerated when the tab key was pressed.  Then the physics step: one
    simulate with the fixed step 1/60 and one blocking fetchResults.  Then
    the render with the camera.  Nothing else is asked of the
    collaborators, and the physics step and the render change nothing of
    the scene: after the frame the Transforms are those the camera update
    left, and the interval is the one the scripted motion left.  With the
    tab key pressed the frame returns for every light count from 0 on. *)
Theorem frame_phases (input : Input) (gui : ImGui) (deltaTime : Q) (g g1 g2 : Game M) :
  scriptedMotion g = Some g1 ->
  UpdateGUI gui g1 = Some g2 ->
  (KeyPress input VK_TAB = true -> (0 <= lightCount g2 < 2 ^ 31)%Z) ->
  exists e0 e1 e2 e3 g',
    entities g !! 0 = Some e0 /\ entities g !! 1 = Some e1 /\
    entities g !! 2 = Some e2 /\ entities g !! 3 = Some e3 /\
    interval g1 =
      turnInterval (f3y (GetPosition (store g) (EntityTransform e0))) (interval g) /\
    store g1 =
      Rotate (Rotate (Rotate (Rotate
        (MoveAbsolute
           (MoveRelative (store g) (EntityTransform e0) (Float3 (1 # 1000) 0 0))
           (EntityTransform e0) (Float3 0 (interval g1) 0))
        (EntityTransform e0) (Float3 0 (5 # 1000) 0))
        (EntityTransform e1) (Float3 0 (2 # 100) 0))
        (EntityTransform e2) (Float3 0 (1 # 100) 0))
        (EntityTransform e3) (Float3 (2 # 100) 0 0) /\
    frame RAND_MAX rand Camera_Update input gui deltaTime g = Some g' /\
    log g' = log g ++ [EvCameraUpdate deltaTime]
                   ++ (if KeyDown input VK_ESCAPE then [EvQuit] else [])
                   ++ (if KeyPress input VK_TAB then [EvGenerateLights] else [])
                   ++ [EvSimulate (1 / 60); EvFetchResults true; EvRender (camera g)] /\
    store g' = Camera_Update input deltaTime (camera g) (store g2) /\
    interval g' = interval g1 /\
    entities g' = entities g2 /\ materialHeap g' = materialHeap g2 /\
    lightCount g' = lightCount g2 /\
    (KeyPress input VK_TAB = false -> lights g' = lights g2) /\
    (KeyPress input VK_TAB = true ->
       Z.of_nat (length (lights g')) = Z.max 3 (lightCount g2)).
Proof.
  intros H1 H2 Htab.
  assert (Hlog : log g2 = log g).
  { rewrite (UpdateSceneWindow_keeps gui log) with (g := g1) (g' := g2);
      try (intros; reflexivity); [|exact H2].
    apply (scriptedMotion_keeps log); [intros; reflexivity .. | exact H1]. }
  assert (Hcam : camera g2 = camera g).
  { rewrite (UpdateSceneWindow_keeps gui camera) with (g := g1) (g' := g2);
      try (intros; reflexivity); [|exact H2].
    apply (scriptedMotion_keeps camera); [intros; reflexivity .. | exact H1]. }
  assert (Hint : interval g2 = interval g1).
  { apply (UpdateSceneWindow_keeps gui interval) with (g := g1) (g' := g2);
      try (intros; reflexivity). exact H2. }
  pose proof H1 as Hs. unfold scriptedMotion in Hs.
  destruct (entities g !! 0) as [e0|]; simpl in Hs; [|discriminate].
  destruct (entities g !! 1) as [e1|]; simpl in Hs; [|discriminate].
  destruct (entities g !! 2) as [e2|]; simpl in Hs; [|discriminate].
  destruct (entities g !! 3) as [e3|]; simpl in Hs; [|discriminate].
  injection Hs as Hs.
  exists e0, e1, e2, e3.
  assert (Hi1 : interval g1 =
                turnInterval (f3y (GetPosition (store g) (EntityTransform e0))) (interval g))
    by (rewrite <- Hs; reflexivity).
  assert (Hs1 : store g1 =
      Rotate (Rotate (Rotate (Rotate
        (MoveAbsolute
           (MoveRelative (store g) (EntityTransform e0) (Float3 (1 # 1000) 0 0))
           (EntityTransform e0) (Float3 0 (interval g1) 0))
        (EntityTransform e0) (Float3 0 (5 # 1000) 0))
        (EntityTransform e1) (Float3 0 (2 # 100) 0))
        (EntityTransform e2) (Float3 0 (1 # 100) 0))
        (EntityTransform e3) (Float3 (2 # 100) 0 0))
    by (rewrite Hi1, <- Hs; reflexivity).
  clear Hs.
  unfold frame, Update. rewrite H1. simpl. rewrite H2. simpl.
  unfold checkInput.
  destruct (KeyPress input VK_TAB) eqn:Etab.
  - destruct (GenerateLights_length RAND_MAX rand (lightCount g2)
                (randCalls (if KeyDown input VK_ESCAPE
                            then emit EvQuit
                                   (emit (EvCameraUpdate deltaTime)
                                      (withStore (Camera_Update input deltaTime (camera g2)
                                                    (store g2)) g2))
                            else emit (EvCameraUpdate deltaTime)
                                   (withStore (Camera_Update input deltaTime (camera g2)
                                                 (store g2)) g2)))
                (Htab eq_refl)) as (ls & k' & Hgen & Hlen).
    destruct (KeyDown input VK_ESCAPE); simpl in Hgen |- *; rewrite Hgen; simpl;
      eexists; (do 6 (split; [first [reflexivity | assumption]|]));
      (split; [reflexivity|]); simpl; rewrite Hlog, Hcam, <- ?app_assoc;
      (split; [reflexivity|]); (split; [reflexivity|]); (split; [exact Hint|]);
      (split; [reflexivity|]); (split; [reflexivity|]); (split; [reflexivity|]);
      (split; [discriminate | intros _; exact Hlen]).
  - destruct (KeyDown input VK_ESCAPE); simpl;
      eexists; (do 6 (split; [first [reflexivity | assumption]|]));
      (split; [reflexivity|]); simpl; rewrite Hlog, Hcam, <- ?app_assoc;
      (split; [reflexivity|]); (split; [reflexivity|]); (split; [exact Hint|]);
      (split; [reflexivity|]); (split; [reflexivity|]); (split; [reflexivity|]);
      (split; [intros _; reflexivity | discriminate]).
Qed.

Lemma count_64 :
  (0 <= lightCount (withLightCount 64 (@LoadAssetsAndCreateEntities M _)) < 2 ^ 31)%Z.
Proof. cbn [lightCount withLightCount]. lia. Qed.

(** C8: what Init does when the foundation was created and
    PxCreatePhysics returns null: nothing is thrown; the null pointer is
    used. *)
Theorem Init_unchecked_physics (foundation : nat) (scene material plane shape : option nat)
    (body : nat -> option nat) :
  Init RAND_MAX rand (BuildPhysX (Some foundation) None scene material plane shape body)
  = Undefined.
Proof.
  unfold Init.
  destruct (GenerateLights_total RAND_MAX rand
              (lightCount (withLightCount 64 (@LoadAssetsAndCreateEntities M _)))
              (randCalls (withLightCount 64 (@LoadAssetsAndCreateEntities M _)))
              count_64)
    as (ls & k & ->).
  reflexivity.
Qed.

(** Init throws exactly when PxCreateFoundation returns null. *)
Lemma Init_throws_iff (px : PhysX) :
  (exists what, Init RAND_MAX rand px = Thrown (A := Game M) what) <->
  PxCreateFoundation px = None.
Proof.
  unfold Init.
  destruct (GenerateLights_total RAND_MAX rand
              (lightCount (withLightCount 64 (@LoadAssetsAndCreateEntities M _)))
              (randCalls (withLightCount 64 (@LoadAssetsAndCreateEntities M _)))
              count_64)
    as (ls & k & ->).
  cbv beta iota zeta.
  destruct (PxCreateFoundation px);
    [|split; [reflexivity | intros _; eexists; reflexivity]].
  split; [|discriminate]. intros [w Hw].
  destruct (PxCreatePhysics px); [|discriminate Hw].
  destruct (createMaterial px); [|discriminate Hw].
  destruct (PxCreatePlane px); [|discriminate Hw].
  destruct (createScene px); [|discriminate Hw].
  destruct (createShape px); [|discriminate Hw].
  destruct (stackBodies px); discriminate Hw.
Qed.

End FrameFacts.

(** ** The GUI pass without edits *)

Lemma forLoop_invariant {St : Type} (I : St -> Prop) (body : nat -> St -> option St) :
  forall count i st,
    (forall j st, i <= j < i + count -> I st -> exists st', body j st = Some st' /\ I st') ->
    I st -> exists st', forLoop body i count st = Some st' /\ I st'.
Proof.
  induction count as [|c IH]; intros i st Hbody HI; simpl.
  - exists st. split; [reflexivity | exact HI].
  - destruct (Hbody i st ltac:(lia) HI) as (st1 & -> & HI1).
    apply IH; [|exact HI1]. intros j st2 Hj. apply Hbody. lia.
Qed.

Lemma FindIndex_nonneg v x : x ∈ v -> (0 <= FindIndex v x)%Z.
Proof.
  induction v as [|y v IH]; simpl; intros Hx; [inversion Hx|].
  destruct (Nat.eqb_spec x y) as [->|Hne]; [lia|].
  apply elem_of_cons in Hx as [->|Hx]; [congruence|].
  specialize (IH Hx). destruct (Z.ltb_spec (FindIndex v x) 0); lia.
Qed.

(** Looking up the index that FindIndex found gives the address back. *)
Lemma at_FindIndex v x : x ∈ v -> at_ v (FindIndex v x) = Some x.
Proof.
  intros Hx. unfold at_.
  pose proof (FindIndex_nonneg v x Hx) as Hnn.
  destruct (Z.ltb_spec (FindIndex v x) 0); [lia|]. clear Hnn.
  induction v as [|y v IH]; simpl; [inversion Hx|].
  destruct (Nat.eqb_spec x y) as [->|Hne]; [reflexivity|].
  apply elem_of_cons in Hx as [->|Hx]; [congruence|].
  pose proof (FindIndex_nonneg v x Hx) as Hnn.
  destruct (Z.ltb_spec (FindIndex v x) 0); [lia|].
  rewrite Z2Nat.inj_add by lia. rewrite Nat.add_comm. simpl. apply IH; [exact Hx | lia].
Qed.

Lemma alter_fixed {A} (f : A -> A) (l : list A) i x :
  l !! i = Some x -> f x = x -> alter f i l = l.
Proof.
  intros Hi Hf. apply list_eq. intros j. destruct (decide (i = j)) as [<-|Hne].
  - rewrite list_lookup_alter_eq, Hi. simpl. congruence.
  - apply list_lookup_alter_ne. exact Hne.
Qed.

Section GuiIdentity.
Context {M : Type}.
Implicit Types (s : Store M) (g : Game M).

Lemma withStore_id g : withStore (store g) g = g.
Proof. destruct g; reflexivity. Qed.
Lemma withEntities_id g : withEntities (entities g) g = g.
Proof. destruct g; reflexivity. Qed.
Lemma withMaterialHeap_id g : withMaterialHeap (materialHeap g) g = g.
Proof. destruct g; reflexivity. Qed.
Lemma withLights_id g : withLights (lights g) g = g.
Proof. destruct g; reflexivity. Qed.
Lemma withLightCount_id g : withLightCount (lightCount g) g = g.
Proof. destruct g; reflexivity. Qed.

Lemma sceneModel_withStore s g :
  observable s = observable (store g) -> sceneModel (withStore s g) = sceneModel g.
Proof. intros H. unfold sceneModel. simpl. rewrite H. reflexivity. Qed.

Lemma observable_markDirty s n : observable (markDirty s n) = observable s.
Proof.
  apply list_eq. intros j. unfold observable. rewrite !list_lookup_fmap.
  apply fmap_lookup_markDirty. reflexivity.
Qed.

Lemma observable_alter_fixed (f : Transform M -> Transform M) s n :
  (forall t, s !! n = Some t ->
     (position (f t), pitchYawRoll (f t), scale (f t), children (f t), parent (f t)) =
     (position t, pitchYawRoll t, scale t, children t, parent t)) ->
  observable (alter f n s) = observable s.
Proof.
  intros Hf. apply list_eq. intros j. unfold observable. rewrite !list_lookup_fmap.
  destruct (decide (n = j)) as [<-|Hne].
  - rewrite list_lookup_alter_eq. destruct (s !! n) as [t|] eqn:E; simpl; [|reflexivity].
    f_equal. apply Hf. reflexivity.
  - rewrite list_lookup_alter_ne by exact Hne. reflexivity.
Qed.

Lemma observable_SetPosition_Get s n :
  observable (SetPosition s n (GetPosition s n)) = observable s.
Proof.
  unfold SetPosition. rewrite observable_markDirty. apply observable_alter_fixed.
  intros t Ht. unfold GetPosition. rewrite Ht. reflexivity.
Qed.

Lemma observable_SetRotation_Get s n :
  observable (SetRotation s n (GetPitchYawRoll s n)) = observable s.
Proof.
  unfold SetRotation. rewrite observable_markDirty. apply observable_alter_fixed.
  intros t Ht. unfold GetPitchYawRoll. rewrite Ht. reflexivity.
Qed.

Lemma observable_SetScale_Get s n :
  observable (SetScale s n (GetScale s n)) = observable s.
Proof.
  unfold SetScale. rewrite observable_markDirty. apply observable_alter_fixed.
  intros t Ht. unfold GetScale. rewrite Ht. reflexivity.
Qed.

Lemma observable_lookup_field {A} (h : XMFLOAT3 * XMFLOAT3 * XMFLOAT3 * list nat * option nat -> A)
    (k : Transform M -> A) s s' n :
  (forall t, h (position t, pitchYawRoll t, scale t, children t, parent t) = k t) ->
  observable s' = observable s -> k <$> s' !! n = k <$> s !! n.
Proof.
  intros Hk Hobs.
  assert (H : observable s' !! n = observable s !! n) by (rewrite Hobs; reflexivity).
  unfold observable in H. rewrite !list_lookup_fmap in H.
  destruct (s' !! n), (s !! n); simpl in *; try discriminate; try reflexivity.
  rewrite <- !Hk. congruence.
Qed.

Lemma GetPosition_observable s s' n :
  observable s' = observable s -> GetPosition s' n = GetPosition s n.
Proof.
  intros H. unfold GetPosition.
  rewrite (observable_lookup_field (fun o => o.1.1.1.1) position s s' n); auto.
Qed.

Lemma GetPitchYawRoll_observable s s' n :
  observable s' = observable s -> GetPitchYawRoll s' n = GetPitchYawRoll s n.
Proof.
  intros H. unfold GetPitchYawRoll.
  rewrite (observable_lookup_field (fun o => o.1.1.1.2) pitchYawRoll s s' n); auto.
Qed.

Lemma GetScale_observable s s' n :
  observable s' = observable s -> GetScale s' n = GetScale s n.
Proof.
  intros H. unfold GetScale.
  rewrite (observable_lookup_field (fun o => o.1.1.2) scale s s' n); auto.
Qed.

(** The three read-then-write pairs on one Transform. *)
Lemma observable_mirror s n :
  let s1 := SetPosition s n (GetPosition s n) in
  let s2 := SetRotation s1 n (GetPitchYawRoll s1 n) in
  let s3 := SetScale s2 n (GetScale s2 n) in
  observable s3 = observable s.
Proof.
  simpl. rewrite observable_SetScale_Get, observable_SetRotation_Get.
  apply observable_SetPosition_Get.
Qed.

Lemma AddChild_when_child s self node :
  (IndexOfChild s self node >? -1)%Z = true -> AddChild s self node = s.
Proof.
  intros H. unfold AddChild. destruct (s !! self); [|reflexivity].
  destruct (s !! node); [|reflexivity]. rewrite H. reflexivity.
Qed.

Lemma RemoveChild_when_not_child s self node :
  (IndexOfChild s self node >? -1)%Z = false -> RemoveChild s self node = s.
Proof.
  unfold IndexOfChild, RemoveChild. destruct (s !! self) as [ts|]; [|reflexivity].
  destruct (indexOf node (children ts)) as [i|]; [|reflexivity].
  intros H. rewrite Z.gtb_ltb in H. exfalso.
  destruct (Z.ltb_spec (-1) (Z.of_nat i)); [discriminate | lia].
Qed.

End GuiIdentity.

Section GuiIdentityPass.
Context {M : Type}.
Variable gui : ImGui.
Hypothesis gui_noEdit : noEdit gui.
Implicit Types (s : Store M) (g : Game M).

Lemma childCheckbox_noEdit i j g :
  i < length (entities g) -> j < length (entities g) ->
  childCheckbox gui i j g = Some g.
Proof using gui_noEdit.
  intros Hi Hj. unfold childCheckbox.
  destruct (Nat.eqb i j); [reflexivity|].
  destruct (lookup_lt_is_Some_2 _ _ Hi) as [ei ->].
  destruct (lookup_lt_is_Some_2 _ _ Hj) as [ej ->]. simpl.
  destruct gui_noEdit as (_ & _ & _ & _ & _ & _ & Hcheck & _). rewrite Hcheck.
  destruct (IndexOfChild (store g) (EntityTransform ei) (EntityTransform ej) >? -1)%Z eqn:E;
    simpl.
  - rewrite (AddChild_when_child _ _ _ E), withStore_id. reflexivity.
  - rewrite (RemoveChild_when_not_child _ _ _ E), withStore_id. reflexivity.
Qed.

Lemma childLoop_noEdit i g :
  i < length (entities g) ->
  forLoop (childCheckbox gui i) 0 (length (entities g)) g = Some g.
Proof using gui_noEdit.
  intros Hi.
  destruct (forLoop_invariant (fun st => st = g) (childCheckbox gui i)
              (length (entities g)) 0 g) as (st' & Hr & ->); [|reflexivity|exact Hr].
  intros j st Hj ->. exists g. split; [|reflexivity].
  apply childCheckbox_noEdit; [exact Hi | lia].
Qed.

Lemma GenerateEntitiesHeader_noEdit i g e :
  entities g !! i = Some e ->
  Mesh e ∈ meshes g -> EntityMaterial e ∈ materials g ->
  exists s', GenerateEntitiesHeader gui i g = Some (withStore s' g) /\
             observable s' = observable (store g).
Proof using gui_noEdit.
  intros He Hmesh Hmat. unfold GenerateEntitiesHeader.
  destruct (CollapsingHeader gui _);
    [|exists (store g); rewrite withStore_id; split; reflexivity].
  destruct gui_noEdit as (Hcombo & Hin3 & Hsl3 & _).
  rewrite He. simpl. rewrite Hcombo, (at_FindIndex _ _ Hmesh). simpl.
  rewrite (alter_fixed (SetMesh (Mesh e)) _ i e He) by (destruct e; reflexivity).
  rewrite He. simpl. rewrite Hcombo, (at_FindIndex _ _ Hmat). simpl.
  rewrite (alter_fixed (SetMaterial (EntityMaterial e)) _ i e He) by (destruct e; reflexivity).
  rewrite He. simpl. rewrite !Hin3, !Hsl3.
  set (s3 := SetScale _ _ _).
  assert (Hobs : observable s3 = observable (store g)) by apply observable_mirror.
  exists s3. split; [|exact Hobs].
  destruct (CollapsingHeader gui _); [|reflexivity].
  apply (childLoop_noEdit i (withStore s3 g)). simpl.
  eapply lookup_lt_Some; exact He.
Qed.

Lemma GenerateLightsHeader_noEdit i g :
  (Z.of_nat i < lightCount g)%Z ->
  (lightCount g <= Z.of_nat (length (lights g)))%Z ->
  GenerateLightsHeader gui i g = Some g.
Proof using gui_noEdit.
  intros Hi Hcount. unfold GenerateLightsHeader.
  destruct (CollapsingHeader gui _); [|reflexivity].
  assert (Hlt : i < length (lights g)) by lia.
  destruct (lookup_lt_is_Some_2 _ _ Hlt) as [l Hl]. rewrite Hl.
  destruct gui_noEdit as (_ & Hin3 & Hsl3 & _ & Hsl & _ & _ & Hradio & Hcol).
  assert (El : forall l', l' = l -> Some (withLights (<[i := l']> (lights g)) g) = Some g).
  { intros l' ->. rewrite (list_insert_id _ _ _ Hl), withLights_id. reflexivity. }
  clear Hl. destruct l as [ty dir rg pos int col sf]. cbn.
  rewrite !Hradio.
  destruct ty; cbn; rewrite ?Hsl, ?Hsl3, ?Hin3, ?Hcol; apply El; reflexivity.
Qed.

Lemma GenerateCameraHeader_noEdit g :
  exists s', GenerateCameraHeader gui g = Some (withStore s' g) /\
             observable s' = observable (store g).
Proof using gui_noEdit.
  unfold GenerateCameraHeader.
  destruct (CollapsingHeader gui _);
    [|exists (store g); rewrite withStore_id; split; reflexivity].
  destruct gui_noEdit as (_ & Hin3 & _ & Hsl2 & _).
  rewrite Hin3, Hsl2. simpl. eexists. split; [reflexivity|].
  set (s1 := SetPosition _ _ _).
  assert (E : Float3 (f3x (GetPitchYawRoll s1 (camera g))) (f3y (GetPitchYawRoll s1 (camera g)))
                (f3z (GetPitchYawRoll s1 (camera g))) = GetPitchYawRoll s1 (camera g))
    by (destruct (GetPitchYawRoll s1 (camera g)); reflexivity).
  rewrite E, observable_SetRotation_Get. apply observable_SetPosition_Get.
Qed.

Lemma GenerateMaterialsHeader_noEdit i g p m :
  materials g !! i = Some p -> materialHeap g !! p = Some m ->
  materialRegistered g m ->
  GenerateMaterialsHeader gui i g = Some g.
Proof using gui_noEdit.
  intros Hp Hm (Hps & Ha & Hn & Hr & Hme). unfold GenerateMaterialsHeader.
  destruct (CollapsingHeader gui _); [|reflexivity].
  rewrite Hp. simpl. rewrite Hm. simpl.
  destruct gui_noEdit as (Hcombo & _ & _ & _ & Hsl & _ & Hcheck & _ & Hcol).
  rewrite Hcheck, Hcol.
  set (m1 := if Nat.eqb (PS m) (pixelShaderPBR g) then _ else _).
  assert (E1 : m1 = m).
  { unfold m1. destruct (Nat.eqb_spec (PS m) (pixelShaderPBR g)) as [E|E].
    - rewrite <- E. destruct m; reflexivity.
    - destruct Hps as [Hps|Hps]; [|congruence].
      rewrite <- Hps. simpl. rewrite Hsl. destruct m; reflexivity. }
  rewrite E1.
  assert (E2 : SetColor (Float4 (f4x (MaterialColor m)) (f4y (MaterialColor m))
                           (f4z (MaterialColor m)) (f4w (MaterialColor m))) m = m)
    by (destruct m as [? ? [] ? ? ? ?]; reflexivity).
  simpl. rewrite E2.
  rewrite !Hcombo, (at_FindIndex _ _ Ha), (at_FindIndex _ _ Hn), (at_FindIndex _ _ Hr),
    (at_FindIndex _ _ Hme). simpl.
  assert (E3 : SetMetal (Metal m) (SetRoughness (Roughness m)
                 (SetNormal (Normal m) (SetAlbedo (Albedo m) m))) = m)
    by (destruct m; reflexivity).
  rewrite E3.
  rewrite (list_insert_id _ _ _ Hm), withMaterialHeap_id. reflexivity.
Qed.


End GuiIdentityPass.

(** ** The pivot-follow camera *)

Section ThirdPersonCameraFacts.
Context {M : Type} `{!DirectXMath M}.
Implicit Types (s : Store M) (t : Transform M).

Lemma updateMatrices_fields {A} (h : Transform M -> A) fuel s n w s' j :
  (forall w t, h (setClean w t) = h t) ->
  updateMatrices fuel s n = Some (w, s') -> h <$> s' !! j = h <$> s !! j.
Proof.
  intros Hh. revert s n w s'. induction fuel as [|f IH]; intros s n w s'; simpl; [discriminate|].
  destruct (s !! n) as [tn|]; [|discriminate].
  destruct (matricesDirty tn); [|intros [= _ <-]; reflexivity].
  destruct (parent tn) as [p|].
  - destruct (updateMatrices f s p) as [[pw s1]|] eqn:E; [|discriminate].
    intros [= _ <-]. rewrite fmap_alter_same by apply Hh. eapply IH. exact E.
  - intros [= _ <-]. apply fmap_alter_same, Hh.
Qed.

Lemma UpdateViewMatrix_fields {A} (h : Transform M -> A) s cam j :
  (forall w t, h (setClean w t) = h t) ->
  h <$> UpdateViewMatrix s cam !! j = h <$> s !! j.
Proof.
  intros Hh. unfold UpdateViewMatrix, GetWorldMatrix.
  destruct (updateMatrices (length s) s cam) as [[w s']|] eqn:E; [|reflexivity].
  eapply updateMatrices_fields; eassumption.
Qed.

Lemma length_UpdateViewMatrix s cam : length (UpdateViewMatrix s cam) = length s.
Proof.
  assert (H : forall j, parent <$> UpdateViewMatrix s cam !! j = parent <$> s !! j)
    by (intros j; apply UpdateViewMatrix_fields; reflexivity).
  destruct (Nat.lt_total (length (UpdateViewMatrix s cam)) (length s)) as [Hlt|[Heq|Hlt]];
    [|exact Heq|].
  - specialize (H (length (UpdateViewMatrix s cam))).
    rewrite (lookup_ge_None_2 (UpdateViewMatrix s cam)) in H by lia.
    destruct (lookup_lt_is_Some_2 _ _ Hlt) as [t Ht]. rewrite Ht in H. discriminate.
  - specialize (H (length s)). rewrite (lookup_ge_None_2 s) in H by lia.
    destruct (lookup_lt_is_Some_2 _ _ Hlt) as [t Ht]. rewrite Ht in H. discriminate.
Qed.

Lemma fmap_lookup_Rotate_if {A} (h : Transform M -> A) (b : bool) s n d j :
  (forall t, h (setDirty t) = h t) ->
  h <$> (if b then Rotate s n d else s) !! j =
  (fun t => if decide (j = n)
            then h (if b then setPitchYawRoll (f3add (pitchYawRoll t) d) t else t)
            else h t) <$> s !! j.
Proof.
  intros Hh. destruct b.
  - unfold Rotate. apply fmap_lookup_mutate, Hh.
  - destruct (s !! j); simpl; [|reflexivity]. destruct (decide _); reflexivity.
Qed.

(** Attaching a parentless node under a childless root. *)
Lemma AddChild_fresh s self node :
  self <> node ->
  children <$> s !! self = Some [] ->
  parent <$> s !! self = Some None ->
  parent <$> s !! node = Some None ->
  AddChild s self node =
  markDirty (alter (setParent (Some self)) node
               (alter (fun t => setChildren (children t ++ [node]) t) self s)) node.
Proof.
  intros Hne Hc Hp Hn. unfold AddChild, IndexOfChild, isAncestorOrSelf.
  destruct (s !! self) as [ts|] eqn:Hs; simpl in Hc, Hp; [|discriminate].
  destruct (s !! node) as [tn|] eqn:Hnode; simpl in Hn; [|discriminate].
  injection Hc as Hc. injection Hp as Hp. injection Hn as Hn.
  rewrite Hc, Hn. simpl.
  assert (Hlen : 0 < length s) by (apply lookup_lt_Some in Hs; lia).
  destruct (length s) as [|k]; [lia|]. simpl.
  destruct (Nat.eqb_spec node self) as [->|_]; [congruence|].
  rewrite Hs, Hp. reflexivity.
Qed.

Lemma RemoveChild_only s self node :
  children <$> s !! self = Some [node] ->
  RemoveChild s self node =
  markDirty (alter (setParent None) node (alter (setChildren []) self s)) node.
Proof.
  intros Hc. unfold RemoveChild.
  destruct (s !! self) as [ts|]; simpl in Hc; [|discriminate].
  injection Hc as ->. simpl. rewrite Nat.eqb_refl. reflexivity.
Qed.

End ThirdPersonCameraFacts.

Section ThirdPersonCameraContract.
Context {M : Type} `{!DirectXMath M}.
Implicit Types (s : Store M) (t : Transform M).

Lemma fmap_lookup_alter_decide {A} (h : Transform M -> A) f n s j :
  h <$> alter f n s !! j = (fun t => if decide (j = n) then h (f t) else h t) <$> s !! j.
Proof.
  destruct (decide (j = n)) as [->|Hne].
  - apply fmap_alter_eq.
  - apply fmap_alter_other. exact Hne.
Qed.

Lemma obs4_fields (o : option (Transform M)) p r c pa :
  obs4 <$> o = Some (p, r, c, pa) ->
  position <$> o = Some p /\ pitchYawRoll <$> o = Some r /\
  children <$> o = Some c /\ parent <$> o = Some pa.
Proof. destruct o as [t|]; simpl; [|discriminate]. intros [= <- <- <- <-]. auto. Qed.

Ltac side :=
  intros; repeat match goal with t : Transform M |- _ => destruct t end;
  unfold obs4; simpl; repeat case_decide;
  repeat match goal with |- context [if ?b then _ else _] => destruct b end;
  reflexivity.

Ltac peel :=
  repeat first
    [ rewrite UpdateViewMatrix_fields by side
    | rewrite fmap_lookup_mutate by side
    | rewrite fmap_lookup_Rotate_if by side
    | rewrite fmap_lookup_markDirty by side
    | rewrite fmap_lookup_alter_decide ].

Ltac settle :=
  unfold obs4; simpl; repeat case_decide; try congruence; simpl;
  repeat match goal with |- context [if ?b then _ else _] => destruct b end;
  try reflexivity.

(** Position, rotation, child list and parent of every Transform after
    an Update. *)
Lemma ThirdPersonCamera_Update_obs4 (input : Input) (dt : Q) (ent piv cam : nat) s te tp :
  tpcLinked s (BuildThirdPersonCamera ent piv cam) ->
  s !! ent = Some te -> s !! piv = Some tp ->
  forall j t, s !! j = Some t ->
    obs4 <$> ThirdPersonCamera_Update input dt (BuildThirdPersonCamera ent piv cam) s !! j =
    Some (if decide (j = piv)
          then (position te, pivotTurn input (pitchYawRoll t), [cam], parent t)
          else if decide (j = cam)
               then (f3add (position t)
                       (XMVector3Rotate (f3sub (position te) (position tp))
                          (pitchYawRoll t)),
                     pitchYawRoll t, children t, Some piv)
               else obs4 t).
Proof.
  unfold tpcLinked. simpl.
  intros (Hpc & Hep & Hec & Hent & Hpp & Hpch & Hcp) Hte Htp.
  rewrite Htp in Hpp, Hpch. simpl in Hpp, Hpch.
  destruct (s !! cam) as [tc|] eqn:Htc; simpl in Hcp; [|discriminate].
  injection Hpp as Hpp. injection Hpch as Hpch. injection Hcp as Hcp.
  unfold ThirdPersonCamera_Update. simpl.
  rewrite (RemoveChild_only s piv cam) by (rewrite Htp; simpl; congruence).
  match goal with |- context [AddChild ?x piv cam] => set (s5 := x) end.
  assert (F5 : forall j,
             obs4 <$> s5 !! j =
             (fun t => if decide (j = piv)
                       then obs4 (setPitchYawRoll (pivotTurn input (pitchYawRoll t))
                                    (setChildren [] t))
                       else if decide (j = cam) then obs4 (setParent None t) else obs4 t)
               <$> s !! j).
  { intros j. unfold s5. unfold pivotTurn.
    destruct (KeyDown input VK_RIGHT), (KeyDown input VK_LEFT),
      (KeyDown input VK_UP), (KeyDown input VK_DOWN);
      unfold Rotate; peel; (destruct (s !! j) as [[]|]; [|reflexivity]); settle. }
  assert (F5p := obs4_fields _ _ _ _ _
                   (eq_trans (F5 piv) ltac:(rewrite Htp; settle))).
  assert (F5c := obs4_fields _ _ _ _ _
                   (eq_trans (F5 cam) ltac:(rewrite Htc; settle))).
  destruct F5p as (_ & _ & F5pc & F5pp). destruct F5c as (_ & _ & _ & F5cp).
  rewrite Hpp in F5pp.
  rewrite (AddChild_fresh s5 piv cam Hpc F5pc F5pp F5cp).
  set (s6 := markDirty _ cam).
  assert (F6 : forall j,
             obs4 <$> s6 !! j =
             (fun t => if decide (j = piv)
                       then obs4 (setPitchYawRoll (pivotTurn input (pitchYawRoll t))
                                    (setChildren [cam] t))
                       else if decide (j = cam) then obs4 (setParent (Some piv) t) else obs4 t)
               <$> s !! j).
  { intros j. unfold s6. rewrite fmap_lookup_markDirty by side.
    transitivity ((fun o => if decide (j = cam) then (o.1, Some piv)
                            else if decide (j = piv) then (o.1.1, o.1.2 ++ [cam], o.2) else o)
                    <$> (obs4 <$> s5 !! j)).
    { rewrite !fmap_lookup_alter_decide.
      destruct (s5 !! j) as [[]|]; [|reflexivity]. settle. }
    rewrite F5. destruct (s !! j) as [[]|]; [|reflexivity]. settle. }
  assert (F6e := obs4_fields _ _ _ _ _
                   (eq_trans (F6 ent) ltac:(rewrite Hte; settle))).
  assert (F6p := obs4_fields _ _ _ _ _
                   (eq_trans (F6 piv) ltac:(rewrite Htp; settle))).
  assert (E6e : GetPosition s6 ent = position te).
  { unfold GetPosition. rewrite (proj1 F6e). reflexivity. }
  assert (E6p : GetPosition s6 piv = position tp).
  { unfold GetPosition. rewrite (proj1 F6p). reflexivity. }
  rewrite E6e, E6p. clear F6e F6p.
  set (s7 := SetPosition s6 piv (position te)).
  assert (F7 : forall j,
             obs4 <$> s7 !! j =
             (fun o => if decide (j = piv) then (position te, o.1.1.2, o.1.2, o.2) else o)
               <$> (obs4 <$> s6 !! j)).
  { intros j. unfold s7, SetPosition. rewrite fmap_lookup_mutate by side.
    destruct (s6 !! j) as [[]|]; [|reflexivity]. settle. }
  assert (E7p : GetPosition s7 piv = position te).
  { unfold GetPosition.
    assert (F7p := F7 piv). rewrite F6, Htp in F7p. simpl in F7p.
    rewrite decide_True in F7p by reflexivity.
    apply obs4_fields in F7p. rewrite (proj1 F7p). reflexivity. }
  rewrite E7p.
  set (s8 := MoveRelative s7 cam _).
  assert (F8 : forall j,
             obs4 <$> UpdateViewMatrix s8 cam !! j =
             (fun o => if decide (j = cam)
                       then (f3add o.1.1.1
                               (XMVector3Rotate (f3sub (position te) (position tp)) o.1.1.2),
                             o.1.1.2, o.1.2, o.2)
                       else o)
               <$> (obs4 <$> s7 !! j)).
  { intros j. rewrite UpdateViewMatrix_fields by side.
    unfold s8, MoveRelative. rewrite fmap_lookup_mutate by side.
    destruct (s7 !! j) as [[]|]; [|reflexivity]. settle. }
  assert (G : forall j t, s !! j = Some t ->
            obs4 <$> UpdateViewMatrix s8 cam !! j =
            Some (if decide (j = piv)
                  then (position te, pivotTurn input (pitchYawRoll t), [cam], parent t)
                  else if decide (j = cam)
                       then (f3add (position t)
                               (XMVector3Rotate (f3sub (position te) (position tp))
                                  (pitchYawRoll t)),
                             pitchYawRoll t, children t, Some piv)
                       else obs4 t)).
  { intros j t Hj. rewrite F8, F7, F6, Hj. destruct t. settle. }
  exact G.
Qed.

Lemma ThirdPersonCamera_Update_spec (input : Input) (dt : Q)
    (this : ThirdPersonCamera) s :
  tpcLinked s this ->
  let s' := ThirdPersonCamera_Update input dt this s in
  tpcLinked s' this /\
  GetPosition s' (tpcEntity this) = GetPosition s (tpcEntity this) /\
  GetPosition s' (tpcPivot this) = GetPosition s (tpcEntity this) /\
  GetPitchYawRoll s' (tpcPivot this) = pivotTurn input (GetPitchYawRoll s (tpcPivot this)) /\
  GetPitchYawRoll s' (tpcCamera this) = GetPitchYawRoll s (tpcCamera this) /\
  GetPosition s' (tpcCamera this) =
    f3add (GetPosition s (tpcCamera this))
      (XMVector3Rotate
         (f3sub (GetPosition s (tpcEntity this)) (GetPosition s (tpcPivot this)))
         (GetPitchYawRoll s (tpcCamera this))).
Proof.
  destruct this as [ent piv cam]. unfold tpcLinked. cbn [tpcEntity tpcPivot tpcCamera].
  intros Hl.
  pose proof (ThirdPersonCamera_Update_obs4 input dt ent piv cam s) as G.
  specialize (fun te tp => G te tp Hl).
  destruct Hl as (Hpc & Hep & Hec & Hent & Hpp & Hpch & Hcp).
  destruct (lookup_lt_is_Some_2 _ _ Hent) as [te Hte].
  destruct (s !! piv) as [tp|] eqn:Htp; simpl in Hpp, Hpch; [|discriminate].
  destruct (s !! cam) as [tc|] eqn:Htc; simpl in Hcp; [|discriminate].
  injection Hpp as Hpp. injection Hpch as Hpch. injection Hcp as Hcp.
  specialize (G te tp Hte eq_refl).
  pose proof (obs4_fields _ _ _ _ _
                (eq_trans (G ent te Hte) ltac:(settle))) as (Gep & _ & _ & _).
  pose proof (obs4_fields _ _ _ _ _
                (eq_trans (G piv tp Htp) ltac:(settle))) as (Gpp & Gpr & Gpc & Gppar).
  pose proof (obs4_fields _ _ _ _ _
                (eq_trans (G cam tc Htc) ltac:(settle))) as (Gcp & Gcr & _ & Gcpar).
  unfold GetPosition, GetPitchYawRoll. rewrite Hte, Htp, Htc.
  rewrite Gep, Gpp, Gpr, Gcp, Gcr. cbn [fmap option_fmap option_map default].
  repeat split; try assumption; try congruence.
  apply lookup_lt_is_Some_1. apply (fmap_is_Some position). rewrite Gep. eauto.
Qed.

Lemma ThirdPersonCamera_new_spec s (entityTransform : nat) :
  entityTransform < length s ->
  let this := fst (ThirdPersonCamera_new s entityTransform) in
  let s' := snd (ThirdPersonCamera_new s entityTransform) in
  this = BuildThirdPersonCamera entityTransform (length s) (S (length s)) /\
  tpcLinked s' this /\
  GetPosition s' (tpcPivot this) = GetPosition s entityTransform /\
  GetPosition s' (tpcCamera this) = Float3 0 0 (-15) /\
  (forall j, j < length s -> obs4 <$> s' !! j = obs4 <$> s !! j).
Proof.
  intros Hent. unfold ThirdPersonCamera_new. simpl.
  assert (Hlen : length (SetPosition (s ++ [freshTransform]) (length s)
                           (GetPosition (s ++ [freshTransform]) entityTransform))
                 = S (length s)).
  { unfold SetPosition. rewrite length_markDirty, length_alter, length_app. simpl. lia. }
  rewrite Hlen.
  assert (Ege : GetPosition (s ++ [freshTransform]) entityTransform
                = GetPosition s entityTransform).
  { unfold GetPosition. rewrite lookup_app_l by exact Hent. reflexivity. }
  rewrite Ege in Hlen |- *.
  set (piv := length s) in *. set (cam := S piv) in *.
  set (sB := SetPosition (s ++ [freshTransform]) piv (GetPosition s entityTransform)) in *.
  set (sD := SetPosition (sB ++ [freshTransform]) cam (Float3 0 0 (-15))).
  assert (FB : forall j, obs4 <$> sB !! j =
             if decide (j = piv)
             then Some (GetPosition s entityTransform, Float3 0 0 0, [], None)
             else obs4 <$> s !! j).
  { intros j. unfold sB, SetPosition. rewrite fmap_lookup_mutate by side.
    destruct (decide (j = piv)) as [->|Hne].
    - unfold piv. rewrite list_lookup_middle by reflexivity. reflexivity.
    - destruct (Nat.lt_total j piv) as [Hlt|[Heq|Hgt]]; [|congruence|].
      + rewrite lookup_app_l by exact Hlt. destruct (s !! j); reflexivity.
      + rewrite (lookup_ge_None_2 (s ++ _)) by (rewrite length_app; simpl; unfold piv in *; lia).
        rewrite (lookup_ge_None_2 s) by (unfold piv in *; lia). reflexivity. }
  assert (FD : forall j, obs4 <$> sD !! j =
             if decide (j = cam)
             then Some (Float3 0 0 (-15), Float3 0 0 0, [], None)
             else obs4 <$> sB !! j).
  { intros j. unfold sD, SetPosition. rewrite fmap_lookup_mutate by side.
    destruct (decide (j = cam)) as [->|Hne].
    - rewrite list_lookup_middle by (rewrite Hlen; reflexivity). reflexivity.
    - destruct (Nat.lt_total j cam) as [Hlt|[Heq|Hgt]]; [|congruence|].
      + rewrite lookup_app_l by (rewrite Hlen; exact Hlt).
        destruct (sB !! j); reflexivity.
      + rewrite (lookup_ge_None_2 (sB ++ _)) by (rewrite length_app, Hlen; simpl; unfold cam in *; lia).
        rewrite (lookup_ge_None_2 sB) by (rewrite Hlen; unfold cam in *; lia). reflexivity. }
  assert (Hpc : piv <> cam) by (unfold piv, cam; lia).
  assert (FDp := FD piv). rewrite decide_False, FB, decide_True in FDp by (reflexivity || exact Hpc).
  assert (FDc := FD cam). rewrite decide_True in FDc by reflexivity.
  apply obs4_fields in FDp as (_ & _ & FDpc & FDpp).
  apply obs4_fields in FDc as (_ & _ & _ & FDcp).
  rewrite (AddChild_fresh sD piv cam Hpc FDpc FDpp FDcp).
  set (sE := markDirty _ cam).
  assert (FE : forall j, obs4 <$> sE !! j =
             if decide (j = cam)
             then Some (Float3 0 0 (-15), Float3 0 0 0, [], Some piv)
             else if decide (j = piv)
                  then Some (GetPosition s entityTransform, Float3 0 0 0, [cam], None)
                  else obs4 <$> s !! j).
  { intros j. unfold sE. rewrite fmap_lookup_markDirty by side.
    transitivity ((fun o => if decide (j = cam) then (o.1, Some piv)
                            else if decide (j = piv) then (o.1.1, o.1.2 ++ [cam], o.2) else o)
                    <$> (obs4 <$> sD !! j)).
    { rewrite !fmap_lookup_alter_decide.
      destruct (sD !! j) as [[]|]; [|reflexivity]. settle. }
    rewrite FD, FB. repeat case_decide; try congruence; try reflexivity.
    destruct (s !! j); reflexivity. }
  assert (FEp := FE piv). rewrite decide_False, decide_True in FEp by (reflexivity || exact Hpc).
  assert (FEc := FE cam). rewrite decide_True in FEc by reflexivity.
  apply obs4_fields in FEp as (FEpp & _ & FEpc & FEppar).
  apply obs4_fields in FEc as (FEcp & _ & _ & FEcpar).
  split; [reflexivity|]. unfold tpcLinked. simpl. fold piv cam.
  assert (HlenE : length sE = S (S piv)).
  { unfold sE. rewrite length_markDirty, !length_alter. unfold sD, SetPosition.
    rewrite length_markDirty, length_alter, length_app.
    rewrite Hlen. simpl. unfold cam, piv. lia. }
  repeat split; try assumption; unfold piv, cam in *; try lia.
  - unfold GetPosition. rewrite FEpp. reflexivity.
  - unfold GetPosition. rewrite FEcp. reflexivity.
  - intros j Hj. rewrite FE. rewrite !decide_False by lia. reflexivity.
Qed.

(** C4 as amended.  The constructor makes the pivot a root Transform at
    the tracked entity's position (it is not parented to the entity) with
    the camera, at (0, 0, -15), as its only child.  Each Update keeps
    these links and the entity's position; it detaches the camera, turns
    the pivot by the arrow keys, reattaches the camera, puts the
    pivot at the entity's position and moves the camera, in the camera's
    own orientation, by the step the pivot has just made.  The camera's
    position under the pivot is therefore its old one plus that turned
    step. *)
Theorem ThirdPersonCamera_contract (s0 : Store M) (entityTransform : nat) :
  entityTransform < length s0 ->
  let this := fst (ThirdPersonCamera_new s0 entityTransform) in
  let s1 := snd (ThirdPersonCamera_new s0 entityTransform) in
  tpcEntity this = entityTransform /\
  tpcLinked s1 this /\
  GetPosition s1 (tpcPivot this) = GetPosition s0 entityTransform /\
  GetPosition s1 (tpcCamera this) = Float3 0 0 (-15) /\
  forall (s : Store M) (input : Input) (dt : Q),
    tpcLinked s this ->
    let s' := ThirdPersonCamera_Update input dt this s in
    tpcLinked s' this /\
    GetPosition s' (tpcEntity this) = GetPosition s (tpcEntity this) /\
    GetPosition s' (tpcPivot this) = GetPosition s (tpcEntity this) /\
    GetPitchYawRoll s' (tpcPivot this) = pivotTurn input (GetPitchYawRoll s (tpcPivot this)) /\
    GetPosition s' (tpcCamera this) =
      f3add (GetPosition s (tpcCamera this))
        (XMVector3Rotate
           (f3sub (GetPosition s (tpcEntity this)) (GetPosition s (tpcPivot this)))
           (GetPitchYawRoll s (tpcCamera this))).
Proof.
  intros Hent this s1.
  destruct (ThirdPersonCamera_new_spec s0 entityTransform Hent) as (Hthis & Hl & Hp & Hc & _).
  fold this s1 in Hthis, Hl, Hp, Hc.
  split; [rewrite Hthis; reflexivity|]. split; [exact Hl|]. split; [exact Hp|].
  split; [exact Hc|].
  intros s input dt Hlinked s'.
  destruct (ThirdPersonCamera_Update_spec input dt this s Hlinked)
    as (H1 & H2 & H3 & H4 & _ & H6).
  split; [exact H1|]. split; [exact H2|]. split; [exact H3|]. split; [exact H4 | exact H6].
Qed.

End ThirdPersonCameraContract.

(** ** The scene of Game.cpp, evaluated *)

Section SceneFacts.
Context {M : Type} `{!DirectXMath M}.

Lemma Inv_entityTransforms : Inv (entityTransforms (M := M)).
Proof.
  unfold entityTransforms. cbv zeta.
  do 4 apply Inv_AddChild.
  unfold SetPosition, SetScale.
  do 9 (apply Inv_local_mutation; [reflexivity | reflexivity |]).
  apply Inv_fresh.
Qed.

End SceneFacts.

Lemma links_entityTransforms :
  links (entityTransforms (M := SymMatrix)) =
  [(None, [1; 2]); (Some 0, [3]); (Some 0, []); (Some 1, [4]); (Some 3, [])].
Proof. vm_compute. reflexivity. Qed.

(** Consistency of the links, read off the list of links. *)
Lemma linksConsistent_links {M : Type} (s : Store M) :
  (forall p pa ch c, links s !! p = Some (pa, ch) -> c ∈ ch ->
     exists pa' ch', links s !! c = Some (pa', ch') /\ pa' = Some p) ->
  (forall c ch p, links s !! c = Some (Some p, ch) ->
     exists pa' ch', links s !! p = Some (pa', ch') /\ c ∈ ch') ->
  (forall p pa ch, links s !! p = Some (pa, ch) -> NoDup ch) ->
  linksConsistent s.
Proof.
  intros H1 H2 H3. unfold links in *. split; [|split].
  - intros p tp c Hp Hc.
    destruct (H1 p (parent tp) (children tp) c) as (pa' & ch' & Hl & ->);
      [rewrite list_lookup_fmap, Hp; reflexivity | exact Hc |].
    rewrite list_lookup_fmap in Hl. destruct (s !! c) as [tc|]; simpl in Hl; [|discriminate].
    injection Hl as Hl _. eauto.
  - intros c tc p Hc Hp.
    destruct (H2 c (children tc) p) as (pa' & ch' & Hl & Hin);
      [rewrite list_lookup_fmap, Hc; simpl; rewrite Hp; reflexivity |].
    rewrite list_lookup_fmap in Hl. destruct (s !! p) as [tp|]; simpl in Hl; [|discriminate].
    injection Hl as _ Hl. subst ch'. eauto.
  - intros p tp Hp. apply (H3 p (parent tp) (children tp)).
    rewrite list_lookup_fmap, Hp. reflexivity.
Qed.

Ltac links_cases p H :=
  repeat (simpl in H;
          first [ discriminate H
                | destruct p as [|p]; [injection H as <- <- |] ]).

Ltac elem_cases H :=
  repeat (apply elem_of_cons in H as [->|H]); try (apply elem_of_nil in H; contradiction).

Lemma links_entityTransforms_plus :
  links (entityTransforms (M := SymMatrix) ++ [freshTransform]) =
  [(None, [1; 2]); (Some 0, [3]); (Some 0, []); (Some 1, [4]); (Some 3, []); (None, [])].
Proof. vm_compute. reflexivity. Qed.

Lemma linksConsistent_entityTransforms :
  linksConsistent (entityTransforms (M := SymMatrix) ++ [freshTransform]).
Proof.
  apply linksConsistent_links; rewrite links_entityTransforms_plus.
  - intros p pa ch c Hp Hc.
    links_cases p Hp; elem_cases Hc; simpl; eauto.
  - intros c ch p Hc.
    repeat (simpl in Hc;
            first [ discriminate Hc
                  | destruct c as [|c]; [first [discriminate Hc | injection Hc as <- <-] |] ]);
      simpl; eexists _, _; (split; [reflexivity|]); compute_done.
  - intros p pa ch Hp.
    links_cases p Hp; compute_done.
Qed.

(** ** The theorems at concrete inputs *)

Lemma world_matrix_never_stale_witness :
  Inv (replicate 5 (freshTransform (M := SymMatrix))) /\
  Forall (callValid 5) sceneCalls /\ 4 < 5 /\
  exists s1 w s2,
    calls sceneCalls (replicate 5 (freshTransform (M := SymMatrix))) = Some s1 /\
    GetWorldMatrix s1 4 = Some (w, s2) /\ WorldOf s1 4 w /\
    (forall w', WorldOf s1 4 w' -> w' = w).
Proof.
  assert (HI : Inv (replicate 5 (freshTransform (M := SymMatrix)))) by apply Inv_fresh.
  assert (Hv : Forall (callValid 5) sceneCalls) by (repeat constructor; simpl; lia).
  split; [exact HI|]. split; [exact Hv|]. split; [lia|].
  apply (world_matrix_never_stale (replicate 5 freshTransform) sceneCalls 4 HI Hv).
  simpl. lia.
Defined.

Lemma AddChild_contract_witness :
  exists ts tn,
    acyclic (entityTransforms (M := SymMatrix)) /\
    entityTransforms (M := SymMatrix) !! 2 = Some ts /\
    entityTransforms (M := SymMatrix) !! 3 = Some tn /\
    acyclic (AddChild (entityTransforms (M := SymMatrix)) 2 3) /\
    children <$> AddChild (entityTransforms (M := SymMatrix)) 2 3 !! 2 = Some (children ts ++ [3]) /\
    parent <$> AddChild (entityTransforms (M := SymMatrix)) 2 3 !! 3 = Some (Some 2).
Proof.
  assert (Hac : acyclic (entityTransforms (M := SymMatrix))) by apply Inv_entityTransforms.
  eexists _, _. split; [exact Hac|].
  split; [vm_compute; reflexivity|]. split; [vm_compute; reflexivity|].
  match goal with
  | |- context [children ?ts ++ [3]] =>
      destruct (AddChild_contract (entityTransforms (M := SymMatrix)) 2 3 ts
                  (Transform.Build (Float3 6 0 0) (Float3 0 0 0) (Float3 1 1 1) true
                     SymIdentity [4] (Some 1))
                  Hac ltac:(vm_compute; reflexivity) ltac:(vm_compute; reflexivity))
        as (Hac' & _ & Hadd)
  end.
  split; [exact Hac'|].
  destruct Hadd as (Hc & Hp & _).
  - simpl. apply not_elem_of_nil.
  - apply isAncestorOrSelf_false. vm_compute. reflexivity.
  - split; [exact Hc | exact Hp].
Defined.



Lemma demoRand_range (k : nat) : (0 <= demoRand k <= demoRAND_MAX)%Z.
Proof.
  unfold demoRand, demoRAND_MAX.
  pose proof (Z.mod_pos_bound (Z.of_nat k * 7919 + 13) 32768 ltac:(lia)). lia.
Qed.

Lemma GenerateLights_contract_witness :
  (0 < demoRAND_MAX)%Z /\ (forall k, (0 <= demoRand k <= demoRAND_MAX)%Z) /\
  (0 <= 64 < 2 ^ 31)%Z /\
  exists ls k',
    GenerateLights demoRAND_MAX demoRand 64 0 = Some (ls, k') /\
    Z.of_nat (length ls) = Z.max 3 64 /\
    take 3 ls = [dir1; dir2; dir3] /\
    Forall (fun l => Type_ l = LIGHT_TYPE_DIRECTIONAL) (take 3 ls) /\
    Forall pointLightInRange (drop 3 ls).
Proof.
  assert (H0 : (0 < demoRAND_MAX)%Z) by reflexivity.
  assert (H1 : (0 <= 64 < 2 ^ 31)%Z) by lia.
  split; [exact H0|]. split; [exact demoRand_range|]. split; [exact H1|].
  exact (GenerateLights_contract demoRAND_MAX demoRand H0 demoRand_range 64 0 H1).
Defined.

Lemma ThirdPersonCamera_contract_witness :
  0 < length (entityTransforms (M := SymMatrix)) /\
  tpcLinked (snd (ThirdPersonCamera_new (entityTransforms (M := SymMatrix)) 0))
            (fst (ThirdPersonCamera_new (entityTransforms (M := SymMatrix)) 0)) /\
  GetPosition (snd (ThirdPersonCamera_new (entityTransforms (M := SymMatrix)) 0))
              (tpcCamera (fst (ThirdPersonCamera_new (entityTransforms (M := SymMatrix)) 0)))
  = Float3 0 0 (-15).
Proof.
  assert (H : 0 < length (entityTransforms (M := SymMatrix))) by (vm_compute; lia).
  split; [exact H|].
  destruct (ThirdPersonCamera_contract (entityTransforms (M := SymMatrix)) 0 H)
    as (_ & Hl & _ & Hc & _).
  split; [exact Hl | exact Hc].
Defined.

(** C4 as stated fails: the pivot has no parent, so it is not parented
    to the tracked entity's Transform; and once the entity has moved, an
    Update changes the camera's position under the pivot. *)
Lemma ThirdPersonCamera_counterexample :
  parent <$> snd (ThirdPersonCamera_new (entityTransforms (M := SymMatrix)) 0) !! 5
    <> Some (Some 0) /\
  fst (ThirdPersonCamera_new (entityTransforms (M := SymMatrix)) 0)
    = BuildThirdPersonCamera 0 5 6 /\
  ~ (f3x (GetPosition
            (ThirdPersonCamera_Update noKeys (1 # 60) (BuildThirdPersonCamera 0 5 6)
               (SetPosition (snd (ThirdPersonCamera_new (entityTransforms (M := SymMatrix)) 0))
                  0 (Float3 1 0 0))) 6)
     == f3x (GetPosition
               (SetPosition (snd (ThirdPersonCamera_new (entityTransforms (M := SymMatrix)) 0))
                  0 (Float3 1 0 0)) 6))%Q.
Proof.
  split; [vm_compute; discriminate|]. split; [vm_compute; reflexivity|].
  vm_compute. discriminate.
Qed.

Lemma frame_phases_witness :
  exists g1 g2 g',
    scriptedMotion startedGame = Some g1 /\
    UpdateGUI (idleGui (fun _ => false)) g1 = Some g2 /\
    (KeyPress tabPressed VK_TAB = true -> (0 <= lightCount g2 < 2 ^ 31)%Z) /\
    frame demoRAND_MAX demoRand restingCamera tabPressed (idleGui (fun _ => false)) (1 # 60)
      startedGame = Some g' /\
    log g' = [EvCameraUpdate (1 # 60); EvGenerateLights;
              EvSimulate (1 / 60); EvFetchResults true; EvRender 5] /\
    interval g' = interval g1 /\
    Z.of_nat (length (lights g')) = 64%Z.
Proof.
  pose (g1 := default startedGame (scriptedMotion startedGame)).
  assert (H1 : scriptedMotion startedGame = Some g1) by (vm_compute; reflexivity).
  assert (H2 : UpdateGUI (idleGui (fun _ => false)) g1 = Some g1) by (vm_compute; reflexivity).
  assert (H3 : KeyPress tabPressed VK_TAB = true -> (0 <= lightCount g1 < 2 ^ 31)%Z)
    by (intros _; vm_compute; split; [discriminate | reflexivity]).
  destruct (frame_phases demoRAND_MAX demoRand restingCamera tabPressed
              (idleGui (fun _ => false)) (1 # 60) startedGame g1 g1 H1 H2 H3)
    as (e0 & e1 & e2 & e3 & g' & _ & _ & _ & _ & _ & _ & Hf & Hlog & _ & Hint & _ & _ & _
        & _ & Hl).
  exists g1, g1, g'. split; [exact H1|]. split; [exact H2|]. split; [exact H3|].
  split; [exact Hf|]. split; [rewrite Hlog; reflexivity|].
  split; [exact Hint|].
  rewrite (Hl eq_refl). vm_compute. reflexivity.
Defined.

Lemma scriptedMotion_contract_witness :
  entities startedGame !! 0 = Some (BuildEntity 0 7 0) /\
  entities startedGame !! 1 = Some (BuildEntity 0 8 1) /\
  entities startedGame !! 2 = Some (BuildEntity 0 10 2) /\
  entities startedGame !! 3 = Some (BuildEntity 0 11 3) /\
  exists g',
    scriptedMotion startedGame = Some g' /\
    interval g' = turnInterval (f3y (GetPosition (store startedGame) 0)) (interval startedGame) /\
    pitchYawRoll <$> store g' !! 3 =
      (fun t => f3add (pitchYawRoll t) (Float3 (2 # 100) 0 0)) <$> store startedGame !! 3.
Proof.
  assert (H0 : entities startedGame !! 0 = Some (BuildEntity 0 7 0)) by (vm_compute; reflexivity).
  assert (H1 : entities startedGame !! 1 = Some (BuildEntity 0 8 1)) by (vm_compute; reflexivity).
  assert (H2 : entities startedGame !! 2 = Some (BuildEntity 0 10 2)) by (vm_compute; reflexivity).
  assert (H3 : entities startedGame !! 3 = Some (BuildEntity 0 11 3)) by (vm_compute; reflexivity).
  repeat (split; [assumption|]).
  destruct (scriptedMotion_contract startedGame _ _ _ _ H0 H1 H2 H3)
    as (_ & _ & g' & Hr & Hg & _ & Hnd).
  exists g'. split; [exact Hr|]. split; [rewrite Hg; reflexivity|].
  apply Hnd. simpl. compute_done.
Defined.

(** C6 as stated fails: with y at 2.5, which is neither threshold, the
    sign of the interval is turned, in every frame that finds it there;
    with y at 3, beyond the upper threshold, it is not. *)
Lemma turnInterval_counterexample :
  turnInterval (5 # 2) (5 # 1000) = (- (5 # 1000))%Q /\
  ~ (5 # 2 == 2)%Q /\ ~ (5 # 2 == -2)%Q /\
  turnInterval 3 (5 # 1000) = (5 # 1000)%Q /\ (2 <= 3)%Q /\
  interval <$> scriptedMotion
                 (withStore (SetPosition (store startedGame) 0 (Float3 0 (5 # 2) 0)) startedGame)
    = Some (- (5 # 1000))%Q.
Proof.
  split; [reflexivity|]. split; [discriminate|]. split; [discriminate|].
  split; [reflexivity|]. split; [discriminate|]. vm_compute. reflexivity.
Qed.

(** C9: after Init, a frame in which the slider is dragged to 3 and
    tab is pressed leaves three lights; once the slider is dragged
    back to 64 the GUI pass runs its loop up to 64 over those three
    lights, and with the header of light 4 open it reads lights[3],
    outside the vector. *)
Theorem lightCount_overrun :
  exists g1 g2,
    frame demoRAND_MAX demoRand restingCamera tabPressed (sliderGui 3 (fun _ => false))
      (1 # 60) startedGame = Some g1 /\
    lightCount g1 = 3%Z /\ length (lights g1) = 3 /\
    UpdateSceneWindow (sliderGui 64 (fun _ => false)) g1 = Some g2 /\
    lightCount g2 = 64%Z /\ length (lights g2) = 3 /\
    lights g2 !! 3 = None /\
    UpdateSceneWindow (sliderGui 64 (fun l => String.eqb l "Light 4")) g1 = None /\
    Update demoRAND_MAX demoRand restingCamera noKeys
      (sliderGui 64 (fun l => String.eqb l "Light 4")) (1 # 60) g1 = None.
Proof.
  pose (g1 := default startedGame
                (frame demoRAND_MAX demoRand restingCamera tabPressed
                   (sliderGui 3 (fun _ => false)) (1 # 60) startedGame)).
  pose (g2 := default startedGame (UpdateSceneWindow (sliderGui 64 (fun _ => false)) g1)).
  exists g1, g2. repeat split; vm_compute; reflexivity.
Qed.

Lemma noEdit_idleGui (open : string -> bool) : noEdit (idleGui open).
Proof. unfold noEdit, idleGui; simpl. repeat split; reflexivity. Qed.

Lemma startedGame_fields :
  entities startedGame =
    [BuildEntity 0 7 0; BuildEntity 0 8 1; BuildEntity 0 10 2;
     BuildEntity 0 11 3; BuildEntity 0 9 4] /\
  meshes startedGame = seq 0 4 /\ materials startedGame = seq 0 14 /\
  textures startedGame = seq 0 28 /\
  pixelShader startedGame = 1 /\ pixelShaderPBR startedGame = 2 /\
  materialHeap startedGame = map (newMaterial 1) (seq 0 7) ++ map (newMaterial 2) (seq 0 7) /\
  lightCount startedGame = 64%Z /\ length (lights startedGame) = 64.
Proof. repeat split; vm_compute; reflexivity. Qed.

Lemma assetsRegistered_startedGame : assetsRegistered startedGame.
Proof.
  destruct startedGame_fields as (He & Hm & Hmat & Ht & Hps & Hpbr & Hh & Hlc & Hll).
  unfold assetsRegistered, materialRegistered.
  rewrite He, Hm, Hmat, Ht, Hps, Hpbr, Hh, Hlc, Hll.
  split; [|split; [|lia]].
  - repeat constructor; compute_done.
  - repeat (constructor;
            [eexists; split; [vm_compute; reflexivity|]; simpl;
             split; [first [left; reflexivity | right; reflexivity]|];
             repeat split; compute_done|]).
    constructor.
Qed.


(** * Further properties of Game.cpp and ThirdPersonCamera.cpp *)

(** ** Random numbers and light generation *)

Section MoreLights.
Variable RAND_MAX : Z.
Variable rand : nat -> Z.

(** The macro RandomRange stays between its bounds: with RAND_MAX
    positive, rand() between 0 and RAND_MAX and min <= max, the value
    lies in [min, max]; rand() = 0 gives min and rand() = RAND_MAX gives
    max. *)
Theorem RandomRange_within (k : nat) (min max : Q) :
  (0 < RAND_MAX)%Z -> (0 <= rand k <= RAND_MAX)%Z -> (min <= max)%Q ->
  (min <= RandomRange RAND_MAX rand k min max <= max)%Q /\
  (rand k = 0%Z -> (RandomRange RAND_MAX rand k min max == min)%Q) /\
  (rand k = RAND_MAX -> (RandomRange RAND_MAX rand k min max == max)%Q).
Proof.
  intros HR Hr Hmm. unfold RandomRange.
  assert (HRq : (0 < inject_Z RAND_MAX)%Q).
  { change 0%Q with (inject_Z 0). rewrite <- Zlt_Qlt. exact HR. }
  set (u := (inject_Z (rand k) / inject_Z RAND_MAX)%Q).
  assert (Hu0 : (0 <= u)%Q).
  { unfold u. apply Qle_shift_div_l; [exact HRq|]. rewrite Qmult_0_l.
    change 0%Q with (inject_Z 0). rewrite <- Zle_Qle. apply Hr. }
  assert (Hu1 : (u <= 1)%Q).
  { unfold u. apply Qle_shift_div_r; [exact HRq|]. rewrite Qmult_1_l.
    rewrite <- Zle_Qle. apply Hr. }
  assert (Hd : (0 <= max - min)%Q) by lra.
  assert (H0 : (0 <= u * (max - min))%Q) by (apply Qmult_le_0_compat; assumption).
  assert (H1 : (u * (max - min) <= 1 * (max - min))%Q)
    by (apply Qmult_le_compat_r; assumption).
  split; [split; lra|]. split.
  - intros E. unfold u. rewrite E. unfold Qdiv. rewrite Qmult_0_l. lra.
  - intros E. unfold u. rewrite E.
    assert (Eu : (inject_Z RAND_MAX / inject_Z RAND_MAX == 1)%Q) by (field; lra).
    rewrite Eu. lra.
Qed.

(** GenerateLights for every count an int can hold.  From 0 on it
    returns: the list starts with the three directional lights and has
    max(3, count) lights, so a count of 3 or less gives just the three
    directional lights; rand is called eight times for every point light
    and not otherwise.  A negative count is compared as a size_t of at
    least 2^64 - 2^31, which no vector can reach: the call does not
    return. *)
Theorem GenerateLights_any_count (lightCount : Z) (k : nat) :
  ((0 <= lightCount < 2 ^ 31)%Z ->
     exists ls k',
       GenerateLights RAND_MAX rand lightCount k = Some (ls, k') /\
       Z.of_nat (length ls) = Z.max 3 lightCount /\
       take 3 ls = [dir1; dir2; dir3] /\
       k' = k + 8 * (length ls - 3) /\
       ((lightCount <= 3)%Z -> ls = [dir1; dir2; dir3] /\ k' = k)) /\
  ((- 2 ^ 31 <= lightCount < 0)%Z ->
     GenerateLights RAND_MAX rand lightCount k = None).
Proof.
  split; [|apply GenerateLights_overflow].
  intros Hlc. unfold GenerateLights.
  assert (Hconv : to_size_t lightCount = lightCount)
    by (unfold to_size_t; apply Z.mod_small; lia).
  destruct (GenerateLights_loop_count RAND_MAX rand (Z.to_nat (to_size_t lightCount))
              lightCount k [dir1; dir2; dir3]) as (ls & k' & Hr & Hlen & Hk & Ht).
  { rewrite Hconv. unfold vector_max_size. lia. }
  { simpl. lia. }
  rewrite Hconv in Hlen.
  exists ls, k'. simpl in *. split; [exact Hr|]. split; [exact Hlen|].
  split; [exact Ht|]. split; [exact Hk|].
  intros Hsmall.
  assert (Hl3 : length ls = 3) by lia.
  split; [|lia]. rewrite <- Ht. rewrite <- Hl3. symmetry. apply firstn_all.
Qed.

End MoreLights.

(** ** Game::Init and the key checks of Game::Update *)

Section MoreGameLoop.
Context {M : Type} `{!DirectXMath M}.
Variable RAND_MAX : Z.
Variable rand : nat -> Z.
Variable Camera_Update : Input -> Q -> nat -> Store M -> Store M.
Implicit Types (g : Game M).

Lemma stackBodies_spec (px : PhysX) :
  stackBodies px =
  if forallb (fun k => match createRigidDynamic px k with Some _ => true | None => false end) (seq 0 55)
  then Some 55 else None.
Proof.
  unfold stackBodies. cbn.
  repeat (destruct (createRigidDynamic px _); cbn; [|reflexivity]). reflexivity.
Qed.

Lemma stackBodies_Some (px : PhysX) :
  is_Some (stackBodies px) <-> forall k, k < 55 -> is_Some (createRigidDynamic px k).
Proof.
  rewrite stackBodies_spec.
  destruct (forallb _ (seq 0 55)) eqn:E.
  - split; [|eauto]. intros _ k Hk.
    rewrite forallb_forall in E. specialize (E k).
    destruct (createRigidDynamic px k); [eauto|].
    assert (false = true) by (apply E, in_seq; lia). discriminate.
  - split; [intros [? H]; discriminate H|]. intros Hall. exfalso.
    assert (E' : forallb (fun k => match createRigidDynamic px k with Some _ => true | None => false end)
                   (seq 0 55) = true).
    { apply forallb_forall. intros k Hk. apply in_seq in Hk.
      destruct (Hall k ltac:(lia)) as [b ->]. reflexivity. }
    congruence.
Qed.

(** The three ways Init can end. *)
Lemma Init_cases (px : PhysX) :
  exists G : Game M,
    (lightCount G = 64%Z /\ length (lights G) = 64 /\ camera G = 5 /\
     length (store G) = 6 /\ log G = []) /\
    ((PxCreateFoundation px = None /\
      Init RAND_MAX rand px = Thrown "PxCreateFoundation failed!") \/
     (is_Some (PxCreateFoundation px) /\ physXReady px /\
      Init RAND_MAX rand px = Returned G) \/
     (is_Some (PxCreateFoundation px) /\ ~ physXReady px /\
      Init RAND_MAX rand px = Undefined)).
Proof.
  unfold Init.
  destruct (GenerateLights_length RAND_MAX rand
              (lightCount (withLightCount 64 (@LoadAssetsAndCreateEntities M _)))
              (randCalls (withLightCount 64 (@LoadAssetsAndCreateEntities M _)))
              (count_64 (M := M)))
    as (ls & k & Hgen & Hlen).
  rewrite Hgen. cbv beta iota zeta.
  assert (Hls : length ls = 64).
  { cbn [lightCount withLightCount] in Hlen. lia. }
  match goal with |- context [Returned ?g0] => set (G := g0) end.
  exists G. split.
  { unfold G. cbn [lightCount lights camera store log withStore withRandCalls withLights
                     withLightCount].
    split; [reflexivity|]. split; [exact Hls|]. split; [reflexivity|].
    split; [|reflexivity].
    unfold SetPosition. rewrite length_markDirty, length_alter, length_app. reflexivity. }
  clearbody G. clear Hgen Hlen.
  pose proof (stackBodies_Some px) as Hb.
  unfold physXReady.
  destruct (PxCreateFoundation px) as [f|]; [right | left; split; reflexivity].
  destruct (PxCreatePhysics px) as [ph|] eqn:E1;
    [|right; split; [eauto|]; split; [intros ([? R] & _); discriminate R | reflexivity]].
  destruct (createMaterial px) as [ma|] eqn:E2;
    [|right; split; [eauto|]; split;
      [intros (_ & _ & [? R] & _); discriminate R | reflexivity]].
  destruct (PxCreatePlane px) as [pl|] eqn:E3;
    [|right; split; [eauto|]; split;
      [intros (_ & _ & _ & [? R] & _); discriminate R | reflexivity]].
  destruct (createScene px) as [sc|] eqn:E4;
    [|right; split; [eauto|]; split;
      [intros (_ & [? R] & _); discriminate R | reflexivity]].
  destruct (createShape px) as [sh|] eqn:E5;
    [|right; split; [eauto|]; split;
      [intros (_ & _ & _ & _ & [? R] & _); discriminate R | reflexivity]].
  destruct (stackBodies px) as [n|] eqn:E6.
  - left. split; [eauto|]. split; [|reflexivity].
    repeat (split; [eauto|]). apply Hb. eauto.
  - right. split; [eauto|]. split; [|reflexivity].
    intros (_ & _ & _ & _ & _ & R). apply Hb in R. destruct R as [? R]. discriminate R.
Qed.

(** What Init comes to, as far as PhysX decides it: Init throws, with
    the message of the foundation check, exactly when PxCreateFoundation
    returns null.  With a foundation it returns exactly when none of the
    objects it goes on to use is a null pointer: the physics object, the
    scene, the material, the ground plane, the shape and each of the 55
    bodies of the stack; otherwise it runs into a null pointer, for none
    of them is checked.  When it returns, lightCount is 64, there are 64
    lights, and the arena holds the five entity Transforms and the
    camera's. *)
Theorem Init_outcomes (px : PhysX) :
  ((exists g, Init RAND_MAX rand px = Returned (A := Game M) g) <->
     is_Some (PxCreateFoundation px) /\ physXReady px) /\
  (Init RAND_MAX rand px = Thrown (A := Game M) "PxCreateFoundation failed!" <->
     PxCreateFoundation px = None) /\
  (Init RAND_MAX rand px = Undefined (A := Game M) <->
     is_Some (PxCreateFoundation px) /\ ~ physXReady px) /\
  (forall g, Init RAND_MAX rand px = Returned g ->
     lightCount g = 64%Z /\ length (lights g) = 64 /\ camera g = 5 /\
     length (store g) = 6 /\ log g = []).
Proof.
  destruct (Init_cases px) as (G & HG & [(Hf & ->) | [(Hf & Hr & ->) | (Hf & Hr & ->)]]).
  - split; [split; [intros [g Hg]; discriminate Hg
                   | intros ([? H] & _); rewrite Hf in H; discriminate H]|].
    split; [split; [intros _; exact Hf | reflexivity]|].
    split; [split; [discriminate | intros ([? H] & _); rewrite Hf in H; discriminate H]|].
    intros g Hg. discriminate Hg.
  - split; [split; [intros _; split; assumption | intros _; eauto]|].
    split; [split; [discriminate | intros H; destruct Hf as [? Hf]; congruence]|].
    split; [split; [discriminate | intros (_ & Hn); contradiction]|].
    intros g [= <-]. exact HG.
  - split; [split; [intros [g Hg]; discriminate Hg | intros (_ & Hy); contradiction]|].
    split; [split; [discriminate | intros H; destruct Hf as [? Hf]; congruence]|].
    split; [split; [intros _; split; assumption | reflexivity]|].
    intros g Hg. discriminate Hg.
Qed.

Lemma checkInput_store (input : Input) g g' :
  checkInput RAND_MAX rand input g = Some g' -> store g' = store g.
Proof.
  unfold checkInput.
  destruct (KeyPress input VK_TAB).
  - destruct (GenerateLights _ _ _ _) as [[ls k']|]; [|discriminate].
    intros [= <-]. destruct (KeyDown input VK_ESCAPE); reflexivity.
  - intros [= <-]. destruct (KeyDown input VK_ESCAPE); reflexivity.
Qed.

(** The key checks, when a tab press finds a light count from 0 on (as
    Init and the slider leave it): they return; Quit is signalled exactly
    when escape is down, and a tab press regenerates the lights from the
    count the scene holds at that moment, so that the light list
    afterwards has max(3, count) entries and covers the count; without a
    tab press the lights are left alone.  The count, the Transforms and
    the entities are not changed. *)
Theorem checkInput_regenerates (input : Input) g :
  (KeyPress input VK_TAB = true -> (0 <= lightCount g < 2 ^ 31)%Z) ->
  exists g',
    checkInput RAND_MAX rand input g = Some g' /\
    lightCount g' = lightCount g /\ store g' = store g /\ entities g' = entities g /\
    log g' = log g ++ (if KeyDown input VK_ESCAPE then [EvQuit] else [])
                   ++ (if KeyPress input VK_TAB then [EvGenerateLights] else []) /\
    (KeyPress input VK_TAB = false -> lights g' = lights g /\ randCalls g' = randCalls g) /\
    (KeyPress input VK_TAB = true ->
       Z.of_nat (length (lights g')) = Z.max 3 (lightCount g) /\
       (lightCount g' <= Z.of_nat (length (lights g')))%Z).
Proof.
  intros Htab. unfold checkInput.
  destruct (KeyPress input VK_TAB).
  - assert (Hlc : lightCount (if KeyDown input VK_ESCAPE then emit EvQuit g else g)
                  = lightCount g) by (destruct (KeyDown input VK_ESCAPE); reflexivity).
    destruct (GenerateLights_length RAND_MAX rand
                (lightCount (if KeyDown input VK_ESCAPE then emit EvQuit g else g))
                (randCalls (if KeyDown input VK_ESCAPE then emit EvQuit g else g)))
      as (ls & k' & Hgen & Hlen).
    { rewrite Hlc. apply Htab. reflexivity. }
    rewrite Hgen. rewrite Hlc in Hlen.
    eexists. split; [reflexivity|].
    destruct (KeyDown input VK_ESCAPE); simpl; rewrite ?app_nil_r, <- ?app_assoc;
      (split; [reflexivity|]); (split; [reflexivity|]); (split; [reflexivity|]);
      (split; [reflexivity|]); (split; [discriminate|]);
      intros _; lia.
  - eexists. split; [reflexivity|].
    destruct (KeyDown input VK_ESCAPE); simpl; rewrite ?app_nil_r;
      repeat (split; [reflexivity|]); (split; [intros _; split; reflexivity|]);
      discriminate.
Qed.

(** The scripted motion indexes entities 0 to 3: it goes through exactly
    when the scene has at least four entities, and then it changes
    nothing but the interval and the Transforms. *)
Theorem scriptedMotion_bounds g :
  (is_Some (scriptedMotion g) <-> 4 <= length (entities g)) /\
  (forall g', scriptedMotion g = Some g' ->
     entities g' = entities g /\ lights g' = lights g /\ lightCount g' = lightCount g /\
     materialHeap g' = materialHeap g /\ camera g' = camera g /\ log g' = log g /\
     length (store g') = length (store g)).
Proof.
  unfold scriptedMotion. split.
  - split.
    + intros [g' H].
      destruct (entities g !! 0) as [e0|] eqn:E0; simpl in H; [|discriminate].
      destruct (entities g !! 1) as [e1|] eqn:E1; simpl in H; [|discriminate].
      destruct (entities g !! 2) as [e2|] eqn:E2; simpl in H; [|discriminate].
      destruct (entities g !! 3) as [e3|] eqn:E3; simpl in H; [|discriminate].
      apply lookup_lt_Some in E3. lia.
    + intros Hlen.
      destruct (lookup_lt_is_Some_2 (entities g) 0 ltac:(lia)) as [e0 ->].
      destruct (lookup_lt_is_Some_2 (entities g) 1 ltac:(lia)) as [e1 E1].
      destruct (lookup_lt_is_Some_2 (entities g) 2 ltac:(lia)) as [e2 E2].
      destruct (lookup_lt_is_Some_2 (entities g) 3 ltac:(lia)) as [e3 E3].
      simpl. rewrite E1. simpl. rewrite E2. simpl. rewrite E3. simpl. eauto.
  - intros g' H.
    destruct (entities g !! 0) as [e0|] eqn:E0; simpl in H; [|discriminate].
    destruct (entities g !! 1) as [e1|] eqn:E1; simpl in H; [|discriminate].
    destruct (entities g !! 2) as [e2|] eqn:E2; simpl in H; [|discriminate].
    destruct (entities g !! 3) as [e3|] eqn:E3; simpl in H; [|discriminate].
    injection H as <-. simpl. repeat split.
    unfold Rotate, MoveAbsolute, MoveRelative.
    repeat rewrite length_markDirty, length_alter. reflexivity.
Qed.

End MoreGameLoop.

(** ** The light headers, with edits *)

Section MoreLightHeaders.
Context {M : Type}.
Variable gui : ImGui.
Implicit Types (g : Game M).
Local Open Scope string_scope.

Lemma GenerateLightsHeader_defined i g :
  (exists g', GenerateLightsHeader gui i g = Some g' /\
              length (lights g') = length (lights g) /\ lightCount g' = lightCount g) <->
  (CollapsingHeader gui (ConcatStringAndInt "Light " (Z.of_nat i + 1)) = true ->
   i < length (lights g)).
Proof.
  unfold GenerateLightsHeader.
  destruct (CollapsingHeader gui _).
  - destruct (lights g !! i) as [l|] eqn:Hl; simpl.
    + split; [intros _ _; eapply lookup_lt_Some; exact Hl|].
      intros _. eexists. split; [reflexivity|]. simpl.
      rewrite length_insert. split; reflexivity.
    + split; [intros (g' & H & _); discriminate H|].
      intros H. specialize (H eq_refl). apply lookup_ge_None in Hl. lia.
  - split; [intros _ H; discriminate H|]. intros _. exists g. repeat split.
Qed.

(** The loop over the light headers reads lights[i] for every open
    header below the count: it stays inside the vector exactly when no
    header of a light at or beyond lights.size() is open, whatever the
    user edits; and then it changes neither the number of lights nor the
    count. *)
Theorem lightHeaders_in_bounds (n : nat) g :
  (exists g', forLoop (GenerateLightsHeader gui) 0 n g = Some g' /\
              length (lights g') = length (lights g) /\ lightCount g' = lightCount g) <->
  (forall i, i < n ->
     CollapsingHeader gui (ConcatStringAndInt "Light " (Z.of_nat i + 1)) = true ->
     i < length (lights g)).
Proof.
  assert (Hgen : forall n i0 g,
    (exists g', forLoop (GenerateLightsHeader gui) i0 n g = Some g' /\
                length (lights g') = length (lights g) /\ lightCount g' = lightCount g) <->
    (forall i, i0 <= i < i0 + n ->
       CollapsingHeader gui (ConcatStringAndInt "Light " (Z.of_nat i + 1)) = true ->
       i < length (lights g))).
  { clear n g. induction n as [|n IH]; intros i0 g; simpl.
    - split; [intros _ i Hi; lia|]. intros _. exists g. repeat split.
    - split.
      + intros (g' & Hr & Hlen & Hlc).
        destruct (GenerateLightsHeader gui i0 g) as [g1|] eqn:H1; [|discriminate].
        assert (H1' : exists g1', GenerateLightsHeader gui i0 g = Some g1' /\
                  length (lights g1') = length (lights g) /\ lightCount g1' = lightCount g).
        { destruct (proj2 (GenerateLightsHeader_defined i0 g)) as (g1' & E & Hl).
          - intros Hopen. unfold GenerateLightsHeader in H1. rewrite Hopen in H1.
            destruct (lights g !! i0) eqn:El; [eapply lookup_lt_Some; exact El|discriminate].
          - eauto. }
        destruct H1' as (g1' & E & Hl1 & Hc1). rewrite H1 in E. injection E as <-.
        intros i Hi Hopen. destruct (decide (i = i0)) as [->|Hne].
        * apply (proj1 (GenerateLightsHeader_defined i0 g)); eauto.
        * rewrite <- Hl1. apply (proj1 (IH (S i0) g1)); [|lia|exact Hopen].
          exists g'. split; [exact Hr|]. split; congruence.
      + intros Hall.
        destruct (proj2 (GenerateLightsHeader_defined i0 g)) as (g1 & -> & Hl1 & Hc1).
        { intros Hopen. apply Hall; [lia | exact Hopen]. }
        destruct (proj2 (IH (S i0) g1)) as (g' & Hr & Hl & Hc).
        { intros i Hi Hopen. rewrite Hl1. apply Hall; [lia | exact Hopen]. }
        exists g'. split; [exact Hr|]. split; congruence. }
  rewrite (Hgen n 0 g). split; intros H i Hi; apply H; lia.
Qed.

(** What a light header lets the user edit depends on the type the
    radio buttons leave: a point light keeps its direction and spot
    falloff, a directional light its range and spot falloff, a spot light
    its range; the other lights are not touched. *)
Theorem GenerateLightsHeader_fields (i : nat) g g' (l : Light) :
  GenerateLightsHeader gui i g = Some g' ->
  lights g !! i = Some l ->
  CollapsingHeader gui (ConcatStringAndInt "Light " (Z.of_nat i + 1)) = true ->
  exists l',
    lights g' !! i = Some l' /\
    (forall j, j <> i -> lights g' !! j = lights g !! j) /\
    (Type_ l' = LIGHT_TYPE_POINT ->
       Direction l' = Direction l /\ SpotFalloff l' = SpotFalloff l) /\
    (Type_ l' = LIGHT_TYPE_DIRECTIONAL ->
       Range l' = Range l /\ SpotFalloff l' = SpotFalloff l) /\
    (Type_ l' = LIGHT_TYPE_SPOT -> Range l' = Range l).
Proof.
  unfold GenerateLightsHeader. intros H Hl Hopen. rewrite Hopen, Hl in H.
  simpl in H. injection H as <-. cbn [lights withLights].
  assert (Hlt : i < length (lights g)) by (eapply lookup_lt_Some; exact Hl).
  eexists. split; [apply list_lookup_insert_eq; exact Hlt|].
  split; [intros j Hj; apply list_lookup_insert_ne; congruence|].
  destruct l as [ty dir rg pos int col sf]. cbn.
  destruct (RadioButton gui _ (RadioButton gui _ (RadioButton gui _ ty _) _) _); cbn;
    repeat split; intros; try discriminate; reflexivity.
Qed.

End MoreLightHeaders.

(** ** What the GUI pass leaves alone, with edits *)

Section MoreGuiFrame.
Context {M : Type}.
Variable gui : ImGui.
Implicit Types (s : Store M) (g : Game M).

Lemma guiFixed_withStore s g :
  length s = length (store g) -> guiFixed (withStore s g) = guiFixed g.
Proof. intros H. unfold guiFixed. simpl. rewrite H. reflexivity. Qed.

Lemma guiFixed_withEntities (f : GameEntity -> GameEntity) i g :
  (forall e, EntityTransform (f e) = EntityTransform e) ->
  guiFixed (withEntities (alter f i (entities g)) g) = guiFixed g.
Proof.
  intros Hf. unfold guiFixed. simpl.
  assert (E : map EntityTransform (alter f i (entities g)) = map EntityTransform (entities g)).
  { apply list_eq. intros j. rewrite !list_lookup_fmap.
    destruct (decide (i = j)) as [<-|Hne].
    - rewrite list_lookup_alter_eq. destruct (entities g !! i); simpl; [|reflexivity].
      rewrite Hf. reflexivity.
    - rewrite list_lookup_alter_ne by exact Hne. reflexivity. }
  rewrite E. reflexivity.
Qed.

Lemma length_mutate (f : Transform M -> Transform M) n s :
  length (markDirty (alter f n s) n) = length s.
Proof. rewrite length_markDirty, length_alter. reflexivity. Qed.

Lemma childCheckbox_fixed i j g g' :
  childCheckbox gui i j g = Some g' -> guiFixed g' = guiFixed g.
Proof.
  unfold childCheckbox. intros H.
  destruct (Nat.eqb i j); [injection H as <-; reflexivity|].
  destruct (entities g !! i) as [ei|]; simpl in H; [|discriminate].
  destruct (entities g !! j) as [ej|]; simpl in H; [|discriminate].
  destruct (negb _); injection H as <-; apply guiFixed_withStore;
    [apply length_RemoveChild | apply length_AddChild].
Qed.

Lemma GenerateEntitiesHeader_fixed i g g' :
  GenerateEntitiesHeader gui i g = Some g' -> guiFixed g' = guiFixed g.
Proof.
  unfold GenerateEntitiesHeader. intros H.
  destruct (CollapsingHeader gui _); [|injection H as <-; reflexivity].
  destruct (entities g !! i) as [e|]; simpl in H; [|discriminate].
  destruct (at_ (meshes g) _) as [m|]; simpl in H; [|discriminate].
  destruct (alter (SetMesh m) i (entities g) !! i) as [e1|]; simpl in H; [|discriminate].
  destruct (at_ (materials g) _) as [mt|]; simpl in H; [|discriminate].
  destruct (alter (SetMaterial mt) i _ !! i) as [e2|]; simpl in H; [|discriminate].
  match type of H with
  | (if _ then forLoop _ _ _ ?G else _) = _ =>
      assert (EG : guiFixed G = guiFixed g)
  end.
  { rewrite guiFixed_withStore by (apply length_mutate).
    rewrite guiFixed_withStore by (apply length_mutate).
    rewrite guiFixed_withStore by (apply length_mutate).
    change (guiFixed
              (withEntities
                 (alter (SetMaterial mt) i
                    (entities (withEntities (alter (SetMesh m) i (entities g)) g)))
                 (withEntities (alter (SetMesh m) i (entities g)) g)) = guiFixed g).
    rewrite guiFixed_withEntities by reflexivity.
    apply guiFixed_withEntities. reflexivity. }
  destruct (CollapsingHeader gui _).
  - apply (forLoop_preserves guiFixed _ (childCheckbox_fixed i)) in H. congruence.
  - injection H as <-. exact EG.
Qed.

Lemma GenerateLightsHeader_fixed i g g' :
  GenerateLightsHeader gui i g = Some g' -> guiFixed g' = guiFixed g.
Proof.
  unfold GenerateLightsHeader. intros H.
  destruct (CollapsingHeader gui _); [|injection H as <-; reflexivity].
  destruct (lights g !! i) as [l|]; simpl in H; [|discriminate].
  injection H as <-. unfold guiFixed. simpl. rewrite length_insert. reflexivity.
Qed.

Lemma GenerateCameraHeader_fixed g g' :
  GenerateCameraHeader gui g = Some g' -> guiFixed g' = guiFixed g.
Proof.
  unfold GenerateCameraHeader. intros H.
  destruct (CollapsingHeader gui _); injection H as <-; [|reflexivity].
  rewrite guiFixed_withStore by (apply length_mutate).
  apply guiFixed_withStore, length_mutate.
Qed.

Lemma GenerateMaterialsHeader_fixed i g g' :
  GenerateMaterialsHeader gui i g = Some g' -> guiFixed g' = guiFixed g.
Proof.
  unfold GenerateMaterialsHeader. intros H.
  destruct (CollapsingHeader gui _); [|injection H as <-; reflexivity].
  destruct (materials g !! i) as [p|]; simpl in H; [|discriminate].
  destruct (materialHeap g !! p) as [m|]; simpl in H; [|discriminate].
  repeat (match type of H with
          | context [mbind _ ?o] => destruct o; simpl in H; [|discriminate]
          end).
  injection H as <-. unfold guiFixed. simpl. rewrite length_insert. reflexivity.
Qed.

(** Whatever the user edits, a GUI pass that goes through calls no
    collaborator and leaves alone the camera, the interval, the random
    number count, the asset lists and the two pixel shaders; it creates
    and removes no entity, light, material or Transform, and every entity
    keeps its Transform. *)
Theorem UpdateSceneWindow_fixed g g' :
  UpdateSceneWindow gui g = Some g' -> guiFixed g' = guiFixed g.
Proof.
  unfold UpdateSceneWindow. intros H.
  destruct (if CollapsingHeader gui "Entities" then _ else _) as [g1|] eqn:H1;
    simpl in H; [|discriminate].
  assert (E1 : guiFixed g1 = guiFixed g).
  { destruct (CollapsingHeader gui "Entities"); [|injection H1 as <-; reflexivity].
    apply (forLoop_preserves guiFixed _ GenerateEntitiesHeader_fixed) in H1. exact H1. }
  destruct (if CollapsingHeader gui "Lights" then _ else _) as [g2|] eqn:H2;
    simpl in H; [|discriminate].
  assert (E2 : guiFixed g2 = guiFixed g1).
  { destruct (CollapsingHeader gui "Lights"); [|injection H2 as <-; reflexivity].
    apply (forLoop_preserves guiFixed _ GenerateLightsHeader_fixed) in H2.
    rewrite H2. reflexivity. }
  destruct (GenerateCameraHeader gui g2) as [g3|] eqn:H3; simpl in H; [|discriminate].
  apply GenerateCameraHeader_fixed in H3.
  destruct (CollapsingHeader gui "Materials").
  - apply (forLoop_preserves guiFixed _ GenerateMaterialsHeader_fixed) in H. congruence.
  - injection H as <-. congruence.
Qed.

End MoreGuiFrame.

(** ** The arena through Init and Update *)

Lemma forLoop_keeps {St : Type} (P : St -> Prop) (body : nat -> St -> option St) :
  (forall i st st', body i st = Some st' -> P st -> P st') ->
  forall count i st st', forLoop body i count st = Some st' -> P st -> P st'.
Proof.
  intros Hbody. induction count as [|c IH]; intros i st st'; simpl.
  - intros [= <-] HP. exact HP.
  - destruct (body i st) as [st1|] eqn:Hb; [|discriminate].
    intros Hl HP. apply (IH _ _ _ Hl). apply (Hbody _ _ _ Hb HP).
Qed.

Section MoreArena.
Context {M : Type} `{!DirectXMath M}.
Implicit Types (s : Store M) (g : Game M).

Lemma Depth_app s n d t : Depth s n d -> Depth (s ++ [t]) n d.
Proof.
  induction 1 as [n tn Hn Hp | n tn p d Hn Hp Hd IH].
  - apply (Depth_root _ n tn); [|exact Hp].
    rewrite lookup_app_l by (eapply lookup_lt_Some; exact Hn). exact Hn.
  - apply (Depth_child _ n tn p d); [|exact Hp|exact IH].
    rewrite lookup_app_l by (eapply lookup_lt_Some; exact Hn). exact Hn.
Qed.

Lemma WorldOf_app s n w t : WorldOf s n w -> WorldOf (s ++ [t]) n w.
Proof.
  induction 1 as [n tn Hn Hp | n tn p pw Hn Hp Hw IH].
  - apply (WorldOf_root _ n tn); [|exact Hp].
    rewrite lookup_app_l by (eapply lookup_lt_Some; exact Hn). exact Hn.
  - apply (WorldOf_child _ n tn p pw); [|exact Hp|exact IH].
    rewrite lookup_app_l by (eapply lookup_lt_Some; exact Hn). exact Hn.
Qed.

(** Constructing one more Transform keeps the arena in order. *)
Lemma Inv_app_fresh s : Inv s -> Inv (s ++ [freshTransform]).
Proof.
  intros [Hac Hco]. split.
  - intros n Hn. rewrite length_app in Hn. simpl in Hn.
    destruct (decide (n < length s)) as [Hlt|Hge].
    + destruct (Hac n Hlt) as [d Hd]. exists d. apply Depth_app, Hd.
    + exists 0. apply (Depth_root _ n freshTransform); [|reflexivity].
      apply list_lookup_middle. lia.
  - intros n tn Hn Hclean.
    destruct (decide (n < length s)) as [Hlt|Hge].
    + rewrite lookup_app_l in Hn by exact Hlt. apply WorldOf_app, Hco; assumption.
    + assert (n = length s).
      { apply lookup_lt_Some in Hn. rewrite length_app in Hn. simpl in Hn. lia. }
      subst n. rewrite list_lookup_middle in Hn by reflexivity.
      injection Hn as <-. discriminate Hclean.
Qed.

Variable gui : ImGui.

Lemma childCheckbox_Inv i j g g' :
  childCheckbox gui i j g = Some g' -> Inv (store g) -> Inv (store g').
Proof.
  unfold childCheckbox. intros H HI.
  destruct (Nat.eqb i j); [injection H as <-; exact HI|].
  destruct (entities g !! i) as [ei|]; simpl in H; [|discriminate].
  destruct (entities g !! j) as [ej|]; simpl in H; [|discriminate].
  destruct (negb _); injection H as <-; simpl;
    [apply Inv_RemoveChild, HI | apply Inv_AddChild, HI].
Qed.

Lemma GenerateEntitiesHeader_Inv i g g' :
  GenerateEntitiesHeader gui i g = Some g' -> Inv (store g) -> Inv (store g').
Proof.
  unfold GenerateEntitiesHeader. intros H HI.
  destruct (CollapsingHeader gui _); [|injection H as <-; exact HI].
  destruct (entities g !! i) as [e|]; simpl in H; [|discriminate].
  destruct (at_ (meshes g) _) as [m|]; simpl in H; [|discriminate].
  destruct (alter (SetMesh m) i (entities g) !! i) as [e1|]; simpl in H; [|discriminate].
  destruct (at_ (materials g) _) as [mt|]; simpl in H; [|discriminate].
  destruct (alter (SetMaterial mt) i _ !! i) as [e2|]; simpl in H; [|discriminate].
  match type of H with
  | (if _ then forLoop _ _ _ ?G else _) = _ => assert (EG : Inv (store G))
  end.
  { simpl. unfold SetScale, SetRotation, SetPosition.
    do 3 (apply Inv_local_mutation; [reflexivity | reflexivity |]). exact HI. }
  destruct (CollapsingHeader gui _).
  - apply (forLoop_keeps (fun g => Inv (store g)) _ (childCheckbox_Inv i) _ _ _ _ H EG).
  - injection H as <-. exact EG.
Qed.

Lemma GenerateCameraHeader_Inv g g' :
  GenerateCameraHeader gui g = Some g' -> Inv (store g) -> Inv (store g').
Proof.
  unfold GenerateCameraHeader. intros H HI.
  destruct (CollapsingHeader gui _); injection H as <-; [|exact HI].
  simpl. unfold SetRotation, SetPosition.
  do 2 (apply Inv_local_mutation; [reflexivity | reflexivity |]). exact HI.
Qed.

Lemma UpdateSceneWindow_Inv g g' :
  UpdateSceneWindow gui g = Some g' -> Inv (store g) -> Inv (store g').
Proof.
  unfold UpdateSceneWindow. intros H HI.
  destruct (if CollapsingHeader gui "Entities" then _ else _) as [g1|] eqn:H1;
    simpl in H; [|discriminate].
  assert (I1 : Inv (store g1)).
  { destruct (CollapsingHeader gui "Entities"); [|injection H1 as <-; exact HI].
    apply (forLoop_keeps (fun g => Inv (store g)) _ GenerateEntitiesHeader_Inv _ _ _ _ H1 HI). }
  destruct (if CollapsingHeader gui "Lights" then _ else _) as [g2|] eqn:H2;
    simpl in H; [|discriminate].
  assert (E2 : store g2 = store g1).
  { destruct (CollapsingHeader gui "Lights"); [|injection H2 as <-; reflexivity].
    apply (forLoop_preserves store _ (GenerateLightsHeader_keeps gui store
             (fun _ _ => eq_refl))) in H2. exact H2. }
  destruct (GenerateCameraHeader gui g2) as [g3|] eqn:H3; simpl in H; [|discriminate].
  assert (I3 : Inv (store g3)).
  { apply (GenerateCameraHeader_Inv _ _ H3). rewrite E2. exact I1. }
  destruct (CollapsingHeader gui "Materials").
  - apply (forLoop_preserves store _ (GenerateMaterialsHeader_keeps gui store
             (fun _ _ => eq_refl))) in H. rewrite H. exact I3.
  - injection H as <-. exact I3.
Qed.

Variable RAND_MAX : Z.
Variable rand : nat -> Z.
Variable Camera_Update : Input -> Q -> nat -> Store M -> Store M.

(** The arena Init returns has no parent/child cycle and no stale
    clean cache; and a Game::Update that goes through keeps it so,
    whatever the user ticks or types in the GUI, provided the camera's
    own update keeps it so. *)
Theorem arena_kept_in_order (px : PhysX) (input : Input) (deltaTime : Q) g :
  (Init RAND_MAX rand px = Returned g -> Inv (store g)) /\
  (forall g',
     Inv (store g) ->
     (forall cam s, Inv s -> Inv (Camera_Update input deltaTime cam s)) ->
     Update RAND_MAX rand Camera_Update input gui deltaTime g = Some g' ->
     Inv (store g')).
Proof.
  split.
  - unfold Init.
    assert (E0 : exists g0 : Game M,
              g0 = LoadAssetsAndCreateEntities /\ store g0 = entityTransforms)
      by (eexists; split; reflexivity).
    destruct E0 as (g0 & <- & E0).
    destruct (GenerateLights _ _ _ _) as [[ls k]|]; [|discriminate].
    cbv beta iota zeta.
    destruct (PxCreateFoundation px); [|discriminate].
    destruct (PxCreatePhysics px); [|discriminate].
    destruct (createMaterial px); [|discriminate].
    destruct (PxCreatePlane px); [|discriminate].
    destruct (createScene px); [|discriminate].
    destruct (createShape px); [|discriminate].
    destruct (stackBodies px); [|discriminate].
    intros Hg. injection Hg as <-.
    cbn [store withStore withRandCalls withLights withLightCount Game.store].
    rewrite E0.
    unfold SetPosition. apply Inv_local_mutation; [reflexivity | reflexivity |].
    apply Inv_app_fresh. apply Inv_entityTransforms.
  - intros g' HI Hcam. unfold Update. intros H.
    destruct (scriptedMotion g) as [g1|] eqn:H1; simpl in H; [|discriminate].
    assert (I1 : Inv (store g1)).
    { unfold scriptedMotion in H1.
      destruct (entities g !! 0) as [e0|]; simpl in H1; [|discriminate].
      destruct (entities g !! 1) as [e1|]; simpl in H1; [|discriminate].
      destruct (entities g !! 2) as [e2|]; simpl in H1; [|discriminate].
      destruct (entities g !! 3) as [e3|]; simpl in H1; [|discriminate].
      injection H1 as <-. simpl. unfold Rotate, MoveAbsolute, MoveRelative.
      do 6 (apply Inv_local_mutation; [reflexivity | reflexivity |]). exact HI. }
    destruct (UpdateGUI gui g1) as [g2|] eqn:H2; simpl in H; [|discriminate].
    assert (I2 : Inv (store g2)) by (apply (UpdateSceneWindow_Inv _ _ H2 I1)).
    destruct (checkInput _ _ _ _) as [g3|] eqn:H3; simpl in H; [|discriminate].
    injection H as <-. simpl.
    rewrite (checkInput_store RAND_MAX rand input _ _ H3). simpl. apply Hcam, I2.
Qed.

End MoreArena.

(** ** Widget labels *)

Section WidgetLabels.
Local Open Scope string_scope.

Lemma append_inj_r (p a b : string) : String.append p a = String.append p b -> a = b.
Proof. induction p as [|c p IH]; simpl; [auto|]. intros [= H]. apply IH, H. Qed.

Lemma to_string_inj (i j : Z) : to_string i = to_string j -> i = j.
Proof.
  unfold to_string. intros H. apply DecimalZ.to_int_inj.
  assert (E : NilEmpty.int_of_string (NilEmpty.string_of_int (Z.to_int i)) =
              NilEmpty.int_of_string (NilEmpty.string_of_int (Z.to_int j)))
    by (rewrite H; reflexivity).
  rewrite !NilEmpty.isi in E. congruence.
Qed.

Lemma string_of_uint_hashFree (d : Decimal.uint) :
  hashFree (NilEmpty.string_of_uint d) = true.
Proof. induction d; simpl; auto. Qed.

Lemma to_string_hashFree (i : Z) : hashFree (to_string i) = true.
Proof.
  unfold to_string. destruct (Z.to_int i); simpl; apply string_of_uint_hashFree.
Qed.

Lemma hash_split (a a' r r' : string) :
  hashFree a = true -> hashFree a' = true ->
  String.append a (String "#"%char r) = String.append a' (String "#"%char r') ->
  a = a' /\ r = r'.
Proof.
  revert a'. induction a as [|c a IH]; intros [|c' a'] Ha Ha'; simpl in *.
  - intros [= ->]. auto.
  - intros [= <- _]. rewrite Ascii.eqb_refl in Ha'. discriminate.
  - intros [= -> _]. rewrite Ascii.eqb_refl in Ha. discriminate.
  - intros [= <- H]. apply andb_true_iff in Ha as [_ Ha]. apply andb_true_iff in Ha' as [_ Ha'].
    destruct (IH a' Ha Ha' H) as [-> ->]. auto.
Qed.

(** The labels ConcatStringAndInt builds from one text are different
    for different numbers, so the headers and widgets of different
    entities, lights and materials never share a label; and the label of
    a child check box tells both the parent and the child. *)
Theorem labels_distinct (str : string) (i j i' j' : Z) :
  (ConcatStringAndInt str i = ConcatStringAndInt str j <-> i = j) /\
  (String.append (ConcatStringAndInt "Child " (j + 1)) (ConcatStringAndInt "##" (i + 1)) =
   String.append (ConcatStringAndInt "Child " (j' + 1)) (ConcatStringAndInt "##" (i' + 1))
   <-> i = i' /\ j = j').
Proof.
  split.
  - split; [|intros ->; reflexivity].
    unfold ConcatStringAndInt. intros H. apply to_string_inj, (append_inj_r str), H.
  - split; [|intros [-> ->]; reflexivity].
    unfold ConcatStringAndInt. simpl. intros [= H].
    apply hash_split in H as [Hj H]; try apply to_string_hashFree.
    injection H as H. apply to_string_inj in Hj, H. lia.
Qed.

End WidgetLabels.

(** ** The material and camera headers, with edits *)

Section MoreHeaders.
Context {M : Type}.
Variable gui : ImGui.
Implicit Types (s : Store M) (g : Game M).
Local Open Scope string_scope.

Lemma links_mutate (f : Transform M -> Transform M) n s :
  (forall t, (parent (f t), children (f t)) = (parent t, children t)) ->
  links (markDirty (alter f n s) n) = links s.
Proof.
  intros Hf. rewrite links_markDirty. apply list_eq. intros j. unfold links.
  rewrite !list_lookup_fmap. destruct (decide (n = j)) as [<-|Hne].
  - rewrite list_lookup_alter_eq. destruct (s !! n); simpl; [|reflexivity].
    rewrite Hf. reflexivity.
  - rewrite list_lookup_alter_ne by exact Hne. reflexivity.
Qed.

(** After the header of a material has been drawn, the material's
    pixel shader is the PBR one when the PBR box ends up ticked and the
    plain pixelShader otherwise, whatever it was before (so a material
    made with a third pixel shader loses it even without an edit); its
    shininess is offered for editing only when the box is not ticked; the
    alpha of its colour and the other materials are not touched. *)
Theorem GenerateMaterialsHeader_shader (i p : nat) g g' (m : Material) :
  GenerateMaterialsHeader gui i g = Some g' ->
  CollapsingHeader gui (ConcatStringAndInt "Material " (Z.of_nat i + 1)) = true ->
  materials g !! i = Some p -> materialHeap g !! p = Some m ->
  let isPBR := Checkbox gui (ConcatStringAndInt "PBR##" (Z.of_nat i))
                 (Nat.eqb (PS m) (pixelShaderPBR g)) in
  exists m',
    materialHeap g' !! p = Some m' /\
    PS m' = (if isPBR then pixelShaderPBR g else pixelShader g) /\
    Shininess m' =
      (if isPBR then Shininess m
       else SliderFloat gui (ConcatStringAndInt "Shininess##Ma" (Z.of_nat i)) (Shininess m)) /\
    f4w (MaterialColor m') = f4w (MaterialColor m) /\
    (forall q, q <> p -> materialHeap g' !! q = materialHeap g !! q).
Proof.
  intros H Hopen Hp Hm isPBR. unfold GenerateMaterialsHeader in H.
  rewrite Hopen, Hp in H. simpl in H. rewrite Hm in H. simpl in H.
  fold isPBR in H.
  repeat (match type of H with
          | context [mbind _ ?o] => destruct o; simpl in H; [|discriminate]
          end).
  injection H as <-. cbn [materialHeap withMaterialHeap].
  assert (Hlt : p < length (materialHeap g)) by (eapply lookup_lt_Some; exact Hm).
  eexists. split; [apply list_lookup_insert_eq; exact Hlt|].
  split; [|split; [|split]].
  - destruct isPBR; reflexivity.
  - destruct isPBR; reflexivity.
  - destruct isPBR; reflexivity.
  - intros q Hq. apply list_lookup_insert_ne. congruence.
Qed.

(** The camera header writes back the position the user typed and the
    pitch and yaw of the two-value slider; the camera's roll and scale,
    and every parent pointer and child list, stay as they are. *)
Theorem GenerateCameraHeader_fields g g' :
  GenerateCameraHeader gui g = Some g' ->
  CollapsingHeader gui "Cameras" = true ->
  camera g < length (store g) ->
  let cam := camera g in
  let xy := SliderFloat2 gui "Rotation##C"
              (f3x (GetPitchYawRoll (store g) cam), f3y (GetPitchYawRoll (store g) cam)) in
  GetPosition (store g') cam = InputFloat3 gui "Position##C" (GetPosition (store g) cam) /\
  GetPitchYawRoll (store g') cam =
    Float3 (fst xy) (snd xy) (f3z (GetPitchYawRoll (store g) cam)) /\
  GetScale (store g') cam = GetScale (store g) cam /\
  links (store g') = links (store g).
Proof.
  intros H Hopen Hcam cam xy. unfold GenerateCameraHeader in H. rewrite Hopen in H.
  injection H as <-. cbn [store withStore].
  destruct (lookup_lt_is_Some_2 _ _ Hcam) as [tc Htc]. fold cam in Htc.
  assert (Er : GetPitchYawRoll (SetPosition (store g) cam
                 (InputFloat3 gui "Position##C" (GetPosition (store g) cam))) cam
               = GetPitchYawRoll (store g) cam).
  { unfold GetPitchYawRoll, SetPosition. rewrite fmap_lookup_markDirty by reflexivity.
    rewrite fmap_alter_same by reflexivity. reflexivity. }
  fold cam. rewrite Er. fold xy.
  unfold GetPosition, GetPitchYawRoll, GetScale, SetRotation, SetPosition.
  repeat split.
  - rewrite !fmap_lookup_markDirty by reflexivity.
    rewrite fmap_alter_same by reflexivity. rewrite fmap_lookup_markDirty by reflexivity.
    rewrite fmap_alter_eq, Htc. reflexivity.
  - rewrite fmap_lookup_markDirty by reflexivity. rewrite fmap_alter_eq.
    match goal with |- context [_ <$> ?S1 !! cam] =>
      destruct (S1 !! cam) as [t1|] eqn:E1; [reflexivity|];
      apply lookup_ge_None in E1; rewrite length_markDirty, length_alter in E1
    end.
    unfold cam in E1. lia.
  - rewrite fmap_lookup_markDirty by reflexivity. rewrite fmap_alter_same by reflexivity.
    rewrite fmap_lookup_markDirty by reflexivity. rewrite fmap_alter_same by reflexivity.
    reflexivity.
  - unfold cam. rewrite !links_mutate by reflexivity. reflexivity.
Qed.

End MoreHeaders.

(** ** ThirdPersonCamera and the rest of the arena *)

Section MoreThirdPersonCamera.
Context {M : Type} `{!DirectXMath M}.
Implicit Types (s : Store M).

Lemma observable_alter (f : Transform M -> Transform M)
    (f' : XMFLOAT3 * XMFLOAT3 * XMFLOAT3 * list nat * option nat ->
          XMFLOAT3 * XMFLOAT3 * XMFLOAT3 * list nat * option nat) n s :
  (forall t, (position (f t), pitchYawRoll (f t), scale (f t), children (f t), parent (f t)) =
             f' (position t, pitchYawRoll t, scale t, children t, parent t)) ->
  observable (alter f n s) = alter f' n (observable s).
Proof.
  intros Hf. unfold observable. apply list_fmap_alter.
  apply Forall_forall. intros t _. apply Hf.
Qed.

Lemma observable_app s1 s2 : observable (s1 ++ s2) = observable s1 ++ observable s2.
Proof. unfold observable. apply fmap_app. Qed.

Lemma length_observable s : length (observable s) = length s.
Proof. unfold observable. apply length_fmap. Qed.

Lemma alter_last {A} (f : A -> A) (l : list A) (x : A) n :
  n = length l -> alter f n (l ++ [x]) = l ++ [f x].
Proof.
  intros ->. rewrite alter_app_r_alt by lia. rewrite Nat.sub_diag. reflexivity.
Qed.

(** The constructor adds two Transforms at the end of the arena, the
    pivot and then the camera's, and changes nothing else: the pivot is a
    root at the tracked entity's position with the camera's Transform as
    its only child, the camera's Transform sits at (0, 0, -15) under the
    pivot, both unrotated and at unit scale; position, rotation, scale,
    children and parent of every Transform that was there stay as they
    were, and an arena in order stays in order. *)
Theorem ThirdPersonCamera_new_observable s (entityTransform : nat) :
  entityTransform < length s ->
  let s' := snd (ThirdPersonCamera_new s entityTransform) in
  observable s' =
    observable s ++
      [(GetPosition s entityTransform, Float3 0 0 0, Float3 1 1 1, [S (length s)], None);
       (Float3 0 0 (-15), Float3 0 0 0, Float3 1 1 1, [], Some (length s))] /\
  (Inv s -> Inv s').
Proof.
  intros Hent. unfold ThirdPersonCamera_new. simpl.
  assert (Ege : GetPosition (s ++ [freshTransform]) entityTransform
                = GetPosition s entityTransform).
  { unfold GetPosition. rewrite lookup_app_l by exact Hent. reflexivity. }
  rewrite Ege.
  set (p := GetPosition s entityTransform).
  set (sB := SetPosition (s ++ [freshTransform]) (length s) p).
  assert (HlenB : length sB = S (length s)).
  { unfold sB, SetPosition. rewrite length_markDirty, length_alter, length_app. simpl. lia. }
  rewrite HlenB.
  set (piv := length s) in *. set (cam := S piv) in *.
  set (sD := SetPosition (sB ++ [freshTransform]) cam (Float3 0 0 (-15))).
  assert (OB : observable sB =
               observable s ++ [(p, Float3 0 0 0, Float3 1 1 1, [], None)]).
  { unfold sB, SetPosition. rewrite observable_markDirty.
    rewrite (observable_alter _ (fun o => (p, o.1.1.1.2, o.1.1.2, o.1.2, o.2)))
      by reflexivity.
    rewrite observable_app.
    etransitivity; [apply alter_last; rewrite length_observable; reflexivity | reflexivity]. }
  assert (OD : observable sD =
               observable s ++ [(p, Float3 0 0 0, Float3 1 1 1, [], None);
                                (Float3 0 0 (-15), Float3 0 0 0, Float3 1 1 1, [], None)]).
  { unfold sD, SetPosition. rewrite observable_markDirty.
    rewrite (observable_alter _ (fun o => (Float3 0 0 (-15), o.1.1.1.2, o.1.1.2, o.1.2, o.2)))
      by reflexivity.
    rewrite observable_app, OB.
    etransitivity;
      [apply alter_last; rewrite length_app, length_observable; simpl; unfold cam, piv; lia|].
    rewrite <- app_assoc. reflexivity. }
  assert (Hpc : piv <> cam) by (unfold cam; lia).
  assert (Lp : observable sD !! piv = Some (p, Float3 0 0 0, Float3 1 1 1, [], None)).
  { rewrite OD. apply list_lookup_middle. rewrite length_observable. reflexivity. }
  assert (Lc : observable sD !! cam =
               Some (Float3 0 0 (-15), Float3 0 0 0, Float3 1 1 1, [], None)).
  { rewrite OD. rewrite lookup_app_r by (rewrite length_observable; unfold cam, piv; lia).
    rewrite length_observable. unfold cam, piv. rewrite Nat.sub_succ_l by lia.
    rewrite Nat.sub_diag. reflexivity. }
  unfold observable in Lp, Lc. rewrite list_lookup_fmap in Lp, Lc.
  destruct (sD !! piv) as [tp|] eqn:Hp; [|discriminate].
  destruct (sD !! cam) as [tc|] eqn:Hc; [|discriminate].
  simpl in Lp, Lc. injection Lp as _ _ _ Lpc Lpp. injection Lc as _ _ _ _ Lcp.
  rewrite (AddChild_fresh sD piv cam Hpc)
    by (rewrite ?Hp, ?Hc; simpl; congruence).
  split.
  - rewrite observable_markDirty.
    rewrite (observable_alter _ (fun o => (o.1.1.1.1, o.1.1.1.2, o.1.1.2, o.1.2, Some piv)))
      by reflexivity.
    rewrite (observable_alter _ (fun o => (o.1.1.1.1, o.1.1.1.2, o.1.1.2, o.1.2 ++ [cam], o.2)))
      by reflexivity.
    rewrite OD.
    change [(p, Float3 0 0 0, Float3 1 1 1, [], None);
            (Float3 0 0 (-15), Float3 0 0 0, Float3 1 1 1, [], None)]
      with ([(p, Float3 0 0 0, Float3 1 1 1, @nil nat, @None nat)] ++
            [(Float3 0 0 (-15), Float3 0 0 0, Float3 1 1 1, @nil nat, @None nat)]).
    rewrite (app_assoc (observable s)).
    rewrite alter_app_l by (rewrite length_app, length_observable; simpl; unfold piv; lia).
    rewrite (alter_last _ (observable s)) by (rewrite length_observable; reflexivity).
    rewrite alter_last by (rewrite length_app, length_observable; simpl; unfold cam, piv; lia).
    rewrite <- app_assoc. reflexivity.
  - intros HI.
    rewrite <- (AddChild_fresh sD piv cam Hpc)
      by (rewrite ?Hp, ?Hc; simpl; congruence).
    apply Inv_AddChild. unfold sD, SetPosition.
    apply Inv_local_mutation; [reflexivity | reflexivity |].
    apply Inv_app_fresh. unfold sB, SetPosition.
    apply Inv_local_mutation; [reflexivity | reflexivity |].
    apply Inv_app_fresh. exact HI.
Qed.

(** A field that the links and the dirty flag do not enter is not
    changed by detaching or attaching a child. *)
Lemma fmap_lookup_RemoveChild {A} (h : Transform M -> A) s self node j :
  (forall t, h (setDirty t) = h t) ->
  (forall c t, h (setChildren c t) = h t) ->
  (forall q t, h (setParent q t) = h t) ->
  h <$> RemoveChild s self node !! j = h <$> s !! j.
Proof.
  intros Hd Hc Hp. unfold RemoveChild. destruct (s !! self) as [ts|]; [|reflexivity].
  destruct (indexOf node (children ts)); [|reflexivity].
  rewrite fmap_lookup_markDirty by exact Hd.
  rewrite fmap_alter_same by (apply Hp). apply fmap_alter_same. apply Hc.
Qed.

Lemma fmap_lookup_AddChild {A} (h : Transform M -> A) s self node j :
  (forall t, h (setDirty t) = h t) ->
  (forall c t, h (setChildren c t) = h t) ->
  (forall q t, h (setParent q t) = h t) ->
  h <$> AddChild s self node !! j = h <$> s !! j.
Proof.
  intros Hd Hc Hp. unfold AddChild. destruct (s !! self) as [ts|]; [|reflexivity].
  destruct (s !! node) as [tn|]; [|reflexivity].
  destruct (_ || _); [reflexivity|].
  rewrite fmap_lookup_markDirty by exact Hd.
  rewrite fmap_alter_same by (apply Hp).
  rewrite fmap_alter_same by (intros t; apply Hc).
  destruct (parent tn); [apply fmap_lookup_RemoveChild; assumption | reflexivity].
Qed.

Lemma updateMatrices_length fuel s n w s' :
  updateMatrices fuel s n = Some (w, s') -> length s' = length s.
Proof.
  revert s n w s'. induction fuel as [|f IH]; intros s n w s'; simpl; [discriminate|].
  destruct (s !! n) as [tn|]; [|discriminate].
  destruct (matricesDirty tn); [|intros [= _ <-]; reflexivity].
  destruct (parent tn) as [q|].
  - destruct (updateMatrices f s q) as [[pw s1]|] eqn:E; [|discriminate].
    intros [= _ <-]. rewrite length_alter. eapply IH. exact E.
  - intros [= _ <-]. apply length_alter.
Qed.

(** A read that goes through leaves the node clean, holding the matrix
    it returned. *)
Lemma updateMatrices_clean fuel s n w s' :
  updateMatrices fuel s n = Some (w, s') ->
  exists t, s' !! n = Some t /\ matricesDirty t = false /\ worldMatrix t = w.
Proof.
  destruct fuel as [|f]; simpl; [discriminate|].
  destruct (s !! n) as [tn|] eqn:Hn; [|discriminate].
  destruct (matricesDirty tn) eqn:Hdirty.
  - destruct (parent tn) as [q|].
    + destruct (updateMatrices f s q) as [[pw s1]|] eqn:E; [|discriminate].
      intros [= <- <-]. rewrite list_lookup_alter_eq.
      assert (Hlt : n < length s1).
      { rewrite (updateMatrices_length _ _ _ _ _ E). eapply lookup_lt_Some. exact Hn. }
      destruct (lookup_lt_is_Some_2 _ _ Hlt) as [t1 ->]. simpl. eauto.
    + intros [= <- <-]. rewrite list_lookup_alter_eq, Hn. simpl. eauto.
  - intros [= <- <-]. eauto.
Qed.

(** After ThirdPersonCamera::Update the arena is still in order and of
    the same size, and the camera's Transform is clean: the matrix it
    holds is the product of its local matrix with those of its parent
    chain as they are now, so the view matrix was computed from the
    position the camera has after this Update. *)
Theorem ThirdPersonCamera_Update_cache (input : Input) (dt : Q)
    (this : ThirdPersonCamera) s :
  Inv s -> tpcCamera this < length s ->
  let s' := ThirdPersonCamera_Update input dt this s in
  Inv s' /\ length s' = length s /\
  exists tc, s' !! tpcCamera this = Some tc /\ matricesDirty tc = false /\
             WorldOf s' (tpcCamera this) (worldMatrix tc).
Proof.
  intros HI Hcam. unfold ThirdPersonCamera_Update.
  set (cam := tpcCamera this) in *. set (piv := tpcPivot this).
  cbv zeta.
  match goal with |- context [UpdateViewMatrix ?x cam] => set (s8 := x) end.
  assert (I8 : Inv s8 /\ length s8 = length s).
  { unfold s8, MoveRelative, SetPosition. split.
    - apply Inv_local_mutation; [reflexivity | reflexivity |].
      apply Inv_local_mutation; [reflexivity | reflexivity |].
      apply Inv_AddChild.
      destruct (KeyDown input VK_DOWN), (KeyDown input VK_UP),
        (KeyDown input VK_LEFT), (KeyDown input VK_RIGHT); unfold Rotate;
        repeat (apply Inv_local_mutation; [reflexivity | reflexivity |]);
        apply Inv_RemoveChild, HI.
    - rewrite !length_mutate, length_AddChild.
      destruct (KeyDown input VK_DOWN), (KeyDown input VK_UP),
        (KeyDown input VK_LEFT), (KeyDown input VK_RIGHT); unfold Rotate;
        rewrite ?length_mutate; apply length_RemoveChild. }
  destruct I8 as [I8 L8].
  destruct (GetWorldMatrix_spec s8 cam I8 ltac:(rewrite L8; exact Hcam))
    as (w & s9 & Hr & _ & L9 & _ & I9).
  unfold UpdateViewMatrix. rewrite Hr.
  split; [exact I9|]. split; [congruence|].
  destruct (updateMatrices_clean _ _ _ _ _ Hr) as (tc & Htc & Hclean & _).
  exists tc. split; [exact Htc|]. split; [exact Hclean|].
  apply (proj2 I9 cam tc Htc Hclean).
Qed.

Lemma ThirdPersonCamera_Update_fields {A} (h : Transform M -> A) (input : Input) (dt : Q)
    (this : ThirdPersonCamera) s j :
  (forall t, h (setDirty t) = h t) ->
  (forall c t, h (setChildren c t) = h t) ->
  (forall q t, h (setParent q t) = h t) ->
  (forall v t, h (setPosition v t) = h t) ->
  (forall v t, h (setPitchYawRoll v t) = h t) ->
  (forall w t, h (setClean w t) = h t) ->
  h <$> ThirdPersonCamera_Update input dt this s !! j = h <$> s !! j.
Proof.
  intros Hd Hc Hp Hpos Hrot Hcl. unfold ThirdPersonCamera_Update. cbv zeta.
  rewrite UpdateViewMatrix_fields by exact Hcl.
  unfold MoveRelative, SetPosition.
  rewrite fmap_lookup_markDirty by exact Hd.
  rewrite fmap_alter_same by (intros t; apply Hpos).
  rewrite fmap_lookup_markDirty by exact Hd.
  rewrite fmap_alter_same by (intros t; apply Hpos).
  rewrite fmap_lookup_AddChild by assumption.
  assert (HR : forall (b : bool) s0 n d,
            h <$> (if b then Rotate s0 n d else s0) !! j = h <$> s0 !! j).
  { intros [] s0 n d; [|reflexivity]. unfold Rotate.
    rewrite fmap_lookup_markDirty by exact Hd.
    apply fmap_alter_same. intros t. apply Hrot. }
  rewrite !HR. apply fmap_lookup_RemoveChild; assumption.
Qed.

(** ThirdPersonCamera::Update changes the pose of two Transforms and
    nothing else that can be read off the arena: the pivot gets the
    entity's position and the turn of the arrow keys, the camera's
    Transform is moved by the step of the pivot turned into the camera's
    own orientation; every scale, every child list and every parent
    pointer, and position and rotation of all other Transforms, are after
    the call what they were before it. *)
Theorem ThirdPersonCamera_Update_observable (input : Input) (dt : Q)
    (this : ThirdPersonCamera) s :
  tpcLinked s this ->
  let s' := ThirdPersonCamera_Update input dt this s in
  let step := f3sub (GetPosition s (tpcEntity this)) (GetPosition s (tpcPivot this)) in
  observable s' =
    alter (fun o => (f3add o.1.1.1.1 (XMVector3Rotate step o.1.1.1.2),
                     o.1.1.1.2, o.1.1.2, o.1.2, o.2))
      (tpcCamera this)
      (alter (fun o => (GetPosition s (tpcEntity this), pivotTurn input o.1.1.1.2,
                        o.1.1.2, o.1.2, o.2))
         (tpcPivot this) (observable s)).
Proof.
  destruct this as [ent piv cam]. cbn [tpcEntity tpcPivot tpcCamera]. intros Hl.
  pose proof (ThirdPersonCamera_Update_obs4 input dt ent piv cam s) as G.
  specialize (fun te tp => G te tp Hl).
  pose proof (fun j => ThirdPersonCamera_Update_fields scale input dt
                         (BuildThirdPersonCamera ent piv cam) s j
                         (fun _ => eq_refl) (fun _ _ => eq_refl) (fun _ _ => eq_refl)
                         (fun _ _ => eq_refl) (fun _ _ => eq_refl) (fun _ _ => eq_refl)) as Hsc.
  destruct Hl as (Hpc & Hep & Hec & Hent & Hpp & Hpch & Hcp).
  cbn [tpcEntity tpcPivot tpcCamera] in *.
  destruct (lookup_lt_is_Some_2 _ _ Hent) as [te Hte].
  destruct (s !! piv) as [tp|] eqn:Htp; simpl in Hpp, Hpch; [|discriminate].
  destruct (s !! cam) as [tc|] eqn:Htc; simpl in Hcp; [|discriminate].
  injection Hpp as Hpp. injection Hpch as Hpch. injection Hcp as Hcp.
  specialize (G te tp Hte eq_refl).
  assert (Ee : GetPosition s ent = position te) by (unfold GetPosition; rewrite Hte; reflexivity).
  assert (Ep : GetPosition s piv = position tp) by (unfold GetPosition; rewrite Htp; reflexivity).
  cbv zeta. rewrite Ee, Ep.
  set (s' := ThirdPersonCamera_Update input dt (BuildThirdPersonCamera ent piv cam) s) in *.
  apply list_eq. intros j. specialize (Hsc j).
  rewrite !list_lookup_alter. unfold observable. rewrite !list_lookup_fmap.
  destruct (s !! j) as [t|] eqn:Hj.
  - specialize (G j t Hj).
    destruct (s' !! j) as [t'|]; [|discriminate G].
    simpl in G, Hsc. injection G as G. injection Hsc as Hsc. unfold obs4 in G.
    destruct (decide (cam = j)) as [Ecj|Hcj]; [subst j|].
    + rewrite decide_False in G by congruence. rewrite decide_True in G by reflexivity.
      rewrite decide_False by exact Hpc. rewrite Htc in Hj |- *. injection Hj as <-.
      injection G as G1 G2 G3 G4. simpl. rewrite G1, G2, G3, G4, Hsc, Hcp. reflexivity.
    + destruct (decide (piv = j)) as [Epj|Hpj]; [subst j|].
      * rewrite decide_True in G by reflexivity. rewrite Htp in Hj |- *. injection Hj as <-.
        injection G as G1 G2 G3 G4. simpl. rewrite G1, G2, G3, G4, Hsc, Hpch. reflexivity.
      * rewrite !decide_False in G by congruence.
        injection G as G1 G2 G3 G4. simpl. rewrite G1, G2, G3, G4, Hsc. reflexivity.
  - assert (E : s' !! j = None).
    { destruct (s' !! j); [discriminate Hsc | reflexivity]. }
    rewrite E. destruct (decide (cam = j)) as [<-|Hcj]; [congruence|].
    destruct (decide (piv = j)) as [<-|Hpj]; [congruence|]. reflexivity.
Qed.

End MoreThirdPersonCamera.

(** ** The entity headers, with edits *)

Section MoreEntityHeaders.
Context {M : Type}.
Variable gui : ImGui.
Implicit Types (s : Store M) (g : Game M).
Local Open Scope string_scope.

(** A child check box changes links only: the entities and the pose of
    every Transform stay. *)
Lemma childCheckbox_pose i j k g g' :
  childCheckbox gui i j g = Some g' ->
  (entities g', position <$> store g' !! k, pitchYawRoll <$> store g' !! k,
   scale <$> store g' !! k) =
  (entities g, position <$> store g !! k, pitchYawRoll <$> store g !! k,
   scale <$> store g !! k).
Proof.
  unfold childCheckbox. intros H.
  destruct (Nat.eqb i j); [injection H as <-; reflexivity|].
  destruct (entities g !! i) as [ei|]; simpl in H; [|discriminate].
  destruct (entities g !! j) as [ej|]; simpl in H; [|discriminate].
  destruct (negb _); injection H as <-; cbn [entities store withStore];
    rewrite ?(fmap_lookup_RemoveChild position), ?(fmap_lookup_RemoveChild pitchYawRoll),
      ?(fmap_lookup_RemoveChild scale), ?(fmap_lookup_AddChild position),
      ?(fmap_lookup_AddChild pitchYawRoll), ?(fmap_lookup_AddChild scale)
      by reflexivity; reflexivity.
Qed.

(** When the open header of entity i has been drawn, the entity has the
    mesh and the material its two combos point at, and its Transform has
    the position, rotation and scale the three widgets returned, each
    widget having been shown the value the Transform had on entry; the
    child check boxes change none of this.  The entity keeps its
    Transform, and the other entities and the pose of every other
    Transform are not touched. *)
Theorem GenerateEntitiesHeader_fields (i : nat) g g' (e : GameEntity) :
  GenerateEntitiesHeader gui i g = Some g' ->
  CollapsingHeader gui (ConcatStringAndInt "Entity " (Z.of_nat i + 1)) = true ->
  entities g !! i = Some e ->
  EntityTransform e < length (store g) ->
  let tr := EntityTransform e in
  let n := Z.of_nat i in
  exists e',
    entities g' !! i = Some e' /\
    EntityTransform e' = tr /\
    at_ (meshes g) (Combo gui (ConcatStringAndInt "Mesh##E" n) (FindIndex (meshes g) (Mesh e)))
      = Some (Mesh e') /\
    at_ (materials g)
        (Combo gui (ConcatStringAndInt "Material##E" n)
           (FindIndex (materials g) (EntityMaterial e)))
      = Some (EntityMaterial e') /\
    (forall k, k <> i -> entities g' !! k = entities g !! k) /\
    GetPosition (store g') tr =
      InputFloat3 gui (ConcatStringAndInt "Position##E" n) (GetPosition (store g) tr) /\
    GetPitchYawRoll (store g') tr =
      SliderFloat3 gui (ConcatStringAndInt "Rotation##E" n) (GetPitchYawRoll (store g) tr) /\
    GetScale (store g') tr =
      InputFloat3 gui (ConcatStringAndInt "Scale##E" n) (GetScale (store g) tr) /\
    (forall k, k <> tr ->
       GetPosition (store g') k = GetPosition (store g) k /\
       GetPitchYawRoll (store g') k = GetPitchYawRoll (store g) k /\
       GetScale (store g') k = GetScale (store g) k).
Proof.
  intros H Hopen He Htr tr n. unfold GenerateEntitiesHeader in H.
  rewrite Hopen, He in H. simpl in H. fold n in H.
  destruct (at_ (meshes g) _) as [m|] eqn:Hm; simpl in H; [|discriminate].
  rewrite list_lookup_alter_eq, He in H. simpl in H.
  destruct (at_ (materials g) _) as [mt|] eqn:Hmt; simpl in H; [|discriminate].
  rewrite !list_lookup_alter_eq, He in H. simpl in H. fold tr in H.
  set (pos := InputFloat3 gui (ConcatStringAndInt "Position##E" n) (GetPosition (store g) tr))
    in *.
  set (s1 := SetPosition (store g) tr pos) in *.
  set (rot := SliderFloat3 gui (ConcatStringAndInt "Rotation##E" n) (GetPitchYawRoll s1 tr))
    in *.
  set (s2 := SetRotation s1 tr rot) in *.
  set (sc := InputFloat3 gui (ConcatStringAndInt "Scale##E" n) (GetScale s2 tr)) in *.
  set (s3 := SetScale s2 tr sc) in *.
  destruct (lookup_lt_is_Some_2 _ _ Htr) as [t Ht]. fold tr in Ht.
  assert (F : forall k,
            (position <$> s3 !! k, pitchYawRoll <$> s3 !! k, scale <$> s3 !! k) =
            if decide (k = tr) then (Some pos, Some rot, Some sc)
            else (position <$> store g !! k, pitchYawRoll <$> store g !! k,
                  scale <$> store g !! k)).
  { intros k. unfold s3, s2, s1, SetScale, SetRotation, SetPosition.
    rewrite !fmap_lookup_mutate by reflexivity.
    destruct (decide (k = tr)) as [->|Hk].
    - rewrite Ht. reflexivity.
    - destruct (store g !! k); reflexivity. }
  assert (Er : GetPitchYawRoll s1 tr = GetPitchYawRoll (store g) tr).
  { unfold s1, GetPitchYawRoll, SetPosition. rewrite fmap_lookup_mutate by reflexivity.
    rewrite Ht. simpl. rewrite decide_True by reflexivity. reflexivity. }
  assert (Es : GetScale s2 tr = GetScale (store g) tr).
  { unfold s2, s1, GetScale, SetRotation, SetPosition.
    rewrite !fmap_lookup_mutate by reflexivity.
    rewrite Ht. simpl. repeat case_decide; reflexivity. }
  match type of H with
  | (if _ then forLoop _ _ _ ?G else _) = _ => set (G0 := G) in H
  end.
  assert (HG : forall k,
            (entities g', position <$> store g' !! k, pitchYawRoll <$> store g' !! k,
             scale <$> store g' !! k) =
            (entities G0, position <$> s3 !! k, pitchYawRoll <$> s3 !! k,
             scale <$> s3 !! k)).
  { intros k. destruct (CollapsingHeader gui _).
    - apply (forLoop_preserves
               (fun g => (entities g, position <$> store g !! k,
                          pitchYawRoll <$> store g !! k, scale <$> store g !! k))
               _ (fun j => childCheckbox_pose i j k) _ _ _ _ H).
    - injection H as <-. reflexivity. }
  assert (Hent : entities g' = alter (SetMaterial mt) i (alter (SetMesh m) i (entities g))).
  { specialize (HG 0). injection HG as -> _ _ _. reflexivity. }
  assert (HP : forall k,
            (position <$> store g' !! k, pitchYawRoll <$> store g' !! k,
             scale <$> store g' !! k) =
            if decide (k = tr) then (Some pos, Some rot, Some sc)
            else (position <$> store g !! k, pitchYawRoll <$> store g !! k,
                  scale <$> store g !! k)).
  { intros k. rewrite <- F. specialize (HG k). injection HG as _ -> -> ->. reflexivity. }
  exists (SetMaterial mt (SetMesh m e)).
  split; [rewrite Hent, !list_lookup_alter_eq, He; reflexivity|].
  split; [reflexivity|]. split; [reflexivity|]. split; [reflexivity|].
  split; [intros k Hk; rewrite Hent, !list_lookup_alter_ne by congruence; reflexivity|].
  pose proof (HP tr) as HPt. rewrite decide_True in HPt by reflexivity.
  injection HPt as H1 H2 H3. unfold GetPosition, GetPitchYawRoll, GetScale in *.
  rewrite H1, H2, H3. simpl.
  split; [reflexivity|]. split; [unfold rot; rewrite Er; reflexivity|].
  split; [unfold sc; rewrite Es; reflexivity|].
  intros k Hk. pose proof (HP k) as HPk. rewrite decide_False in HPk by exact Hk.
  injection HPk as -> -> ->. auto.
Qed.

End MoreEntityHeaders.

(** ** The further properties at concrete inputs *)

Lemma RandomRange_within_witness :
  (0 < demoRAND_MAX)%Z /\ (0 <= demoRand 0 <= demoRAND_MAX)%Z /\ (5 <= 10)%Q /\
  (5 <= RandomRange demoRAND_MAX demoRand 0 5 10 <= 10)%Q.
Proof.
  assert (H0 : (0 < demoRAND_MAX)%Z) by reflexivity.
  assert (H1 : (0 <= demoRand 0 <= demoRAND_MAX)%Z) by (vm_compute; split; discriminate).
  assert (H2 : (5 <= 10)%Q) by (vm_compute; discriminate).
  split; [exact H0|]. split; [exact H1|]. split; [exact H2|].
  exact (proj1 (RandomRange_within demoRAND_MAX demoRand 0 5 10 H0 H1 H2)).
Defined.

Lemma checkInput_regenerates_witness :
  (KeyPress tabPressed VK_TAB = true -> (0 <= lightCount startedGame < 2 ^ 31)%Z) /\
  exists g',
    checkInput demoRAND_MAX demoRand tabPressed startedGame = Some g' /\
    Z.of_nat (length (lights g')) = Z.max 3 (lightCount startedGame).
Proof.
  assert (H : KeyPress tabPressed VK_TAB = true -> (0 <= lightCount startedGame < 2 ^ 31)%Z)
    by (intros _; vm_compute; split; [discriminate | reflexivity]).
  split; [exact H|].
  destruct (checkInput_regenerates demoRAND_MAX demoRand tabPressed startedGame H)
    as (g' & Hr & _ & _ & _ & _ & _ & Hl).
  exists g'. split; [exact Hr|]. exact (proj1 (Hl eq_refl)).
Defined.

Lemma GenerateLightsHeader_fields_witness :
  exists g' l',
    GenerateLightsHeader editingGui 0 startedGame = Some g' /\
    lights startedGame !! 0 = Some dir1 /\
    CollapsingHeader editingGui (ConcatStringAndInt "Light " (Z.of_nat 0 + 1)) = true /\
    lights g' !! 0 = Some l' /\
    (Type_ l' = LIGHT_TYPE_SPOT -> Range l' = Range dir1).
Proof.
  pose (g' := default startedGame (GenerateLightsHeader editingGui 0 startedGame)).
  assert (H : GenerateLightsHeader editingGui 0 startedGame = Some g')
    by (vm_compute; reflexivity).
  assert (Hl : lights startedGame !! 0 = Some dir1) by (vm_compute; reflexivity).
  assert (Ho : CollapsingHeader editingGui (ConcatStringAndInt "Light " (Z.of_nat 0 + 1)) = true)
    by reflexivity.
  destruct (GenerateLightsHeader_fields editingGui 0 startedGame g' dir1 H Hl Ho)
    as (l' & H1 & _ & _ & _ & H5).
  exists g', l'. split; [exact H|]. split; [exact Hl|]. split; [exact Ho|].
  split; [exact H1 | exact H5].
Defined.

Lemma UpdateSceneWindow_fixed_witness :
  exists g',
    UpdateSceneWindow editingGui startedGame = Some g' /\
    guiFixed g' = guiFixed startedGame.
Proof.
  pose (g' := default startedGame (UpdateSceneWindow editingGui startedGame)).
  assert (H : UpdateSceneWindow editingGui startedGame = Some g')
    by (vm_compute; reflexivity).
  exists g'. split; [exact H|].
  exact (UpdateSceneWindow_fixed editingGui startedGame g' H).
Defined.

Lemma GenerateMaterialsHeader_shader_witness :
  exists g' m',
    GenerateMaterialsHeader editingGui 0 startedGame = Some g' /\
    CollapsingHeader editingGui (ConcatStringAndInt "Material " (Z.of_nat 0 + 1)) = true /\
    materials startedGame !! 0 = Some 0 /\
    materialHeap startedGame !! 0 = Some (newMaterial 1 0) /\
    materialHeap g' !! 0 = Some m' /\
    PS m' = pixelShaderPBR startedGame.
Proof.
  pose (g' := default startedGame (GenerateMaterialsHeader editingGui 0 startedGame)).
  assert (H : GenerateMaterialsHeader editingGui 0 startedGame = Some g')
    by (vm_compute; reflexivity).
  assert (Ho : CollapsingHeader editingGui
                 (ConcatStringAndInt "Material " (Z.of_nat 0 + 1)) = true) by reflexivity.
  assert (Hp : materials startedGame !! 0 = Some 0) by (vm_compute; reflexivity).
  assert (Hm : materialHeap startedGame !! 0 = Some (newMaterial 1 0))
    by (vm_compute; reflexivity).
  destruct (GenerateMaterialsHeader_shader editingGui 0 0 startedGame g' (newMaterial 1 0)
              H Ho Hp Hm) as (m' & H1 & H2 & _).
  exists g', m'. split; [exact H|]. split; [exact Ho|]. split; [exact Hp|].
  split; [exact Hm|]. split; [exact H1 | exact H2].
Defined.

Lemma GenerateCameraHeader_fields_witness :
  exists g',
    GenerateCameraHeader editingGui startedGame = Some g' /\
    CollapsingHeader editingGui "Cameras" = true /\
    camera startedGame < length (store startedGame) /\
    GetPosition (store g') (camera startedGame) = Float3 1 2 3 /\
    links (store g') = links (store startedGame).
Proof.
  pose (g' := default startedGame (GenerateCameraHeader editingGui startedGame)).
  assert (H : GenerateCameraHeader editingGui startedGame = Some g')
    by (vm_compute; reflexivity).
  assert (Ho : CollapsingHeader editingGui "Cameras" = true) by reflexivity.
  assert (Hc : camera startedGame < length (store startedGame)) by (vm_compute; lia).
  destruct (GenerateCameraHeader_fields editingGui startedGame g' H Ho Hc)
    as (H1 & _ & _ & H4).
  exists g'. split; [exact H|]. split; [exact Ho|]. split; [exact Hc|].
  split; [exact H1 | exact H4].
Defined.

Lemma ThirdPersonCamera_new_observable_witness :
  0 < length (entityTransforms (M := SymMatrix)) /\
  observable followedArena =
    observable (entityTransforms (M := SymMatrix)) ++
      [(Float3 0 0 0, Float3 0 0 0, Float3 1 1 1, [6], None);
       (Float3 0 0 (-15), Float3 0 0 0, Float3 1 1 1, [], Some 5)].
Proof.
  assert (H : 0 < length (entityTransforms (M := SymMatrix))) by (vm_compute; lia).
  split; [exact H|].
  destruct (ThirdPersonCamera_new_observable (entityTransforms (M := SymMatrix)) 0 H)
    as [Ho _].
  unfold followedArena. rewrite Ho. reflexivity.
Defined.

Lemma Inv_followedArena : Inv followedArena.
Proof.
  unfold followedArena, ThirdPersonCamera_new. cbn [snd]. apply Inv_AddChild.
  unfold SetPosition.
  apply Inv_local_mutation; [reflexivity | reflexivity |]. apply Inv_app_fresh.
  apply Inv_local_mutation; [reflexivity | reflexivity |]. apply Inv_app_fresh.
  apply Inv_entityTransforms.
Qed.

Lemma ThirdPersonCamera_Update_cache_witness :
  Inv followedArena /\ 6 < length followedArena /\
  exists tc,
    ThirdPersonCamera_Update noKeys (1 # 60) (BuildThirdPersonCamera 0 5 6) followedArena !! 6
      = Some tc /\
    matricesDirty tc = false.
Proof.
  assert (H : 6 < length followedArena) by (vm_compute; lia).
  split; [exact Inv_followedArena|]. split; [exact H|].
  destruct (ThirdPersonCamera_Update_cache noKeys (1 # 60) (BuildThirdPersonCamera 0 5 6)
              followedArena Inv_followedArena H) as (_ & _ & tc & H1 & H2 & _).
  exists tc. split; [exact H1 | exact H2].
Defined.

Lemma tpcLinked_followedArena : tpcLinked followedArena (BuildThirdPersonCamera 0 5 6).
Proof.
  unfold tpcLinked. cbn [tpcEntity tpcPivot tpcCamera].
  split; [lia|]. split; [lia|]. split; [lia|]. split; [vm_compute; lia|].
  split; [vm_compute; reflexivity|]. split; vm_compute; reflexivity.
Qed.

Lemma ThirdPersonCamera_Update_observable_witness :
  tpcLinked followedArena (BuildThirdPersonCamera 0 5 6) /\
  observable (ThirdPersonCamera_Update noKeys (1 # 60) (BuildThirdPersonCamera 0 5 6)
                followedArena) !! 3
  = observable followedArena !! 3.
Proof.
  split; [exact tpcLinked_followedArena|].
  rewrite (ThirdPersonCamera_Update_observable noKeys (1 # 60) (BuildThirdPersonCamera 0 5 6)
             followedArena tpcLinked_followedArena).
  cbn [tpcEntity tpcPivot tpcCamera].
  rewrite !list_lookup_alter_ne by lia. reflexivity.
Defined.

Lemma GenerateEntitiesHeader_fields_witness :
  exists g' e',
    GenerateEntitiesHeader editingGui 0 startedGame = Some g' /\
    CollapsingHeader editingGui (ConcatStringAndInt "Entity " (Z.of_nat 0 + 1)) = true /\
    entities startedGame !! 0 = Some (BuildEntity 0 7 0) /\
    EntityTransform (BuildEntity 0 7 0) < length (store startedGame) /\
    entities g' !! 0 = Some e' /\
    GetPosition (store g') 0 = Float3 1 2 3.
Proof.
  pose (g' := default startedGame (GenerateEntitiesHeader editingGui 0 startedGame)).
  assert (H : GenerateEntitiesHeader editingGui 0 startedGame = Some g')
    by (vm_compute; reflexivity).
  assert (Ho : CollapsingHeader editingGui
                 (ConcatStringAndInt "Entity " (Z.of_nat 0 + 1)) = true) by reflexivity.
  assert (He : entities startedGame !! 0 = Some (BuildEntity 0 7 0))
    by (vm_compute; reflexivity).
  assert (Ht : EntityTransform (BuildEntity 0 7 0) < length (store startedGame))
    by (vm_compute; lia).
  destruct (GenerateEntitiesHeader_fields editingGui 0 startedGame g' (BuildEntity 0 7 0)
              H Ho He Ht) as (e' & H1 & _ & _ & _ & _ & H6 & _).
  exists g', e'. split; [exact H|]. split; [exact Ho|]. split; [exact He|].
  split; [exact Ht|]. split; [exact H1 | exact H6].
Defined.
